(** * Native comment merge for DOCX packages: model and verification

    Shallow embedding of [lib/comment-merge.ts] (the merge engine behind
    [mergeDocxAddNativeCommentsInPlace]) and proofs of the properties the
    design document states about it.

    Conventions of the model.
    - A JavaScript string is the list of its UTF-16 code units ([list N]);
      [js "abc"] writes an ASCII literal.
    - A finite JavaScript number that holds an integer is the [Z] it
      holds; an array index or a length is a [nat].  The numbers the
      program computes are doubles: [parseInt] and [n + 1] round to 53
      significant bits ([roundToDouble]), and [String] writes exponent
      notation from 10^21 on.
    - A DOM node is a finite tree; an XML document is its document
      element.  The array [paragraphs] is the list of the [w:p] elements
      it holds, and a record mutates the element at its index.  A [w:p]
      nested in another [w:p], as in a text box, is one DOM object
      reachable from two entries of the array; the list of the model
      holds separate trees, so what is proved of the paragraphs after a
      run is proved for documents without nested paragraphs
      ([noParagraphInside]).
    - [String.prototype.toLowerCase] and [fuzzball.partial_ratio] are not
      part of the program; they are parameters of the development. *)

From Stdlib Require Import ZArith NArith Lia Decimal DecimalPos.
From stdpp Require Import base gmap sets list strings sorting.

Local Open Scope Z_scope.

(* ================================================================== *)
(** ** JavaScript strings and numbers *)
(* ================================================================== *)

Module JS.

Abbreviation jsstring := (list N).

(** An ASCII literal as a JavaScript string. *)
Definition js (s : string) : jsstring :=
  map Ascii.N_of_ascii (String.list_ascii_of_string s).

(** The regular expression class [\s]: WhiteSpace and LineTerminator of
    ECMAScript. *)
Definition isSpace (c : N) : bool :=
  ((9 <=? c) && (c <=? 13) || (c =? 32) || (c =? 160) || (c =? 5760)
   || (8192 <=? c) && (c <=? 8202) || (c =? 8232) || (c =? 8233)
   || (c =? 8239) || (c =? 8287) || (c =? 12288) || (c =? 65279))%N.

Definition isDigit (c : N) : bool := ((48 <=? c) && (c <=? 57))%N.

Fixpoint trimStart (s : jsstring) : jsstring :=
  match s with
  | [] => []
  | c :: s' => if isSpace c then trimStart s' else s
  end.

Definition trimEnd (s : jsstring) : jsstring := reverse (trimStart (reverse s)).

(** [s.trim()] *)
Definition trim (s : jsstring) : jsstring := trimEnd (trimStart s).

(** [s.replace(/\s+/g, " ")]; [inRun] tells that the previous code unit
    belonged to the whitespace run being replaced. *)
Fixpoint replaceSpaceRuns (s : jsstring) (inRun : bool) : jsstring :=
  match s with
  | [] => []
  | c :: s' =>
      if isSpace c
      then (if inRun then replaceSpaceRuns s' true
            else 32%N :: replaceSpaceRuns s' true)
      else c :: replaceSpaceRuns s' false
  end.

Fixpoint startsWith (needle hay : jsstring) : bool :=
  match needle, hay with
  | [], _ => true
  | _ :: _, [] => false
  | n :: ns, h :: hs => (n =? h)%N && startsWith ns hs
  end.

Fixpoint indexOf_from (hay needle : jsstring) (i : nat) : Z :=
  if startsWith needle hay then Z.of_nat i
  else match hay with
       | [] => -1
       | _ :: hay' => indexOf_from hay' needle (S i)
       end.

(** [hay.indexOf(needle)] *)
Definition indexOf (hay needle : jsstring) : Z := indexOf_from hay needle 0.

(** [hay.includes(needle)] *)
Definition includes (hay needle : jsstring) : bool := 0 <=? indexOf hay needle.

(** [s.slice(a, b)] for [0 <= a <= b]. *)
Definition slice (s : jsstring) (a b : nat) : jsstring :=
  take (b - a)%nat (drop a s).

(** [arr[i]] for a number [i]: [None] stands for [undefined]. *)
Definition at_index {A} (arr : list A) (i : Z) : option A :=
  if i <? 0 then None else arr !! Z.to_nat i.

(** Truthiness of a string. *)
Definition nonEmpty (s : jsstring) : bool :=
  match s with [] => false | _ => true end.

(** *** Numbers and decimal numerals

    The numbers of the program hold integers: comment identifiers and
    the numeric suffixes of relationship identifiers. A JavaScript
    number is a double: an integer below 2^53 in absolute value is
    itself, a greater one is rounded to 53 significant bits, and from
    2^1024 on it is an infinity. A finite number that holds an integer
    is written as the [Z] it holds; the two zeros are one [0], since the
    program only compares such numbers and prints them, and both zeros
    print as [0]. *)

(** The double nearest to the integer [z], ties to the even mantissa,
    for a result that is finite. *)
Definition roundToDouble (z : Z) : Z :=
  let a := Z.abs z in
  if a <? 2 ^ 53 then z
  else
    let e := Z.log2 a - 52 in
    let m := Z.shiftr a e in
    let r := a - Z.shiftl m e in
    let half := Z.shiftl 1 (e - 1) in
    let m' := if (half <? r) || ((r =? half) && Z.odd m) then m + 1 else m in
    Z.sgn z * Z.shiftl m' e.

Inductive JsNumber :=
| NaN
| PosInfinity
| NegInfinity
| Finite (z : Z).

(** The number that holds the integer [v]. *)
Definition toNumber (v : Z) : JsNumber :=
  let d := roundToDouble v in
  if 2 ^ 1024 <=? d then PosInfinity
  else if d <=? - 2 ^ 1024 then NegInfinity
  else Finite d.

(** [n + 1] for a finite number [n]; the sum of a double and 1 is
    finite. *)
Definition addOne (n : Z) : Z := roundToDouble (n + 1).

(** [s] without the zeros it begins with. *)
Fixpoint trimZeros (s : jsstring) : jsstring :=
  match s with
  | 48%N :: s' => trimZeros s'
  | _ => s
  end.

Fixpoint uint_units (d : Decimal.uint) : jsstring :=
  match d with
  | Nil => []
  | D0 d => 48%N :: uint_units d
  | D1 d => 49%N :: uint_units d
  | D2 d => 50%N :: uint_units d
  | D3 d => 51%N :: uint_units d
  | D4 d => 52%N :: uint_units d
  | D5 d => 53%N :: uint_units d
  | D6 d => 54%N :: uint_units d
  | D7 d => 55%N :: uint_units d
  | D8 d => 56%N :: uint_units d
  | D9 d => 57%N :: uint_units d
  end.

(** The decimal numeral of the integer [z]. *)
Definition decimalOf (z : Z) : jsstring :=
  match Z.to_int z with
  | Decimal.Pos d => uint_units d
  | Decimal.Neg d => 45%N :: uint_units d
  end.

(** The integer of fewest significant decimal digits that rounds to the
    double [a], the nearest to [a] when two have as few, tried with [k]
    digits and more; [digits] is the number of decimal digits of [a]. *)
Fixpoint shortestDecimal (fuel k : nat) (a : Z) (digits : nat) : Z :=
  match fuel with
  | O => a
  | S fuel' =>
      let p := 10 ^ Z.of_nat (digits - k) in
      let lo := a / p * p in
      let hi := lo + p in
      let okLo := roundToDouble lo =? a in
      let okHi := roundToDouble hi =? a in
      if okLo && okHi
      then (if (a - lo <? hi - a) || ((a - lo =? hi - a) && Z.even (a / p))
            then lo else hi)
      else if okLo then lo
      else if okHi then hi
      else shortestDecimal fuel' (S k) a digits
  end.

(** [String(a)] for a double [a] that holds an integer from 10^21 on:
    the digits of the shortest decimal, a point after the first when
    there are more, and the exponent. *)
Definition exponentNotation (a : Z) : jsstring :=
  let v := shortestDecimal 17 1 a (length (decimalOf a)) in
  let numeral := decimalOf v in
  let significant := reverse (trimZeros (reverse numeral)) in
  let exponent := decimalOf (Z.of_nat (length numeral - 1)) in
  match significant with
  | [] => []
  | d :: [] => d :: 101%N :: 43%N :: exponent
  | d :: more => d :: 46%N :: more ++ 101%N :: 43%N :: exponent
  end.

(** [String(z)] for a number that holds the integer [z]. *)
Definition String_of (z : Z) : jsstring :=
  if Z.abs z <? 10 ^ 21 then decimalOf z
  else if z <? 0 then 45%N :: exponentNotation (- z)
  else exponentNotation z.

(** Value of the longest prefix of decimal digits, read left to right. *)
Fixpoint parseDigits (s : jsstring) (acc : Z) : Z :=
  match s with
  | [] => acc
  | c :: s' =>
      if isDigit c then parseDigits s' (10 * acc + Z.of_N (c - 48)) else acc
  end.

(** [Number.parseInt(s, 10)]: the number that holds the integer the
    digits write, rounded as engines round it. *)
Definition parseInt10 (s : jsstring) : JsNumber :=
  let s1 := trimStart s in
  let '(sign, s2) :=
    match s1 with
    | 45%N :: r => (-1, r)
    | 43%N :: r => (1, r)
    | _ => (1, s1)
    end in
  match s2 with
  | c :: _ => if isDigit c then toNumber (sign * parseDigits s2 0) else NaN
  | [] => NaN
  end.

End JS.
Import JS.

(* ================================================================== *)
(** ** The DOM fragment the merge uses *)
(* ================================================================== *)

Module Dom.

(** An attribute; the empty [attrNamespaceURI] stands for [null]. *)
Record Attr := mkAttr {
  attrNamespaceURI : string;
  attrPrefix : string;
  attrLocalName : string;
  attrValue : jsstring
}.

(** A node: an element, a text node, or a node of another type (an XML
    comment or a processing instruction). The empty [namespaceURI] and
    the empty prefix stand for [null]. *)
#[warnings="-register-all"]
Inductive Node :=
| Element (namespaceURI prefix localName : string)
          (attributes : list Attr) (childNodes : list Node)
| TextNode (data : jsstring)
| OtherNode (data : jsstring).

Definition qualifiedName (pre loc : string) : string :=
  if String.eqb pre "" then loc else (pre +:+ ":" +:+ loc)%string.

Definition isElement (n : Node) : bool :=
  match n with Element _ _ _ _ _ => true | _ => false end.

(** [n.nodeType === Node.ELEMENT_NODE && n.namespaceURI === ns && n.localName === loc] *)
Definition isElementNS (ns loc : string) (n : Node) : bool :=
  match n with
  | Element ns' _ loc' _ _ => String.eqb ns' ns && String.eqb loc' loc
  | _ => false
  end.

(** [n.tagName === qname] for an element [n]. *)
Definition hasTagName (qname : string) (n : Node) : bool :=
  match n with
  | Element _ pre loc _ _ => String.eqb (qualifiedName pre loc) qname
  | _ => false
  end.

Definition children (n : Node) : list Node :=
  match n with Element _ _ _ _ kids => kids | _ => [] end.

Definition setChildren (n : Node) (kids : list Node) : Node :=
  match n with
  | Element ns pre loc attrs _ => Element ns pre loc attrs kids
  | _ => n
  end.

(** The elements of the subtree of [n] in document order, [n] first
    when it is an element. *)
Fixpoint subtreeElements (n : Node) : list Node :=
  match n with
  | Element _ _ _ _ kids => n :: flat_map subtreeElements kids
  | _ => []
  end.

(** What a [TreeWalker] rooted at [n] with [SHOW_ELEMENT] visits through
    [nextNode()]: the descendant elements, the root excluded. *)
Definition descendantElements (n : Node) : list Node :=
  flat_map subtreeElements (children n).

(** [el.getElementsByTagNameNS(ns, loc)] on an element. *)
Definition getElementsByTagNameNS (ns loc : string) (el : Node) : list Node :=
  List.filter (isElementNS ns loc) (descendantElements el).

(** [doc.getElementsByTagNameNS(ns, loc)] on the document whose document
    element is [root]. *)
Definition docGetElementsByTagNameNS (ns loc : string) (root : Node) : list Node :=
  List.filter (isElementNS ns loc) (subtreeElements root).

(** [doc.getElementsByTagName(qname)] on an XML document. *)
Definition docGetElementsByTagName (qname : string) (root : Node) : list Node :=
  List.filter (hasTagName qname) (subtreeElements root).

(** [el.textContent] *)
Fixpoint textContent (n : Node) : jsstring :=
  match n with
  | Element _ _ _ _ kids => flat_map textContent kids
  | TextNode d => d
  | OtherNode _ => []
  end.

Definition attrsOf (n : Node) : list Attr :=
  match n with Element _ _ _ attrs _ => attrs | _ => [] end.

(** [el.getAttribute(qname)]; [None] stands for [null]. *)
Definition getAttribute (qname : string) (el : Node) : option jsstring :=
  attrValue <$>
    List.find (fun a => String.eqb (qualifiedName (attrPrefix a) (attrLocalName a)) qname)
              (attrsOf el).

(** [el.getAttributeNS(ns, loc)] *)
Definition getAttributeNS (ns loc : string) (el : Node) : option jsstring :=
  attrValue <$>
    List.find (fun a => String.eqb (attrNamespaceURI a) ns && String.eqb (attrLocalName a) loc)
              (attrsOf el).

Fixpoint setAttrIn (same : Attr -> bool) (new : Attr) (attrs : list Attr) : list Attr :=
  match attrs with
  | [] => [new]
  | a :: rest =>
      if same a
      then mkAttr (attrNamespaceURI a) (attrPrefix a) (attrLocalName a) (attrValue new) :: rest
      else a :: setAttrIn same new rest
  end.

(** [el.setAttributeNS(ns, pre:loc, v)] *)
Definition setAttributeNS (ns pre loc : string) (v : jsstring) (el : Node) : Node :=
  match el with
  | Element ens epre eloc attrs kids =>
      Element ens epre eloc
        (setAttrIn (fun a => String.eqb (attrNamespaceURI a) ns && String.eqb (attrLocalName a) loc)
                   (mkAttr ns pre loc v) attrs) kids
  | _ => el
  end.

(** [el.setAttribute(qname, v)] for a name without prefix. *)
Definition setAttribute (qname : string) (v : jsstring) (el : Node) : Node :=
  match el with
  | Element ens epre eloc attrs kids =>
      Element ens epre eloc
        (setAttrIn (fun a => String.eqb (qualifiedName (attrPrefix a) (attrLocalName a)) qname)
                   (mkAttr "" "" qname v) attrs) kids
  | _ => el
  end.

(** [doc.createElementNS(ns, pre:loc)] *)
Definition createElementNS (ns pre loc : string) : Node :=
  Element ns pre loc [] [].

(** [el.textContent = s] on an element: one text child, none for the
    empty string. *)
Definition setTextContent (s : jsstring) (el : Node) : Node :=
  setChildren el (match s with [] => [] | _ => [TextNode s] end).

(** [parent.appendChild(n)] *)
Definition appendChild (n : Node) (parent : Node) : Node :=
  setChildren parent (children parent ++ [n]).

(** [parent.insertBefore(n, ref)] on the child list, [ref] being the
    child at position [refPos]. *)
Definition insertBefore (kids : list Node) (n : Node) (refPos : nat) : list Node :=
  take refPos kids ++ n :: drop refPos kids.

(** [l] with its first element on which [f] answers replaced by the
    answer; [None] when [f] answers on none. *)
Definition updateFirst {A} (f : A -> option A) : list A -> option (list A) :=
  fix go (l : list A) : option (list A) :=
    match l with
    | [] => None
    | x :: l' =>
        match f x with
        | Some x' => Some (x' :: l')
        | None => cons x <$> go l'
        end
    end.

(** The append of [n] to the first element of the document, in document
    order, that satisfies [p]; [None] when no element does. *)
Fixpoint appendToFirst (p : Node -> bool) (n : Node) (root : Node) : option Node :=
  match root with
  | Element ns pre loc attrs kids =>
      if p root then Some (Element ns pre loc attrs (kids ++ [n]))
      else Element ns pre loc attrs <$> updateFirst (appendToFirst p n) kids
  | _ => None
  end.

End Dom.
Import Dom.

(* ================================================================== *)
(** ** The merge engine ([lib/comment-merge.ts]) *)
(* ================================================================== *)

Record MergeCommentItem := mkItem {
  anchor_text : option jsstring;
  comment_text : option jsstring;
  author : option jsstring;
  edit_type_label : option jsstring
}.

Inductive StartMethod := substring | prefix | fuzzy | none.

Record Detail := mkDetail {
  index : nat;
  score : Z;
  anchorPreview : jsstring;
  targetPreview : jsstring;
  method : string;
  approxStart : option nat;
  anchorNodeIndex : nat;
  startMethod : StartMethod
}.

Record MergeResult := mkMergeResult {
  mergedCount : nat;
  totalCount : nat;
  details : list Detail
}.

Definition W_NS : string := "http://schemas.openxmlformats.org/wordprocessingml/2006/main".
Definition REL_NS : string := "http://schemas.openxmlformats.org/package/2006/relationships".
Definition CONTENT_TYPES_NS : string := "http://schemas.openxmlformats.org/package/2006/content-types".
Definition XML_NS : string := "http://www.w3.org/XML/1998/namespace".
Definition COMMENTS_REL_TYPE : string :=
  "http://schemas.openxmlformats.org/officeDocument/2006/relationships/comments".
Definition COMMENTS_CONTENT_TYPE : string :=
  "application/vnd.openxmlformats-officedocument.wordprocessingml.comments+xml".

Definition cleanAnchorText (text : jsstring) : jsstring :=
  trim (replaceSpaceRuns text false).

(** [getParagraphText]: the walker visits the descendant elements of
    the paragraph in document order. *)
Definition paragraphTextOf (el : Node) : jsstring :=
  match el with
  | Element ns _ tag _ _ =>
      if negb (String.eqb ns W_NS) then []
      else if String.eqb tag "t" then textContent el
      else if String.eqb tag "tab" then [9%N]
      else if String.eqb tag "br" || String.eqb tag "cr" then [10%N]
      else []
  | _ => []
  end.

Definition getParagraphText (paragraph : Node) : jsstring :=
  flat_map paragraphTextOf (descendantElements paragraph).

(** The quote and dash folding of [normalizeForFuzzyIndexing]. *)
Definition foldQuotes (ch : N) : N :=
  if ((ch =? 0x2019) || (ch =? 0x2018) || (ch =? 0x02BC) || (ch =? 0xFF07) || (ch =? 0x201B))%N
  then 39%N
  else if ((ch =? 0x201C) || (ch =? 0x201D))%N then 34%N
  else if ((ch =? 0x2013) || (ch =? 0x2014))%N then 45%N
  else ch.

Record Normalized := mkNormalized {
  normalized : jsstring;
  normToOrig : list nat
}.

Section Engine.

(** [ch.toLowerCase()] of the standard library, for a string [ch]. *)
Variable toLowerCase : jsstring -> jsstring.

(** [fuzzball.partial_ratio(a, b, { full_process: false })]. *)
Variable partial_ratio : jsstring -> jsstring -> Z.

Definition scoreMatch (anchorText paragraphText : jsstring) : Z * string :=
  (partial_ratio anchorText paragraphText, "partial_ratio"%string).

(** The loop of [normalizeForFuzzyIndexing] from index [i] on; [norm],
    [map] and [lastWasSpace] are the variables [normalized],
    [normToOrig] and [lastWasSpace] of the source. *)
Fixpoint normalizeLoop (text : jsstring) (i : nat)
    (norm : jsstring) (map : list nat) (lastWasSpace : bool)
  : jsstring * list nat :=
  match text with
  | [] => (norm, map)
  | raw :: rest =>
      if isSpace raw then
        if negb lastWasSpace
        then normalizeLoop rest (S i) (norm ++ [32%N]) (map ++ [i]) true
        else normalizeLoop rest (S i) norm map lastWasSpace
      else
        normalizeLoop rest (S i) (norm ++ toLowerCase [foldQuotes raw]) (map ++ [i]) false
  end.

Definition normalizeForFuzzyIndexing (text : jsstring) : Normalized :=
  let '(norm, map) := normalizeLoop text 0 [] [] false in
  {| normalized := trim norm; normToOrig := map |}.

Definition normalizeForFuzzySearch (text : jsstring) : jsstring :=
  normalized (normalizeForFuzzyIndexing text).

(** *** [findApproxMatchStartIndex] *)

(** [normAnchor.slice(0, 80).trim()] *)
Definition anchorPrefix (normAnchor : jsstring) : jsstring :=
  trim (slice normAnchor 0 80).

Definition scanNeedleOf (normAnchor : jsstring) : jsstring :=
  if (220 <? length normAnchor)%nat then slice normAnchor 0 220 else normAnchor.

Definition windowLenOf (scanNeedle : jsstring) : nat :=
  Nat.min (Nat.max (length scanNeedle) 80) 260.

(** The values [pos] takes in
    [for (pos = 0; pos <= Math.max(0, len - 1); pos += 5)]. *)
Definition scanPositions (len : nat) : list nat :=
  List.map (fun k => (5 * k)%nat) (seq 0 (S (Nat.max 0 (len - 1) / 5))).

(** The body of the scan loop over the remaining positions; the result
    is [(bestScore, bestPos)]. *)
Fixpoint scanLoop (normPara scanNeedle : jsstring) (windowLen : nat)
    (positions : list nat) (bestScore bestPos : Z) : Z * Z :=
  match positions with
  | [] => (bestScore, bestPos)
  | pos :: rest =>
      let window := slice normPara pos (pos + windowLen) in
      if negb (nonEmpty window) then (bestScore, bestPos)
      else
        let score := partial_ratio scanNeedle window in
        if bestScore <? score then
          if 98 <=? score then (score, Z.of_nat pos)
          else scanLoop normPara scanNeedle windowLen rest score (Z.of_nat pos)
        else scanLoop normPara scanNeedle windowLen rest bestScore bestPos
  end.

(** The fuzzy window scan, the last stage of [findApproxMatchStartIndex]. *)
Definition fuzzyWindowScan (normPara : jsstring) (normToOrig : list nat)
    (normAnchor : jsstring) : option nat :=
  let scanNeedle := scanNeedleOf normAnchor in
  let windowLen := windowLenOf scanNeedle in
  let '(bestScore, bestPos) :=
    scanLoop normPara scanNeedle windowLen (scanPositions (length normPara)) 0 (-1) in
  if (0 <=? bestPos) && (60 <=? bestScore) then at_index normToOrig bestPos
  else None.

Definition findApproxMatchStartIndex (paragraphText anchorText : jsstring) : option nat :=
  let np := normalizeForFuzzyIndexing paragraphText in
  let normPara := normalized np in
  let normAnchor := normalizeForFuzzySearch anchorText in
  if negb (nonEmpty normAnchor) then None
  else
    let direct := indexOf normPara normAnchor in
    if 0 <=? direct then at_index (normToOrig np) direct
    else
      let pfx := anchorPrefix normAnchor in
      if (12 <=? length pfx)%nat && (0 <=? indexOf normPara pfx)
      then at_index (normToOrig np) (indexOf normPara pfx)
      else fuzzyWindowScan normPara (normToOrig np) normAnchor.

(** *** [findBestParagraphMatch] *)

Record BestMatch := mkBestMatch {
  bestIndex : Z;
  bestScore : Z;
  bestMethod : string
}.

Definition bestMatchStep (paragraphTexts : list jsstring) (cleanAnchor : jsstring)
    (best : BestMatch) (i : nat) : BestMatch :=
  let rawParagraphText := default [] (paragraphTexts !! i) in
  if negb (nonEmpty (trim rawParagraphText)) then best
  else
    let '(score, method) := scoreMatch cleanAnchor rawParagraphText in
    if bestScore best <? score
    then {| bestIndex := Z.of_nat i; bestScore := score; bestMethod := method |}
    else best.

Definition findBestParagraphMatch (paragraphs : list Node)
    (paragraphTexts : list jsstring) (anchorText : jsstring) : BestMatch :=
  let cleanAnchor := cleanAnchorText anchorText in
  if negb (nonEmpty cleanAnchor)
  then {| bestIndex := -1; bestScore := 0; bestMethod := "partial_ratio" |}
  else
    fold_left (bestMatchStep paragraphTexts cleanAnchor)
      (seq 0 (length paragraphs))
      {| bestIndex := -1; bestScore := 0; bestMethod := "partial_ratio" |}.

End Engine.

(** *** Comment identifiers and the package manifests *)

(** The identifier [getMaxCommentId] reads on a [w:comment] element:
    [Number.parseInt(node.getAttributeNS(W_NS, "id") ?? node.getAttribute("w:id") ?? "0", 10)]. *)
Definition commentIdOf (node : Node) : JsNumber :=
  let idAttr :=
    match getAttributeNS W_NS "id" node with
    | Some v => Some v
    | None => getAttribute "w:id" node
    end in
  parseInt10 (default (js "0") idAttr).

(** [if (Number.isFinite(id) && id > max) max = id] *)
Definition maxIdStep (max : Z) (node : Node) : Z :=
  match commentIdOf node with
  | Finite id => if max <? id then id else max
  | _ => max
  end.

Definition getMaxCommentId (commentsDoc : Node) : Z :=
  fold_left maxIdStep (docGetElementsByTagNameNS W_NS "comment" commentsDoc) 0.

Definition isCommentsOverride (o : Node) : bool :=
  match getAttribute "PartName" o with
  | Some v => bool_decide (v = js "/word/comments.xml")
  | None => false
  end.

Definition ensureCommentsPartInContentTypes (contentTypesDoc : Node) : Node :=
  let overrides := docGetElementsByTagName "Override" contentTypesDoc in
  if existsb isCommentsOverride overrides then contentTypesDoc
  else
    let override :=
      setAttribute "ContentType" (js COMMENTS_CONTENT_TYPE)
        (setAttribute "PartName" (js "/word/comments.xml")
           (createElementNS CONTENT_TYPES_NS "" "Override")) in
    appendChild override contentTypesDoc.

Definition isCommentsRelationship (r : Node) : bool :=
  match getAttribute "Type" r with
  | Some v => bool_decide (v = js COMMENTS_REL_TYPE)
  | None => false
  end.

(** The match of [/^rId(\d+)$/] on [id]: the captured digits. *)
Definition matchRId (id : jsstring) : option jsstring :=
  match id with
  | 114%N :: 73%N :: 100%N :: digits =>
      if nonEmpty digits && forallb isDigit digits then Some digits else None
  | _ => None
  end.

Definition maxRIdStep (maxNum : Z) (r : Node) : Z :=
  let id := default [] (getAttribute "Id" r) in
  match matchRId id with
  | Some digits =>
      match parseInt10 digits with
      | Finite n => if maxNum <? n then n else maxNum
      | _ => maxNum
      end
  | None => maxNum
  end.

(** [ensureCommentsRelationship]: the document after the call and the
    identifier returned. *)
Definition ensureCommentsRelationship (documentRelsDoc : Node) : Node * jsstring :=
  let rels := docGetElementsByTagName "Relationship" documentRelsDoc in
  match List.find isCommentsRelationship rels with
  | Some existing =>
      (documentRelsDoc,
       match getAttribute "Id" existing with
       | Some v => if nonEmpty v then v else js "rIdComments"
       | None => js "rIdComments"
       end)
  | None =>
      let maxNum := fold_left maxRIdStep rels 0 in
      let newId := js "rId" ++ String_of (addOne maxNum) in
      let rel :=
        setAttribute "Target" (js "comments.xml")
          (setAttribute "Type" (js COMMENTS_REL_TYPE)
             (setAttribute "Id" newId (createElementNS REL_NS "" "Relationship"))) in
      (appendChild rel documentRelsDoc, newId)
  end.

(** The [w:comment] element [addNativeComment] builds. *)
Definition nativeComment (id : Z) (author isoDate text : jsstring) : Node :=
  let comment :=
    setAttributeNS W_NS "w" "date" isoDate
      (setAttributeNS W_NS "w" "author" author
         (setAttributeNS W_NS "w" "id" (String_of id)
            (createElementNS W_NS "w" "comment"))) in
  let p := createElementNS W_NS "w" "p" in
  let rRef := appendChild (createElementNS W_NS "w" "annotationRef")
                (createElementNS W_NS "w" "r") in
  let t := setTextContent text
             (setAttributeNS XML_NS "xml" "space" (js "preserve")
                (createElementNS W_NS "w" "t")) in
  let rText := appendChild t (createElementNS W_NS "w" "r") in
  appendChild (appendChild rText (appendChild rRef p)) comment.

(** [addNativeComment]: the comment goes under
    [getElementsByTagNameNS(W_NS, "comments")[0] || documentElement]. *)
Definition addNativeComment (commentsDoc : Node) (id : Z)
    (author isoDate text : jsstring) : Node :=
  let comment := nativeComment id author isoDate text in
  match appendToFirst (isElementNS W_NS "comments") comment commentsDoc with
  | Some doc' => doc'
  | None => appendChild comment commentsDoc
  end.

(** *** Anchor nodes *)

(** [insertAfter(parent, node, after)], [after] being the child at
    position [afterPos]. *)
Definition insertAfter (kids : list Node) (node : Node) (afterPos : nat) : list Node :=
  match kids !! S afterPos with
  | Some _ => insertBefore kids node (S afterPos)
  | None => kids ++ [node]
  end.

Definition createSpaceRun : Node :=
  let t := setTextContent (js " ")
             (setAttributeNS XML_NS "xml" "space" (js "preserve")
                (createElementNS W_NS "w" "t")) in
  appendChild t (createElementNS W_NS "w" "r").

(** The filter of [getDirectChildAnchorCandidates]. *)
Definition isAnchorCandidate (el : Node) : bool :=
  match el with
  | Element ns _ tag _ _ =>
      if negb (String.eqb ns W_NS) then false
      else if String.eqb tag "pPr" then false
      else if String.eqb tag "commentRangeStart" then false
      else if String.eqb tag "commentRangeEnd" then false
      else if String.eqb tag "r"
      then negb (0 <? length (getElementsByTagNameNS W_NS "commentReference" el))%nat
      else true
  | _ => false
  end.

Definition getDirectChildAnchorCandidates (paragraph : Node) : list Node :=
  List.filter isAnchorCandidate (children paragraph).

(** The positions, among the child nodes of the paragraph, of the
    elements [getDirectChildAnchorCandidates] returns: the candidates are
    references to child nodes, and [candidates[k]] is the child at
    position [candidatePositions !! k]. *)
Fixpoint candidatePositionsFrom (kids : list Node) (pos : nat) : list nat :=
  match kids with
  | [] => []
  | k :: rest =>
      if isAnchorCandidate k then pos :: candidatePositionsFrom rest (S pos)
      else candidatePositionsFrom rest (S pos)
  end.

Definition candidatePositions (paragraph : Node) : list nat :=
  candidatePositionsFrom (children paragraph) 0.

Definition childTextLengthOf (el : Node) : nat :=
  match el with
  | Element ns _ tag _ _ =>
      if negb (String.eqb ns W_NS) then 0%nat
      else if String.eqb tag "t" then length (textContent el)
      else if String.eqb tag "tab" || String.eqb tag "br" || String.eqb tag "cr" then 1%nat
      else 0%nat
  | _ => 0%nat
  end.

Definition getChildTextLength (node : Node) : nat :=
  fold_left (fun len el => (len + childTextLengthOf el)%nat) (descendantElements node) 0%nat.

(** The loop of [findBestAnchorCandidateIndexForOffset] from index [i]
    on; [None] when it runs to its end. *)
Fixpoint walkCandidates (candidates : list Node) (i cursor offset : nat) : option nat :=
  match candidates with
  | [] => None
  | c :: rest =>
      let nodeLen := getChildTextLength c in
      if (offset <? cursor + Nat.max 1 nodeLen)%nat then Some i
      else walkCandidates rest (S i) (cursor + Nat.max 1 nodeLen)%nat offset
  end.

Definition findBestAnchorCandidateIndexForOffset (paragraph : Node) (offset : nat) : nat :=
  let candidates := getDirectChildAnchorCandidates paragraph in
  if (length candidates =? 0)%nat then 0%nat
  else match walkCandidates candidates 0 0 offset with
       | Some i => i
       | None => (length candidates - 1)%nat
       end.

Definition createCommentReferenceRun (commentId : Z) : Node :=
  let rStyle := setAttributeNS W_NS "w" "val" (js "CommentReference")
                  (createElementNS W_NS "w" "rStyle") in
  let rPr := appendChild rStyle (createElementNS W_NS "w" "rPr") in
  let ref := setAttributeNS W_NS "w" "id" (String_of commentId)
               (createElementNS W_NS "w" "commentReference") in
  appendChild ref (appendChild rPr (createElementNS W_NS "w" "r")).

Definition commentRangeStart (commentId : Z) : Node :=
  setAttributeNS W_NS "w" "id" (String_of commentId)
    (createElementNS W_NS "w" "commentRangeStart").

Definition commentRangeEnd (commentId : Z) : Node :=
  setAttributeNS W_NS "w" "id" (String_of commentId)
    (createElementNS W_NS "w" "commentRangeEnd").

(** [insertCommentAnchorIntoParagraph]: the paragraph after the call.
    [anchorPos] is the position of [anchorNode] among the child nodes. *)
Definition insertCommentAnchorIntoParagraph (paragraph : Node) (commentId : Z)
    (anchorIndex : nat) : Node :=
  let target := candidatePositions paragraph !! anchorIndex in
  let '(kids, anchorPos) :=
    match target with
    | Some pos => (children paragraph, pos)
    | None => (children paragraph ++ [createSpaceRun], length (children paragraph))
    end in
  let rangeStart := commentRangeStart commentId in
  let rangeEnd := commentRangeEnd commentId in
  let refRun := createCommentReferenceRun commentId in
  let kids1 := insertBefore kids rangeStart anchorPos in
  let kids2 := insertAfter kids1 rangeEnd (S anchorPos) in
  let kids3 := insertAfter kids2 refRun (S (S anchorPos)) in
  setChildren paragraph kids3.

(** *** The record loop of [mergeDocxAddNativeCommentsInPlace] *)

(** What the loop reads and writes: the elements held by [paragraphs]
    (the document tree), the comments part, and the loop variables.
    Each entry of [paragraphs] is the subtree of one [w:p]; an insertion
    replaces the entry at its index and no other, which is what the DOM
    does when no [w:p] lies inside another. *)
Record MergeState := mkMergeState {
  paragraphs : list Node;
  commentsDoc : Node;
  nextCommentId : Z;
  mergedSoFar : nat;
  detailsSoFar : list Detail;
  usedAnchorIndicesByParagraph : gmap Z (gset nat)
}.

(** [while (used.has(anchorIdx)) anchorIdx++], at most [fuel] times. *)
Fixpoint probeFrom (fuel : nat) (used : gset nat) (anchorIdx : nat) : nat :=
  match fuel with
  | O => anchorIdx
  | S fuel' =>
      if decide (anchorIdx ∈ used) then probeFrom fuel' used (S anchorIdx)
      else anchorIdx
  end.

(** The probe: a set of [size used] indices stops it after at most that
    many steps. *)
Definition probeUnused (used : gset nat) (anchorIdx : nat) : nat :=
  probeFrom (size used) used anchorIdx.

(** [(item.author ?? "Reviewer").trim() || "Reviewer"] *)
Definition itemAuthor (item : MergeCommentItem) : jsstring :=
  let a := trim (default (js "Reviewer") (author item)) in
  if nonEmpty a then a else js "Reviewer".

(** [`${prefix}${commentText}`] with
    [prefix = editTypeLabel ? `[${editTypeLabel}] ` : ""]. *)
Definition fullCommentText (item : MergeCommentItem) : jsstring :=
  let commentText := default [] (comment_text item) in
  let pfx :=
    match edit_type_label item with
    | Some l => if nonEmpty l then js "[" ++ l ++ js "] " else []
    | None => []
    end in
  pfx ++ commentText.

Section Merge.

Variable toLowerCase : jsstring -> jsstring.
Variable partial_ratio : jsstring -> jsstring -> Z.

(** The part of the loop body that sets [startMethod] and
    [approxStart]. *)
Definition locateStart (paraText anchor : jsstring) : StartMethod * option nat :=
  let normPara := normalized (normalizeForFuzzyIndexing toLowerCase paraText) in
  let normAnchor := normalizeForFuzzySearch toLowerCase anchor in
  let find := findApproxMatchStartIndex toLowerCase partial_ratio paraText anchor in
  if nonEmpty normAnchor && includes normPara normAnchor then (substring, find)
  else
    let pfx := if nonEmpty normAnchor then anchorPrefix normAnchor else [] in
    if nonEmpty pfx && includes normPara pfx then (prefix, find)
    else
      match find with
      | Some off => (fuzzy, Some off)
      | None => (none, None)
      end.

(** One iteration of the loop, for the record [item] at index [i]. *)
Definition mergeStep (paragraphTexts : list jsstring) (nowIso : jsstring)
    (st : MergeState) (i : nat) (item : MergeCommentItem) : MergeState :=
  let anchor := default [] (anchor_text item) in
  let best := findBestParagraphMatch partial_ratio (paragraphs st) paragraphTexts anchor in
  if bestIndex best <? 0 then st
  else
    match at_index (paragraphs st) (bestIndex best) with
    | None => st
    | Some paragraph =>
        let commentId := nextCommentId st in
        let commentsDoc' :=
          addNativeComment (commentsDoc st) commentId (itemAuthor item) nowIso
            (fullCommentText item) in
        let paraText := default [] (at_index paragraphTexts (bestIndex best)) in
        let '(startMethod, approxStart) := locateStart paraText anchor in
        let anchorIdx0 :=
          findBestAnchorCandidateIndexForOffset paragraph (default 0%nat approxStart) in
        let used := default ∅ (usedAnchorIndicesByParagraph st !! bestIndex best) in
        let anchorIdx := probeUnused used anchorIdx0 in
        let used' := {[anchorIdx]} ∪ used in
        let paragraph' := insertCommentAnchorIntoParagraph paragraph commentId anchorIdx in
        {| paragraphs := <[Z.to_nat (bestIndex best) := paragraph']> (paragraphs st);
           commentsDoc := commentsDoc';
           nextCommentId := addOne commentId;
           mergedSoFar := S (mergedSoFar st);
           detailsSoFar :=
             detailsSoFar st ++
             [{| index := i;
                 score := bestScore best;
                 anchorPreview := slice (cleanAnchorText anchor) 0 80;
                 targetPreview :=
                   slice (cleanAnchorText
                            (default [] (at_index paragraphTexts (bestIndex best)))) 0 80;
                 method := bestMethod best;
                 approxStart := approxStart;
                 anchorNodeIndex := anchorIdx;
                 startMethod := startMethod |}];
           usedAnchorIndicesByParagraph :=
             <[bestIndex best := used']> (usedAnchorIndicesByParagraph st) |}
    end.

(** [for (let i = 0; i < items.length; i++)] from index [i] on. *)
Fixpoint mergeLoop (paragraphTexts : list jsstring) (nowIso : jsstring)
    (items : list MergeCommentItem) (i : nat) (st : MergeState) : MergeState :=
  match items with
  | [] => st
  | item :: rest =>
      mergeLoop paragraphTexts nowIso rest (S i)
        (mergeStep paragraphTexts nowIso st i item)
  end.

Definition initialState (paragraphs0 : list Node) (commentsDoc0 : Node) : MergeState :=
  {| paragraphs := paragraphs0;
     commentsDoc := commentsDoc0;
     nextCommentId := addOne (getMaxCommentId commentsDoc0);
     mergedSoFar := 0;
     detailsSoFar := [];
     usedAnchorIndicesByParagraph := ∅ |}.

(** The state after the record loop, for the paragraphs of the document
    part and the comments part as they were read. *)
Definition mergeRecords (paragraphs0 : list Node) (commentsDoc0 : Node)
    (items : list MergeCommentItem) (nowIso : jsstring) : MergeState :=
  let paragraphTexts := List.map getParagraphText paragraphs0 in
  mergeLoop paragraphTexts nowIso items 0 (initialState paragraphs0 commentsDoc0).

(** The [result] of [mergeDocxAddNativeCommentsInPlace]. *)
Definition mergeReport (paragraphs0 : list Node) (commentsDoc0 : Node)
    (items : list MergeCommentItem) (nowIso : jsstring) : MergeResult :=
  let st := mergeRecords paragraphs0 commentsDoc0 items nowIso in
  {| mergedCount := mergedSoFar st;
     totalCount := length items;
     details := detailsSoFar st |}.

End Merge.

(* ================================================================== *)
(** ** Vocabulary of the statements *)
(* ================================================================== *)

(** [clamp x lo hi], as the design document writes it. *)
Definition clamp (x lo hi : nat) : nat := Nat.min (Nat.max x lo) hi.

(** The identifiers [getMaxCommentId] reads in a comments part, one per
    [w:comment] element, as [parseInt] gives them. *)
Definition commentIds (commentsDoc : Node) : list JsNumber :=
  List.map commentIdOf (docGetElementsByTagNameNS W_NS "comment" commentsDoc).

(** A record is matched when [findBestParagraphMatch] finds a paragraph
    for its anchor text. *)
Definition recordMatches (partial_ratio : jsstring -> jsstring -> Z)
    (paragraphs0 : list Node) (item : MergeCommentItem) : bool :=
  0 <=? bestIndex (findBestParagraphMatch partial_ratio paragraphs0
                     (List.map getParagraphText paragraphs0)
                     (default [] (anchor_text item))).

(** The records matched among [items], each with its index, [i] being
    the index of the first. *)
Definition mergedFrom (partial_ratio : jsstring -> jsstring -> Z)
    (paragraphs0 : list Node) (i : nat) (items : list MergeCommentItem)
  : list (nat * MergeCommentItem) :=
  List.filter (fun p => recordMatches partial_ratio paragraphs0 (snd p))
    (combine (seq i (length items)) items).

(** The bookkeeping of the used anchor-node indices after the records
    before index [i]: every recorded index is in the set of its
    paragraph, and two records on one paragraph have different indices. *)
Definition anchorIndicesTracked (partial_ratio : jsstring -> jsstring -> Z)
    (paragraphs0 : list Node) (all : list MergeCommentItem) (i : nat)
    (st : MergeState) : Prop :=
  let bestOf item :=
    bestIndex (findBestParagraphMatch partial_ratio paragraphs0
                 (List.map getParagraphText paragraphs0)
                 (default [] (anchor_text item))) in
  (forall d, d ∈ detailsSoFar st ->
     (index d < i)%nat /\
     exists item, all !! index d = Some item /\
       anchorNodeIndex d ∈
         default (∅ : gset nat) (usedAnchorIndicesByParagraph st !! bestOf item)) /\
  (forall d1 d2 item1 item2,
     d1 ∈ detailsSoFar st -> d2 ∈ detailsSoFar st ->
     index d1 <> index d2 ->
     all !! index d1 = Some item1 -> all !! index d2 = Some item2 ->
     bestOf item1 = bestOf item2 ->
     anchorNodeIndex d1 <> anchorNodeIndex d2).

(** The width a candidate occupies in the walk of
    [findBestAnchorCandidateIndexForOffset]. *)
Definition candidateWidth (c : Node) : nat := Nat.max 1 (getChildTextLength c).

Definition widthsTotal (candidates : list Node) : nat :=
  sum_list (List.map candidateWidth candidates).

(** A function of an element that does not look at its child nodes. *)
Definition shallow {B} (f : Node -> B) : Prop :=
  forall ns pre loc attrs kids1 kids2,
    f (Element ns pre loc attrs kids1) = f (Element ns pre loc attrs kids2).

(** The number [N] of a relationship whose [Id] is [rIdN], as the loop
    of [ensureCommentsRelationship] reads it; [NaN] for an [Id] of
    another form. *)
Definition rIdNumber (r : Node) : JsNumber :=
  match matchRId (default [] (getAttribute "Id" r)) with
  | Some digits => parseInt10 digits
  | None => NaN
  end.

(** The relationship [ensureCommentsRelationship] creates. *)
Definition commentsRelationship (newId : jsstring) : Node :=
  Element REL_NS "" "Relationship"
    [mkAttr "" "" "Id" newId;
     mkAttr "" "" "Type" (js COMMENTS_REL_TYPE);
     mkAttr "" "" "Target" (js "comments.xml")] [].

(** No two adjacent code units of [s] are both whitespace. *)
Definition noSpaceRun (s : jsstring) : Prop :=
  forall i a b, s !! i = Some a -> s !! S i = Some b ->
    isSpace a = true -> isSpace b = false.

(** The first, and the last, code unit of [s] is not whitespace. *)
Definition headNotSpace (s : jsstring) : Prop :=
  forall a, s !! 0%nat = Some a -> isSpace a = false.

Definition lastNotSpace (s : jsstring) : Prop :=
  forall a, last s = Some a -> isSpace a = false.

(** What the development assumes of [toLowerCase]: the lower case of a
    code unit that is not whitespace is not empty and holds no
    whitespace. *)
Definition lowerCaseKeepsInk (toLowerCase : jsstring -> jsstring) : Prop :=
  forall c, isSpace c = false ->
    toLowerCase [c] <> [] /\ Forall (fun u => isSpace u = false) (toLowerCase [c]).

(** *** Sample environment for the worked examples

    [toLowerCaseSample] agrees with [String.prototype.toLowerCase] on
    Basic Latin, on U+0130 (whose lower case is the two code units
    U+0069 U+0307) and on every code unit that has no lower case. *)
Definition toLowerCaseUnit (c : N) : jsstring :=
  if ((65 <=? c) && (c <=? 90))%N then [(c + 32)%N]
  else if (c =? 0x130)%N then [0x69%N; 0x307%N]
  else [c].

Definition toLowerCaseSample (s : jsstring) : jsstring :=
  flat_map toLowerCaseUnit s.

(** [partialRatioSample] agrees with [fuzzball.partial_ratio] where the
    examples use it: 0 when a string is empty, 100 when the shorter
    string occurs verbatim in the longer one. Elsewhere it answers 0. *)
Definition partialRatioSample (a b : jsstring) : Z :=
  if negb (nonEmpty a) || negb (nonEmpty b) then 0
  else if (length a <=? length b)%nat
       then (if includes b a then 100 else 0)
       else (if includes a b then 100 else 0).

(** *** Sample data for the worked examples *)

(** [<w:p><w:r><w:t>Hello world</w:t></w:r></w:p>] *)
Definition sampleParagraph : Node :=
  Element W_NS "w" "p" []
    [Element W_NS "w" "r" []
       [Element W_NS "w" "t" [] [TextNode (js "Hello world")]]].

(** [<w:p><w:r><w:t>text</w:t></w:r></w:p>] *)
Definition sampleParagraphOf (text : jsstring) : Node :=
  Element W_NS "w" "p" []
    [Element W_NS "w" "r" []
       [Element W_NS "w" "t" [] [TextNode text]]].

(** A paragraph with its properties and four candidates: a run of six
    code units, a run with a tab, a bookmark without text, and a run of
    five code units. *)
Definition sampleRuns : Node :=
  Element W_NS "w" "p" []
    [Element W_NS "w" "pPr" [] [];
     Element W_NS "w" "r" [] [Element W_NS "w" "t" [] [TextNode (js "Hello ")]];
     Element W_NS "w" "r" [] [Element W_NS "w" "tab" [] []];
     Element W_NS "w" "bookmarkStart" [] [];
     Element W_NS "w" "r" [] [Element W_NS "w" "t" [] [TextNode (js "world")]]].

(** A comments part that holds one comment, of identifier 7. *)
Definition sampleComments : Node :=
  Element W_NS "w" "comments" []
    [Element W_NS "w" "comment" [mkAttr W_NS "w" "id" (js "7")] []].

(** Three records: two on the sample paragraph and a blank one between. *)
Definition sampleItems : list MergeCommentItem :=
  [mkItem (Some (js "world")) (Some (js "first")) (Some (js "Kate")) None;
   mkItem (Some (js "  ")) (Some (js "lost")) None None;
   mkItem (Some (js "Hello")) (Some (js "second")) None (Some (js "tone"))].

(** A relationships part with [rId1] and [rId3], none for comments. *)
Definition sampleRels : Node :=
  Element REL_NS "" "Relationships" []
    [Element REL_NS "" "Relationship"
       [mkAttr "" "" "Id" (js "rId1"); mkAttr "" "" "Type" (js "styles")] [];
     Element REL_NS "" "Relationship"
       [mkAttr "" "" "Id" (js "rId3"); mkAttr "" "" "Type" (js "settings")] []].

(** *** Vocabulary of the further properties *)

(** No [w:p] lies inside the paragraph [p]. When this holds of every
    paragraph of a document, the elements of the array [paragraphs] are
    disjoint subtrees of it, as the list of the model has them. *)
Definition noParagraphInside (p : Node) : Prop :=
  getElementsByTagNameNS W_NS "p" p = [].

(** The identifier the counter holds after [n] increments from
    [next0]. *)
Definition nthId (next0 : Z) (n : nat) : Z := Nat.iter n addOne next0.

(** The first [k] identifiers the counter gives out from [next0]. *)
Definition idsFrom (next0 : Z) (k : nat) : list Z := List.map (nthId next0) (seq 0 k).

(** What [sel] reads on the child nodes of the paragraphs, in document
    order. *)
Definition idsOfChildren (sel : Node -> list (option jsstring))
    (paragraphs : list Node) : list (option jsstring) :=
  flat_map (fun p => flat_map sel (children p)) paragraphs.

(** The [w:id] of a child that is a [w:commentRangeStart]; of one that
    is a [w:commentRangeEnd]; of the [w:commentReference] elements in a
    child. *)
Definition rangeStartId (c : Node) : list (option jsstring) :=
  if isElementNS W_NS "commentRangeStart" c then [getAttributeNS W_NS "id" c] else [].

Definition rangeEndId (c : Node) : list (option jsstring) :=
  if isElementNS W_NS "commentRangeEnd" c then [getAttributeNS W_NS "id" c] else [].

Definition referenceIds (c : Node) : list (option jsstring) :=
  List.map (getAttributeNS W_NS "id") (getElementsByTagNameNS W_NS "commentReference" c).

(** What a details entry holds, by the record and the paragraph it was
    matched to. *)
Definition detailEntryOf (toLowerCase : jsstring -> jsstring)
    (partial_ratio : jsstring -> jsstring -> Z) (paragraphs0 : list Node)
    (d : Detail) (item : MergeCommentItem) : Prop :=
  let paragraphTexts := List.map getParagraphText paragraphs0 in
  let anchor := default [] (anchor_text item) in
  let best := findBestParagraphMatch partial_ratio paragraphs0 paragraphTexts anchor in
  let paraText := default [] (at_index paragraphTexts (bestIndex best)) in
  0 <= bestIndex best /\
  score d = bestScore best /\
  method d = bestMethod best /\
  anchorPreview d = slice (cleanAnchorText anchor) 0 80 /\
  targetPreview d = slice (cleanAnchorText paraText) 0 80 /\
  (startMethod d, approxStart d) = locateStart toLowerCase partial_ratio paraText anchor.

(** What [normalizeForFuzzyIndexing] pushes for the code unit [raw]: a
    space for whitespace, else the lower case of the folded unit. *)
Definition normalizedUnit (toLowerCase : jsstring -> jsstring) (raw : N) : jsstring :=
  if isSpace raw then [32%N] else toLowerCase [foldQuotes raw].

(** The code unit [raw] gives one normalized code unit. Of the code
    units that are not whitespace, this fails where the lower case is
    longer than the letter, as for U+0130. *)
Definition unitKept (toLowerCase : jsstring -> jsstring) (raw : N) : Prop :=
  length (normalizedUnit toLowerCase raw) = 1%nat.

(** What a [w:comment] element says: its [w:id], [w:author] and
    [w:date], and its text. *)
Definition commentRecord (c : Node)
  : option jsstring * option jsstring * option jsstring * jsstring :=
  (getAttributeNS W_NS "id" c, getAttributeNS W_NS "author" c,
   getAttributeNS W_NS "date" c, textContent c).

(** The comments of a comments part, in document order. *)
Definition commentRecords (commentsDoc : Node)
  : list (option jsstring * option jsstring * option jsstring * jsstring) :=
  List.map commentRecord (docGetElementsByTagNameNS W_NS "comment" commentsDoc).

(** The comment the loop writes for the record [item] under the
    identifier [id]. *)
Definition writtenComment (nowIso : jsstring) (id : Z) (item : MergeCommentItem)
  : option jsstring * option jsstring * option jsstring * jsstring :=
  (Some (String_of id), Some (itemAuthor item), Some nowIso, fullCommentText item).

(** *** [serializeXmlWithOriginalHeader] *)

(** The whitespace [\s*] takes at the start of [s]; [trimStart s] is
    what follows it. *)
Fixpoint leadingSpace (s : jsstring) : jsstring :=
  match s with
  | c :: s' => if isSpace c then c :: leadingSpace s' else []
  | [] => []
  end.

(** [s] up to its first [>], and what follows that [>]. *)
Fixpoint splitAtGt (s : jsstring) : option (jsstring * jsstring) :=
  match s with
  | [] => None
  | c :: s' =>
      if (c =? 62)%N then Some ([], s')
      else match splitAtGt s' with
           | Some (a, b) => Some (c :: a, b)
           | None => None
           end
  end.

(** The match of [/^\s*<\?xml[^>]*\?>/i] on [s]: the whitespace, the
    declaration and the rest of [s]. [\s*] takes all the leading
    whitespace, since [<] is none; [[^>]*] stops before the first [>],
    which the [?] of [\?>] has to precede; with the flag [i] the letters
    of [xml] match in either case. *)
Definition matchXmlDeclaration (s : jsstring) : option (jsstring * jsstring * jsstring) :=
  match trimStart s with
  | lt :: qm :: x :: m :: l :: rest =>
      if (lt =? 60)%N && (qm =? 63)%N
         && ((x =? 120) || (x =? 88))%N && ((m =? 109) || (m =? 77))%N
         && ((l =? 108) || (l =? 76))%N
      then match splitAtGt rest with
           | Some (a, b) =>
               match last a with
               | Some q =>
                   if (q =? 63)%N
                   then Some (leadingSpace s, lt :: qm :: x :: m :: l :: a ++ [62%N], b)
                   else None
               | None => None
               end
           | None => None
           end
      else None
  | _ => None
  end.

(** The declaration used when the original text has none: version 1.0,
    encoding UTF-8, standalone yes. *)
Definition defaultXmlHeader : jsstring :=
  let quoted s := [34%N] ++ js s ++ [34%N] in
  js "<?xml version=" ++ quoted "1.0" ++ js " encoding=" ++ quoted "UTF-8" ++
  js " standalone=" ++ quoted "yes" ++ js "?>".

(** [serializeXmlWithOriginalHeader]; [serialized] is what
    [serializer.serializeToString(doc)] answers. *)
Definition serializeXmlWithOriginalHeader (serialized : jsstring)
    (originalText : option jsstring) : jsstring :=
  let body :=
    match matchXmlDeclaration serialized with
    | Some (_, _, rest) => trimStart rest
    | None => serialized
    end in
  let headerFromOriginal :=
    match originalText with
    | Some o =>
        match matchXmlDeclaration o with
        | Some (ws, decl, _) => Some (trim (ws ++ decl))
        | None => None
        end
    | None => None
    end in
  let header :=
    match headerFromOriginal with
    | Some h => if nonEmpty h then h else defaultXmlHeader
    | None => defaultXmlHeader
    end in
  header ++ [10%N] ++ body.

(** The markers of the comment [commentId] stand, among the child nodes
    [kids], around the anchor candidate number [k]: range start,
    candidate, range end and reference run, next to one another. *)
Definition wrappedAt (kids : list Node) (commentId : Z) (k : nat) : Prop :=
  exists before anchorNode after,
    kids = before ++ [commentRangeStart commentId; anchorNode;
                      commentRangeEnd commentId; createCommentReferenceRun commentId]
                  ++ after /\
    isAnchorCandidate anchorNode = true /\
    length (List.filter isAnchorCandidate before) = k.

(** The bookkeeping of the markers after part of the run: the
    paragraphs are elements, the next identifier is [next0] plus the
    number of entries, the used indices of a paragraph name candidates of
    it, and the comment of the entry number [n] has its markers around
    the candidate the entry names, in the paragraph matched to the
    record of the entry. *)
Definition markersTracked (partial_ratio : jsstring -> jsstring -> Z)
    (paragraphs0 : list Node) (all : list MergeCommentItem) (next0 : Z)
    (st : MergeState) : Prop :=
  let bestOf item :=
    bestIndex (findBestParagraphMatch partial_ratio paragraphs0
                 (List.map getParagraphText paragraphs0)
                 (default [] (anchor_text item))) in
  let usedAt (j : nat) :=
    default (∅ : gset nat) (usedAnchorIndicesByParagraph st !! Z.of_nat j) in
  Forall (fun p => isElement p = true) (paragraphs st) /\
  nextCommentId st = nthId next0 (length (detailsSoFar st)) /\
  (forall j p k, paragraphs st !! j = Some p -> k ∈ usedAt j ->
     (k < length (getDirectChildAnchorCandidates p))%nat) /\
  (forall n d, detailsSoFar st !! n = Some d ->
     exists item j p,
       all !! index d = Some item /\ bestOf item = Z.of_nat j /\
       paragraphs st !! j = Some p /\
       anchorNodeIndex d ∈ usedAt j /\
       wrappedAt (children p) (nthId next0 n) (anchorNodeIndex d)).

(* ================================================================== *)
(** ** Properties *)
(* ================================================================== *)

(** *** Strings *)

Lemma trimStart_all_space (s : jsstring) :
  Forall (fun c => isSpace c = true) s -> trimStart s = [].
Proof.
  induction 1 as [|c s Hc _ IH]; simpl; [reflexivity|].
  now rewrite Hc.
Qed.

Lemma trim_all_space (s : jsstring) :
  Forall (fun c => isSpace c = true) s -> trim s = [].
Proof.
  intros H. unfold trim, trimEnd. now rewrite (trimStart_all_space s H).
Qed.

Lemma replaceSpaceRuns_all_space (s : jsstring) (b : bool) :
  Forall (fun c => isSpace c = true) s ->
  Forall (fun c => isSpace c = true) (replaceSpaceRuns s b).
Proof.
  intros H. revert b. induction H as [|c s Hc _ IH]; intros b; simpl.
  - constructor.
  - rewrite Hc. destruct b; [apply IH|]. constructor; [reflexivity | apply IH].
Qed.

Lemma cleanAnchorText_blank (text : jsstring) :
  Forall (fun c => isSpace c = true) text -> cleanAnchorText text = [].
Proof.
  intros H. unfold cleanAnchorText.
  apply trim_all_space, replaceSpaceRuns_all_space, H.
Qed.

(** *** Decimal numerals *)

Lemma uint_units_digits (u : Decimal.uint) :
  forallb isDigit (uint_units u) = true.
Proof. induction u; simpl; auto. Qed.

Lemma parseDigits_acc (u : Decimal.uint) (acc : positive) :
  parseDigits (uint_units u) (Z.pos acc) = Z.pos (Pos.of_uint_acc u acc).
Proof.
  revert acc. induction u; intros acc; simpl; try reflexivity;
    rewrite <- IHu; f_equal; lia.
Qed.

Lemma parseDigits_of_uint (u : Decimal.uint) :
  parseDigits (uint_units u) 0 = Z.of_N (Pos.of_uint u).
Proof.
  induction u; simpl; try reflexivity; try exact IHu;
    apply parseDigits_acc.
Qed.

Lemma parseDigits_to_uint (p : positive) :
  parseDigits (uint_units (Pos.to_uint p)) 0 = Z.pos p.
Proof.
  rewrite parseDigits_of_uint, DecimalPos.Unsigned.of_to. reflexivity.
Qed.

Lemma uint_units_head (u : Decimal.uint) :
  u <> Nil -> exists c rest, uint_units u = c :: rest /\ isDigit c = true.
Proof.
  destruct u; intros H; try congruence; simpl; eauto.
Qed.

Lemma to_uint_not_nil (p : positive) : Pos.to_uint p <> Nil.
Proof.
  intros H. pose proof (DecimalPos.Unsigned.of_to p) as E.
  rewrite H in E. discriminate.
Qed.

Lemma two_53_lt_two_1024 : 2 ^ 53 < 2 ^ 1024.
Proof. reflexivity. Qed.

Lemma two_53_lt_ten_21 : 2 ^ 53 < 10 ^ 21.
Proof. reflexivity. Qed.

(** An integer of at most 53 bits is a double. *)
Lemma roundToDouble_exact (z : Z) : Z.abs z <= 2 ^ 53 -> roundToDouble z = z.
Proof.
  intros H. unfold roundToDouble.
  destruct (Z.ltb_spec (Z.abs z) (2 ^ 53)) as [_|Hge]; [reflexivity|].
  assert (Hz : z = 2 ^ 53 \/ z = - 2 ^ 53) by lia.
  destruct Hz as [-> | ->]; reflexivity.
Qed.

Lemma toNumber_exact (z : Z) : Z.abs z <= 2 ^ 53 -> toNumber z = Finite z.
Proof.
  intros H. unfold toNumber. rewrite (roundToDouble_exact z H).
  pose proof two_53_lt_two_1024.
  destruct (Z.leb_spec (2 ^ 1024) z) as [?|_]; [lia|].
  destruct (Z.leb_spec z (- 2 ^ 1024)) as [?|_]; [lia|reflexivity].
Qed.

Lemma addOne_exact (n : Z) : 0 <= n < 2 ^ 53 -> addOne n = n + 1.
Proof. intros H. unfold addOne. apply roundToDouble_exact. lia. Qed.

Lemma String_of_decimal (z : Z) : Z.abs z < 10 ^ 21 -> String_of z = decimalOf z.
Proof.
  intros H. unfold String_of.
  destruct (Z.ltb_spec (Z.abs z) (10 ^ 21)) as [_|?]; [reflexivity|lia].
Qed.

Lemma parseInt10_digits (s : jsstring) (c : N) (rest : jsstring) :
  s = c :: rest -> isDigit c = true ->
  parseInt10 s = toNumber (parseDigits s 0).
Proof.
  intros -> Hc. unfold parseInt10.
  assert (Hs : isSpace c = false).
  { unfold isDigit in Hc. unfold isSpace.
    apply andb_prop in Hc as [H1 H2].
    apply N.leb_le in H1. apply N.leb_le in H2.
    repeat match goal with
    | |- context [(?a <=? ?b)%N] => destruct (N.leb_spec a b); try lia
    | |- context [(?a =? ?b)%N] => destruct (N.eqb_spec a b); try lia
    end; reflexivity. }
  simpl trimStart. rewrite Hs.
  assert (H45 : c <> 45%N /\ c <> 43%N).
  { unfold isDigit in Hc. apply andb_prop in Hc as [H1 H2].
    apply N.leb_le in H1. apply N.leb_le in H2. lia. }
  destruct H45 as [H45 H43].
  assert (E : (match c :: rest with
               | 45%N :: r => (-1, r)
               | 43%N :: r => (1, r)
               | _ => (1, c :: rest)
               end) = (1, c :: rest)).
  { destruct c as [|p]; [reflexivity|].
    do 6 (destruct p as [p|p|]; try reflexivity); congruence. }
  rewrite E. rewrite Hc. f_equal. lia.
Qed.

(** [parseInt] reads back the decimal numeral of an integer. *)
Lemma parseInt10_decimalOf (z : Z) : parseInt10 (decimalOf z) = toNumber z.
Proof.
  unfold decimalOf. destruct z as [|p|p]; simpl Z.to_int.
  - reflexivity.
  - destruct (uint_units_head (Pos.to_uint p) (to_uint_not_nil p)) as (c & rest & E & Hc).
    rewrite (parseInt10_digits _ c rest E Hc). now rewrite parseDigits_to_uint.
  - destruct (uint_units_head (Pos.to_uint p) (to_uint_not_nil p)) as (c & rest & E & Hc).
    unfold parseInt10. simpl trimStart.
    change (isSpace 45) with false. cbv iota.
    rewrite E, Hc, <- E, parseDigits_to_uint. f_equal.
Qed.

(** [parseInt] reads back the numeral [String] writes for an integer of
    at most 53 bits. *)
Lemma parseInt10_String_of (z : Z) :
  Z.abs z <= 2 ^ 53 -> parseInt10 (String_of z) = Finite z.
Proof.
  intros H. pose proof two_53_lt_ten_21.
  rewrite String_of_decimal by lia.
  rewrite parseInt10_decimalOf. now apply toNumber_exact.
Qed.

Lemma String_of_nonneg_digits (z : Z) :
  0 <= z < 10 ^ 21 -> nonEmpty (String_of z) && forallb isDigit (String_of z) = true.
Proof.
  intros Hz. rewrite String_of_decimal by lia.
  unfold decimalOf. destruct z as [|p|p]; simpl Z.to_int; [reflexivity| |lia].
  destruct (uint_units_head (Pos.to_uint p) (to_uint_not_nil p)) as (c & rest & E & Hc).
  rewrite uint_units_digits, E. reflexivity.
Qed.

(** The counter after [n] increments, while it stays within 53 bits. *)
Lemma nthId_exact (next0 : Z) (n : nat) :
  0 <= next0 -> next0 + Z.of_nat n <= 2 ^ 53 -> nthId next0 n = next0 + Z.of_nat n.
Proof.
  intros H0. unfold nthId. induction n as [|n IH]; intros H; [simpl; lia|].
  rewrite Nat.iter_succ, IH by lia. rewrite addOne_exact by lia. lia.
Qed.

Lemma nthId_succ (next0 : Z) (n : nat) : nthId (addOne next0) n = nthId next0 (S n).
Proof. unfold nthId. now rewrite Nat.iter_succ_r. Qed.

Lemma idsFrom_cons (next0 : Z) (k : nat) :
  idsFrom next0 (S k) = next0 :: idsFrom (addOne next0) k.
Proof.
  unfold idsFrom. cbn [seq List.map]. f_equal.
  rewrite <- seq_shift, List.map_map. apply List.map_ext. intros n.
  symmetry. apply nthId_succ.
Qed.

Lemma idsFrom_exact (next0 : Z) (k : nat) :
  0 <= next0 -> next0 + Z.of_nat k <= 2 ^ 53 ->
  idsFrom next0 k = seqZ next0 (Z.of_nat k).
Proof.
  revert next0. induction k as [|k IH]; intros next0 H0 H; [reflexivity|].
  rewrite idsFrom_cons, (seqZ_cons next0) by lia.
  rewrite addOne_exact by lia. rewrite IH by lia.
  f_equal. f_equal; lia.
Qed.

(** *** Trees *)

Lemma Node_tree_ind (P : Node -> Prop) :
  (forall ns pre loc attrs kids, Forall P kids -> P (Element ns pre loc attrs kids)) ->
  (forall d, P (TextNode d)) ->
  (forall d, P (OtherNode d)) ->
  forall n, P n.
Proof.
  intros HE HT HO. fix IH 1. intros [ns pre loc attrs kids|d|d].
  - apply HE. induction kids as [|k kids IHkids]; constructor.
    + apply IH.
    + exact IHkids.
  - apply HT.
  - apply HO.
Qed.

Lemma updateFirst_Some {A} (f : A -> option A) (l l' : list A) :
  updateFirst f l = Some l' ->
  exists l1 x x' l2, l = l1 ++ x :: l2 /\ l' = l1 ++ x' :: l2 /\ f x = Some x'.
Proof.
  revert l'. induction l as [|x l IH]; intros l' H; simpl in H; [discriminate|].
  destruct (f x) as [x'|] eqn:E.
  - injection H as <-. now exists [], x, x', l.
  - destruct (updateFirst f l) as [l''|] eqn:E'; [|discriminate].
    injection H as <-.
    destruct (IH l'' eq_refl) as (l1 & y & y' & l2 & -> & -> & Hy).
    now exists (x :: l1), y, y', l2.
Qed.

Lemma appendToFirst_elements {B} (q p : Node -> bool) (f : Node -> B)
    (c doc doc' : Node) :
  shallow p -> shallow f ->
  appendToFirst q c doc = Some doc' ->
  List.map f (List.filter p (subtreeElements doc')) ≡ₚ
  List.map f (List.filter p (subtreeElements doc)) ++
  List.map f (List.filter p (subtreeElements c)).
Proof.
  intros Hp Hf. revert doc'.
  induction doc as [ns pre loc attrs kids IH|d|d] using Node_tree_ind;
    intros doc' H; simpl in H; try discriminate.
  destruct (q (Element ns pre loc attrs kids)).
  - injection H as <-. simpl.
    rewrite (Hp ns pre loc attrs (kids ++ [c]) kids).
    rewrite flat_map_app. simpl. rewrite app_nil_r.
    destruct (p (Element ns pre loc attrs kids)); simpl;
      rewrite ?List.filter_app, ?List.map_app;
      rewrite ?(Hf ns pre loc attrs (kids ++ [c]) kids); reflexivity.
  - destruct (updateFirst (appendToFirst q c) kids) as [kids'|] eqn:E; [|discriminate].
    injection H as <-.
    destruct (updateFirst_Some _ _ _ E) as (l1 & x & x' & l2 & -> & -> & Hx).
    apply Forall_app in IH as [_ IH]. apply Forall_cons in IH as [IHx _].
    specialize (IHx x' Hx).
    simpl.
    rewrite (Hp ns pre loc attrs (l1 ++ x' :: l2) (l1 ++ x :: l2)).
    rewrite !flat_map_app. simpl.
    assert (Htail :
      List.map f (List.filter p (flat_map subtreeElements l1 ++ subtreeElements x' ++ flat_map subtreeElements l2)) ≡ₚ
      List.map f (List.filter p (flat_map subtreeElements l1 ++ subtreeElements x ++ flat_map subtreeElements l2)) ++
      List.map f (List.filter p (subtreeElements c))).
    { rewrite !List.filter_app, !List.map_app, IHx.
      rewrite <- !app_assoc. apply Permutation_app_head.
      apply Permutation_app_head. apply Permutation_app_comm. }
    destruct (p (Element ns pre loc attrs (l1 ++ x :: l2))); simpl.
    + rewrite (Hf ns pre loc attrs (l1 ++ x' :: l2) (l1 ++ x :: l2)).
      now apply Permutation_skip.
    + exact Htail.
Qed.

(** *** The paragraph match *)

Lemma findBestParagraphMatch_blank partial_ratio paragraphs texts (anchor : jsstring) :
  Forall (fun c => isSpace c = true) anchor ->
  findBestParagraphMatch partial_ratio paragraphs texts anchor
  = {| bestIndex := -1; bestScore := 0; bestMethod := "partial_ratio" |}.
Proof.
  intros H. unfold findBestParagraphMatch.
  now rewrite (cleanAnchorText_blank anchor H).
Qed.

Lemma findBestParagraphMatch_length partial_ratio (ps1 ps2 : list Node) texts anchor :
  length ps1 = length ps2 ->
  findBestParagraphMatch partial_ratio ps1 texts anchor
  = findBestParagraphMatch partial_ratio ps2 texts anchor.
Proof. intros H. unfold findBestParagraphMatch. now rewrite H. Qed.

Lemma bestMatchStep_index partial_ratio texts clean best (i : nat) :
  bestIndex (bestMatchStep partial_ratio texts clean best i) = bestIndex best
  \/ bestIndex (bestMatchStep partial_ratio texts clean best i) = Z.of_nat i.
Proof.
  unfold bestMatchStep, scoreMatch.
  destruct (negb _); [now left|].
  destruct (_ <? _); [now right | now left].
Qed.

Lemma bestMatch_fold_index partial_ratio texts clean (idxs : list nat) best (n : nat) :
  Forall (fun i => (i < n)%nat) idxs ->
  -1 <= bestIndex best < Z.of_nat n \/ bestIndex best = -1 ->
  let r := fold_left (bestMatchStep partial_ratio texts clean) idxs best in
  -1 <= bestIndex r < Z.of_nat n \/ bestIndex r = -1.
Proof.
  intros Hall. revert best.
  induction Hall as [|i idxs Hi _ IH]; intros best Hb; simpl; [exact Hb|].
  apply IH.
  destruct (bestMatchStep_index partial_ratio texts clean best i) as [-> | ->];
    [exact Hb | left; lia].
Qed.

Lemma findBestParagraphMatch_range partial_ratio (ps : list Node) texts anchor :
  -1 <= bestIndex (findBestParagraphMatch partial_ratio ps texts anchor)
     < Z.of_nat (length ps)
  \/ bestIndex (findBestParagraphMatch partial_ratio ps texts anchor) = -1.
Proof.
  unfold findBestParagraphMatch.
  destruct (negb _); [now right|].
  apply bestMatch_fold_index; [|now right].
  apply Forall_forall. intros i Hi. apply elem_of_seq in Hi. lia.
Qed.

Lemma at_index_in_range {A} (l : list A) (i : Z) :
  0 <= i < Z.of_nat (length l) -> exists x, at_index l i = Some x.
Proof.
  intros [H0 H1]. unfold at_index.
  destruct (i <? 0) eqn:E; [apply Z.ltb_lt in E; lia|].
  destruct (lookup_lt_is_Some_2 l (Z.to_nat i)) as [x Hx]; [lia|].
  now exists x.
Qed.


(** *** The linear probe *)

Lemma probeFrom_spec (fuel : nat) (used : gset nat) (idx : nat) :
  let r := probeFrom fuel used idx in
  (idx <= r <= idx + fuel)%nat /\
  (forall j, (idx <= j < r)%nat -> j ∈ used) /\
  ((r < idx + fuel)%nat -> r ∉ used).
Proof.
  revert idx. induction fuel as [|fuel IH]; intros idx; simpl.
  - repeat split; intros; lia.
  - destruct (decide (idx ∈ used)) as [Hin|Hout].
    + destruct (IH (S idx)) as (Hr & Hbelow & Hfree).
      repeat split; try lia.
      * intros j Hj. destruct (decide (j = idx)) as [->|Hne]; [exact Hin|].
        apply Hbelow. lia.
      * intros Hlt. apply Hfree. lia.
    + repeat split; intros; try lia. assumption.
Qed.

Lemma probeUnused_spec (used : gset nat) (idx : nat) :
  let r := probeUnused used idx in
  (r ∉ used) /\ (idx <= r)%nat /\ (forall j, (idx <= j < r)%nat -> j ∈ used).
Proof.
  unfold probeUnused.
  destruct (probeFrom_spec (size used) used idx) as (Hr & Hbelow & Hfree).
  repeat split; [|lia|exact Hbelow].
  intros Hin.
  destruct (decide (probeFrom (size used) used idx < idx + size used)%nat) as [Hlt|Hge];
    [now apply Hfree|].
  assert (Hsub : (set_seq idx (size used) : gset nat) ∪ {[probeFrom (size used) used idx]} ⊆ used).
  { intros j Hj. apply elem_of_union in Hj as [Hj|Hj].
    - apply elem_of_set_seq in Hj. apply Hbelow. lia.
    - apply elem_of_singleton in Hj. now subst j. }
  apply subseteq_size in Hsub.
  rewrite size_union, size_set_seq, size_singleton in Hsub; [lia|].
  intros j Hj1 Hj2. apply elem_of_set_seq in Hj1. apply elem_of_singleton in Hj2. lia.
Qed.


(** *** The comments part *)

Lemma commentIdOf_shallow : shallow commentIdOf.
Proof. intros ns pre loc attrs k1 k2. reflexivity. Qed.

Lemma isElementNS_shallow (ns loc : string) : shallow (isElementNS ns loc).
Proof. intros ens pre eloc attrs k1 k2. reflexivity. Qed.

Lemma commentIdOf_nativeComment (id : Z) (author isoDate text : jsstring) :
  commentIdOf (nativeComment id author isoDate text) = parseInt10 (String_of id).
Proof. reflexivity. Qed.

Lemma comments_in_nativeComment (id : Z) (author isoDate text : jsstring) :
  List.filter (isElementNS W_NS "comment")
    (subtreeElements (nativeComment id author isoDate text))
  = [nativeComment id author isoDate text].
Proof. destruct text; reflexivity. Qed.

Lemma appendToFirst_isElement (q : Node -> bool) (c doc doc' : Node) :
  appendToFirst q c doc = Some doc' -> isElement doc = true /\ isElement doc' = true.
Proof.
  destruct doc as [ns pre loc attrs kids|d|d]; simpl; try discriminate.
  destruct (q _).
  - intros [= <-]. now split.
  - destruct (updateFirst _ _); simpl; [|discriminate]. intros [= <-]. now split.
Qed.

Lemma addNativeComment_isElement doc id author isoDate text :
  isElement doc = true ->
  isElement (addNativeComment doc id author isoDate text) = true.
Proof.
  intros H. unfold addNativeComment.
  destruct (appendToFirst _ _ doc) as [doc'|] eqn:E.
  - now apply appendToFirst_isElement in E.
  - destruct doc; [reflexivity|discriminate..].
Qed.

(** [addNativeComment] adds one [w:comment] element, which carries the
    identifier it was given, and leaves the identifiers of the others. *)
Lemma commentIds_addNativeComment doc id author isoDate text :
  isElement doc = true ->
  commentIds (addNativeComment doc id author isoDate text) ≡ₚ
  commentIds doc ++ [parseInt10 (String_of id)].
Proof.
  intros H. unfold commentIds, docGetElementsByTagNameNS, addNativeComment.
  destruct (appendToFirst _ _ doc) as [doc'|] eqn:E.
  - rewrite (appendToFirst_elements _ _ _ _ _ _
               (isElementNS_shallow W_NS "comment") commentIdOf_shallow E).
    rewrite comments_in_nativeComment.
    change (List.map commentIdOf [nativeComment id author isoDate text])
      with [commentIdOf (nativeComment id author isoDate text)].
    now rewrite commentIdOf_nativeComment.
  - destruct doc as [ns pre loc attrs kids|d|d]; try discriminate.
    unfold appendChild. simpl children. simpl setChildren. simpl subtreeElements.
    rewrite flat_map_app.
    assert (Hnew : List.map commentIdOf
              (List.filter (isElementNS W_NS "comment")
                 (flat_map subtreeElements [nativeComment id author isoDate text]))
            = [parseInt10 (String_of id)]).
    { change (flat_map subtreeElements [nativeComment id author isoDate text])
        with (subtreeElements (nativeComment id author isoDate text) ++ []).
      rewrite app_nil_r, comments_in_nativeComment.
      change (List.map commentIdOf [nativeComment id author isoDate text])
        with [commentIdOf (nativeComment id author isoDate text)].
      now rewrite commentIdOf_nativeComment. }
    cbn [List.filter].
    change (isElementNS W_NS "comment" (Element ns pre loc attrs (kids ++ [nativeComment id author isoDate text])))
      with (isElementNS W_NS "comment" (Element ns pre loc attrs kids)).
    destruct (isElementNS W_NS "comment" (Element ns pre loc attrs kids));
      cbn [List.map]; rewrite List.filter_app, List.map_app, Hnew; reflexivity.
Qed.

(** *** The record loop *)

Section LoopFacts.

Variable toLowerCase : jsstring -> jsstring.
Variable partial_ratio : jsstring -> jsstring -> Z.
Variable paragraphs0 : list Node.
Variable nowIso : jsstring.

Local Abbreviation paragraphTexts := (List.map getParagraphText paragraphs0).
Local Abbreviation step := (mergeStep toLowerCase partial_ratio paragraphTexts nowIso).
Local Abbreviation loop := (mergeLoop toLowerCase partial_ratio paragraphTexts nowIso).
Local Abbreviation bestOf item :=
  (findBestParagraphMatch partial_ratio paragraphs0 paragraphTexts
     (default [] (anchor_text item))).
Local Abbreviation matched := (recordMatches partial_ratio paragraphs0).
Local Abbreviation usedAt st b :=
  (default (∅ : gset nat) (usedAnchorIndicesByParagraph st !! b)).

(** A record without a matching paragraph leaves the state as it is; a
    record with one adds a comment, a detail entry and a used index. *)
Lemma mergeStep_cases st i item :
  length (paragraphs st) = length paragraphs0 ->
  (matched item = false /\ step st i item = st) \/
  (matched item = true /\
   exists d paragraph',
     index d = i /\
     detailsSoFar (step st i item) = detailsSoFar st ++ [d] /\
     mergedSoFar (step st i item) = S (mergedSoFar st) /\
     nextCommentId (step st i item) = addOne (nextCommentId st) /\
     paragraphs (step st i item)
       = <[Z.to_nat (bestIndex (bestOf item)) := paragraph']> (paragraphs st) /\
     commentsDoc (step st i item)
       = addNativeComment (commentsDoc st) (nextCommentId st)
           (itemAuthor item) nowIso (fullCommentText item) /\
     (anchorNodeIndex d ∉ usedAt st (bestIndex (bestOf item))) /\
     usedAnchorIndicesByParagraph (step st i item)
       = <[bestIndex (bestOf item) :=
             {[anchorNodeIndex d]} ∪ usedAt st (bestIndex (bestOf item))]>
           (usedAnchorIndicesByParagraph st)).
Proof.
  intros Hlen. unfold recordMatches, mergeStep.
  rewrite (findBestParagraphMatch_length partial_ratio (paragraphs st) paragraphs0 _ _ Hlen).
  destruct (bestIndex (bestOf item) <? 0) eqn:E.
  - left. split; [|reflexivity]. apply Z.ltb_lt in E. apply Z.leb_gt. exact E.
  - right. apply Z.ltb_ge in E. split; [now apply Z.leb_le|].
    destruct (findBestParagraphMatch_range partial_ratio paragraphs0 paragraphTexts
                (default [] (anchor_text item))) as [Hr|Hr]; [|lia].
    destruct (at_index_in_range (paragraphs st) (bestIndex (bestOf item))) as [p Hp]; [lia|].
    rewrite Hp.
    destruct (locateStart _ _ _ _) as [sm ap].
    eexists. eexists. cbn.
    repeat split; try reflexivity.
    apply probeUnused_spec.
Qed.

Lemma mergeStep_length st i item :
  length (paragraphs st) = length paragraphs0 ->
  length (paragraphs (step st i item)) = length paragraphs0.
Proof.
  intros Hlen.
  destruct (mergeStep_cases st i item Hlen) as [[_ ->]|[_ (d & p' & _ & _ & _ & _ & -> & _)]];
    [exact Hlen|].
  now rewrite length_insert.
Qed.

(** The report after the loop from index [i] on. *)
Lemma mergeLoop_report items i st :
  length (paragraphs st) = length paragraphs0 ->
  let st' := loop items i st in
  let merged := mergedFrom partial_ratio paragraphs0 i items in
  List.map index (detailsSoFar st')
    = List.map index (detailsSoFar st) ++ List.map fst merged /\
  mergedSoFar st' = (mergedSoFar st + length merged)%nat /\
  nextCommentId st' = nthId (nextCommentId st) (length merged) /\
  length (paragraphs st') = length paragraphs0.
Proof.
  revert i st. induction items as [|item items IH]; intros i st Hlen; simpl.
  - unfold mergedFrom. simpl. rewrite app_nil_r. repeat split; try reflexivity; lia.
  - specialize (IH (S i) (step st i item) (mergeStep_length st i item Hlen)).
    simpl in IH. destruct IH as (IHd & IHm & IHn & IHl).
    unfold mergedFrom in *. simpl.
    destruct (mergeStep_cases st i item Hlen)
      as [[Hm Hst]|[Hm (d & p' & Hi & Hd & Hc & Hn & _)]]; rewrite Hm.
    + rewrite Hst in *. repeat split; assumption.
    + rewrite IHd, IHm, IHn, Hd, Hc, Hn. simpl.
      rewrite List.map_app, <- app_assoc. simpl. rewrite Hi.
      repeat split; [lia|apply nthId_succ|exact IHl].
Qed.

(** The identifiers of the comments part after the loop from index [i]
    on: the ones it had, and one per merged record, read back from the
    numeral of the identifier the counter gave. *)
Lemma mergeLoop_commentIds items i st :
  length (paragraphs st) = length paragraphs0 ->
  isElement (commentsDoc st) = true ->
  let st' := loop items i st in
  let merged := mergedFrom partial_ratio paragraphs0 i items in
  commentIds (commentsDoc st') ≡ₚ
    commentIds (commentsDoc st) ++
    List.map (fun id => parseInt10 (String_of id))
      (idsFrom (nextCommentId st) (length merged)) /\
  isElement (commentsDoc st') = true.
Proof.
  revert i st. induction items as [|item items IH]; intros i st Hlen Hel; simpl.
  - unfold mergedFrom. simpl. rewrite app_nil_r. now split.
  - destruct (mergeStep_cases st i item Hlen)
      as [[Hm Hst]|[Hm (d & p' & _ & _ & _ & Hn & _ & Hc & _)]].
    + specialize (IH (S i) (step st i item) (mergeStep_length st i item Hlen)).
      rewrite Hst in *. unfold mergedFrom in *. simpl. rewrite Hm. now apply IH.
    + specialize (IH (S i) (step st i item) (mergeStep_length st i item Hlen)).
      rewrite Hc, Hn in IH.
      destruct (IH (addNativeComment_isElement _ _ _ _ _ Hel)) as [IHp IHe].
      split; [|exact IHe].
      unfold mergedFrom in *. simpl. rewrite Hm.
      cbn [length]. rewrite IHp, commentIds_addNativeComment by exact Hel.
      rewrite <- app_assoc. apply Permutation_app_head.
      rewrite idsFrom_cons. reflexivity.
Qed.

(** The used indices cover the recorded ones, and two records on one
    paragraph never share an index. *)
Lemma mergeStep_tracked (all : list MergeCommentItem) st i item :
  length (paragraphs st) = length paragraphs0 ->
  all !! i = Some item ->
  anchorIndicesTracked partial_ratio paragraphs0 all i st ->
  anchorIndicesTracked partial_ratio paragraphs0 all (S i) (step st i item).
Proof.
  intros Hlen Hitem [Hcov Hdiff].
  destruct (mergeStep_cases st i item Hlen)
    as [[_ ->]|[_ (d & p' & Hi & Hd & _ & _ & _ & _ & Hfree & Hused)]].
  - split; [|exact Hdiff].
    intros d Hd. destruct (Hcov d Hd) as [Hlt Hex]. split; [lia|exact Hex].
  - assert (Hcov' : forall d' item', d' ∈ detailsSoFar st -> all !! index d' = Some item' ->
              anchorNodeIndex d' ∈ usedAt st (bestIndex (bestOf item'))).
    { intros d' item' Hd' Hit'. destruct (Hcov d' Hd') as [_ (it & Hit & Hin)].
      rewrite Hit in Hit'. injection Hit' as <-. exact Hin. }
    split.
    + intros d' Hd'. rewrite Hd in Hd'. apply elem_of_app in Hd' as [Hd'|Hd'].
      * destruct (Hcov d' Hd') as [Hlt (it & Hit & Hin)]. split; [lia|].
        exists it. split; [exact Hit|]. rewrite Hused.
        destruct (decide (bestIndex (bestOf item) = bestIndex (bestOf it))) as [E|E].
        -- rewrite E, lookup_insert_eq. simpl.
           apply elem_of_union. now right.
        -- rewrite lookup_insert_ne by exact E. exact Hin.
      * apply list_elem_of_singleton in Hd'. subst d'. rewrite Hi. split; [lia|].
        exists item. split; [exact Hitem|]. rewrite Hused, lookup_insert_eq. simpl.
        apply elem_of_union. left. now apply elem_of_singleton.
    + intros d1 d2 item1 item2 H1 H2 Hne Hit1 Hit2 Hsame.
      rewrite Hd in H1, H2.
      apply elem_of_app in H1 as [H1|H1]; apply elem_of_app in H2 as [H2|H2].
      * now apply (Hdiff d1 d2 item1 item2).
      * apply list_elem_of_singleton in H2. subst d2.
        rewrite Hi, Hitem in Hit2. injection Hit2 as <-.
        pose proof (Hcov' d1 item1 H1 Hit1) as Hin. rewrite Hsame in Hin.
        intros Heq. rewrite Heq in Hin. contradiction.
      * apply list_elem_of_singleton in H1. subst d1.
        rewrite Hi, Hitem in Hit1. injection Hit1 as <-.
        pose proof (Hcov' d2 item2 H2 Hit2) as Hin. rewrite <- Hsame in Hin.
        intros Heq. rewrite <- Heq in Hin. contradiction.
      * apply list_elem_of_singleton in H1. apply list_elem_of_singleton in H2.
        subst. contradiction.
Qed.

Lemma mergeLoop_tracked (all : list MergeCommentItem) items i st :
  length (paragraphs st) = length paragraphs0 ->
  (forall k item, items !! k = Some item -> all !! (i + k)%nat = Some item) ->
  anchorIndicesTracked partial_ratio paragraphs0 all i st ->
  anchorIndicesTracked partial_ratio paragraphs0 all (i + length items) (loop items i st).
Proof.
  revert i st. induction items as [|item items IH]; intros i st Hlen Hall Hinv; simpl.
  - now rewrite Nat.add_0_r.
  - replace (i + S (length items))%nat with (S i + length items)%nat by lia.
    apply IH.
    + now apply mergeStep_length.
    + intros k it Hk. replace (S i + k)%nat with (i + S k)%nat by lia.
      apply Hall. exact Hk.
    + apply mergeStep_tracked; [exact Hlen| |exact Hinv].
      rewrite <- (Nat.add_0_r i). apply Hall. reflexivity.
Qed.

End LoopFacts.

(** *** Claims on the record loop *)

(** C6. A record whose anchor text is empty or consists of whitespace
    finds no paragraph: [findBestParagraphMatch] answers index -1 with
    score 0. The loop skips the record: the state after the iteration is
    the state before it, so neither tree gains a comment and the merged
    count stays. The iteration is a total function: nothing is raised. *)
Theorem blank_anchor_record_is_skipped
    (toLowerCase : jsstring -> jsstring) (partial_ratio : jsstring -> jsstring -> Z)
    (paragraphTexts : list jsstring) (nowIso : jsstring)
    (st : MergeState) (i : nat) (item : MergeCommentItem) :
  Forall (fun c => isSpace c = true) (default [] (anchor_text item)) ->
  let best := findBestParagraphMatch partial_ratio (paragraphs st) paragraphTexts
                (default [] (anchor_text item)) in
  let st' := mergeStep toLowerCase partial_ratio paragraphTexts nowIso st i item in
  bestIndex best = -1 /\ bestScore best = 0 /\
  st' = st /\
  paragraphs st' = paragraphs st /\ commentsDoc st' = commentsDoc st /\
  mergedSoFar st' = mergedSoFar st /\ detailsSoFar st' = detailsSoFar st.
Proof.
  intros Hblank best st'.
  assert (Hbest : best = {| bestIndex := -1; bestScore := 0; bestMethod := "partial_ratio" |})
    by (apply findBestParagraphMatch_blank, Hblank).
  assert (Hst : st' = st).
  { unfold st', mergeStep. fold best. now rewrite Hbest. }
  rewrite Hst, Hbest. repeat split.
Qed.

Lemma blank_anchor_record_is_skipped_witness :
  let item := mkItem (Some (js "  ")) (Some (js "lost")) None None in
  let st := initialState [sampleParagraph] sampleComments in
  let texts := [getParagraphText sampleParagraph] in
  bestIndex (findBestParagraphMatch partialRatioSample (paragraphs st) texts (js "  ")) = -1 /\
  bestScore (findBestParagraphMatch partialRatioSample (paragraphs st) texts (js "  ")) = 0 /\
  mergeStep toLowerCaseSample partialRatioSample texts (js "now") st 1 item = st.
Proof.
  intros item st texts.
  destruct (blank_anchor_record_is_skipped toLowerCaseSample partialRatioSample
              texts (js "now") st 1 item) as (H1 & H2 & H3 & _).
  - repeat constructor.
  - repeat split; assumption.
Defined.

Lemma combine_seq_lookup {A} (l : list A) (i k : nat) (x : A) :
  (k, x) ∈ combine (seq i (length l)) l <-> (i <= k)%nat /\ l !! (k - i)%nat = Some x.
Proof.
  revert i. induction l as [|y l IH]; intros i; simpl.
  - split; [intros H; inversion H|intros [_ H]; discriminate].
  - rewrite elem_of_cons, IH. split.
    + intros [[= -> ->]|[Hle Hl]].
      * split; [lia|]. now rewrite Nat.sub_diag.
      * split; [lia|]. replace (k - i)%nat with (S (k - S i)) by lia. exact Hl.
    + intros [Hle Hl]. destruct (decide (k = i)) as [->|Hne].
      * left. rewrite Nat.sub_diag in Hl. simpl in Hl. now injection Hl as ->.
      * right. split; [lia|]. replace (k - i)%nat with (S (k - S i)) in Hl by lia.
        exact Hl.
Qed.

(** C9, as the code has it. The report lists the merged records and only
    them: record [i] has a details entry exactly when a paragraph
    matched its anchor text; the entries come in input order, their
    number is [mergedCount], and [totalCount] is the number of input
    records. A skipped record has no entry. *)
Theorem details_list_the_merged_records
    (toLowerCase : jsstring -> jsstring) (partial_ratio : jsstring -> jsstring -> Z)
    (paragraphs0 : list Node) (commentsDoc0 : Node)
    (items : list MergeCommentItem) (nowIso : jsstring) :
  let r := mergeReport toLowerCase partial_ratio paragraphs0 commentsDoc0 items nowIso in
  List.map index (details r) = List.map fst (mergedFrom partial_ratio paragraphs0 0 items) /\
  (forall i, (exists d, d ∈ details r /\ index d = i) <->
             (exists item, items !! i = Some item /\
                           recordMatches partial_ratio paragraphs0 item = true)) /\
  length (details r) = mergedCount r /\
  totalCount r = length items.
Proof.
  intros r.
  destruct (mergeLoop_report toLowerCase partial_ratio paragraphs0 nowIso items 0
              (initialState paragraphs0 commentsDoc0) eq_refl) as (Hd & Hm & _ & _).
  simpl in Hd, Hm.
  assert (Hidx : List.map index (details r)
                 = List.map fst (mergedFrom partial_ratio paragraphs0 0 items)) by exact Hd.
  split; [exact Hidx|]. split; [|split; [|reflexivity]].
  - intros i. split.
    + intros (d & Hin & Hi).
      assert (Hmem : i ∈ List.map index (details r)).
      { rewrite <- Hi. apply list_elem_of_fmap. now exists d. }
      rewrite Hidx in Hmem. apply list_elem_of_fmap in Hmem as ([k item] & Hk & Hp).
      simpl in Hk. subst k. unfold mergedFrom in Hp.
      apply list_elem_of_In, List.filter_In in Hp as [Hp Hrm].
      apply list_elem_of_In, combine_seq_lookup in Hp as [_ Hp].
      rewrite Nat.sub_0_r in Hp. now exists item.
    + intros (item & Hitem & Hrm).
      assert (Hmem : i ∈ List.map index (details r)).
      { rewrite Hidx. apply list_elem_of_fmap. exists (i, item). split; [reflexivity|].
        unfold mergedFrom. apply list_elem_of_In, List.filter_In. split; [|exact Hrm].
        apply list_elem_of_In, combine_seq_lookup. split; [lia|].
        now rewrite Nat.sub_0_r. }
      apply list_elem_of_fmap in Hmem as (d & Hi & Hd'). now exists d.
  - rewrite <- (List.length_map index (details r)), Hidx, List.length_map.
    unfold r, mergeReport. simpl. unfold mergeRecords. rewrite Hm. reflexivity.
Qed.

(** C9, as it is stated, does not hold: in the report of the sample run
    the blank record, of index 1, has no details entry. *)
Lemma details_omit_skipped_record :
  let r := mergeReport toLowerCaseSample partialRatioSample
             [sampleParagraph] sampleComments sampleItems (js "now") in
  ~ (forall i, (i < length sampleItems)%nat -> exists d, d ∈ details r /\ index d = i).
Proof.
  intros r H. destruct (H 1%nat) as (d & Hd & Hi); [simpl; lia|].
  vm_compute in Hd.
  apply elem_of_cons in Hd as [->|Hd]; [discriminate|].
  apply elem_of_cons in Hd as [->|Hd]; [discriminate|].
  inversion Hd.
Qed.

(** C5. Two records of one run that match the same paragraph are
    recorded with different anchor-node indices. The set of the indices
    used on each paragraph is carried through the loop, and the index a
    record takes is the first one, from the index computed for it
    upwards, that is not in the set of its paragraph: every index the
    probe passed over is a used one. *)
Theorem anchor_indices_differ_on_one_paragraph
    (toLowerCase : jsstring -> jsstring) (partial_ratio : jsstring -> jsstring -> Z)
    (paragraphs0 : list Node) (commentsDoc0 : Node)
    (items : list MergeCommentItem) (nowIso : jsstring) :
  let r := mergeReport toLowerCase partial_ratio paragraphs0 commentsDoc0 items nowIso in
  let bestOf item :=
    bestIndex (findBestParagraphMatch partial_ratio paragraphs0
                 (List.map getParagraphText paragraphs0)
                 (default [] (anchor_text item))) in
  (forall (used : gset nat) (idx : nat),
     (probeUnused used idx ∉ used) /\
     (idx <= probeUnused used idx)%nat /\
     (forall j, (idx <= j < probeUnused used idx)%nat -> j ∈ used)) /\
  (forall d1 d2 item1 item2,
     d1 ∈ details r -> d2 ∈ details r ->
     index d1 <> index d2 ->
     items !! index d1 = Some item1 -> items !! index d2 = Some item2 ->
     bestOf item1 = bestOf item2 ->
     anchorNodeIndex d1 <> anchorNodeIndex d2).
Proof.
  intros r bestOf. split; [intros used idx; apply probeUnused_spec|].
  assert (Hinv : anchorIndicesTracked partial_ratio paragraphs0 items
                   (0 + length items)
                   (mergeRecords toLowerCase partial_ratio paragraphs0 commentsDoc0 items nowIso)).
  { apply mergeLoop_tracked; [reflexivity|intros k it Hk; exact Hk|].
    split; simpl; intros; exfalso; eapply not_elem_of_nil; eassumption. }
  destruct Hinv as [_ Hdiff]. exact Hdiff.
Qed.

Lemma anchor_indices_differ_on_one_paragraph_witness :
  let r := mergeReport toLowerCaseSample partialRatioSample
             [sampleParagraph] sampleComments sampleItems (js "now") in
  exists d1 d2,
    details r !! 0%nat = Some d1 /\ details r !! 1%nat = Some d2 /\
    index d1 = 0%nat /\ index d2 = 2%nat /\
    anchorNodeIndex d1 <> anchorNodeIndex d2.
Proof.
  intros r.
  destruct (details r !! 0%nat) as [d1|] eqn:E1; [|vm_compute in E1; discriminate].
  destruct (details r !! 1%nat) as [d2|] eqn:E2; [|vm_compute in E2; discriminate].
  exists d1, d2.
  assert (H1 : index d1 = 0%nat) by (vm_compute in E1; injection E1 as <-; reflexivity).
  assert (H2 : index d2 = 2%nat) by (vm_compute in E2; injection E2 as <-; reflexivity).
  repeat split; try assumption.
  destruct (anchor_indices_differ_on_one_paragraph toLowerCaseSample partialRatioSample
              [sampleParagraph] sampleComments sampleItems (js "now")) as [_ Hdiff].
  apply (Hdiff d1 d2 (mkItem (Some (js "world")) (Some (js "first")) (Some (js "Kate")) None)
           (mkItem (Some (js "Hello")) (Some (js "second")) None (Some (js "tone")))).
  - apply list_elem_of_lookup. now exists 0%nat.
  - apply list_elem_of_lookup. now exists 1%nat.
  - rewrite H1, H2. lia.
  - rewrite H1. reflexivity.
  - rewrite H2. reflexivity.
  - vm_compute. reflexivity.
Defined.

Lemma maxIdStep_fold_ge (nodes : list Node) (m : Z) :
  m <= fold_left maxIdStep nodes m /\
  (forall c, Finite c ∈ List.map commentIdOf nodes -> c <= fold_left maxIdStep nodes m).
Proof.
  revert m. induction nodes as [|n nodes IH]; intros m; simpl.
  - split; [lia|]. intros c H. inversion H.
  - destruct (IH (maxIdStep m n)) as [IHm IHc].
    assert (Hstep : m <= maxIdStep m n /\
                    (forall c, commentIdOf n = Finite c -> c <= maxIdStep m n)).
    { unfold maxIdStep. destruct (commentIdOf n) as [| | |id];
        try (split; [lia|discriminate]).
      destruct (Z.ltb_spec m id); split; try lia; intros c [= ->]; lia. }
    split; [lia|].
    intros c Hc. apply elem_of_cons in Hc as [Hc|Hc].
    + destruct Hstep as [_ Hs]. specialize (Hs c (eq_sym Hc)). lia.
    + now apply IHc.
Qed.

(** The maximum [getMaxCommentId] computes is not negative and bounds
    every finite identifier the comments part holds. *)
Lemma getMaxCommentId_ge (commentsDoc : Node) :
  0 <= getMaxCommentId commentsDoc /\
  forall c, Finite c ∈ commentIds commentsDoc -> c <= getMaxCommentId commentsDoc.
Proof. apply maxIdStep_fold_ge. Qed.

(** The identifiers the loop gives out from the state it starts in, as
    long as the last stays below 2^53. *)
Lemma initial_ids_exact (commentsDoc0 : Node) (k : nat) :
  getMaxCommentId commentsDoc0 + Z.of_nat k < 2 ^ 53 ->
  idsFrom (addOne (getMaxCommentId commentsDoc0)) k
  = seqZ (getMaxCommentId commentsDoc0 + 1) (Z.of_nat k) /\
  nthId (addOne (getMaxCommentId commentsDoc0)) k
  = getMaxCommentId commentsDoc0 + 1 + Z.of_nat k /\
  Forall (fun id => 0 <= id < 2 ^ 53)
    (seqZ (getMaxCommentId commentsDoc0 + 1) (Z.of_nat k)).
Proof.
  intros Hb. destruct (getMaxCommentId_ge commentsDoc0) as [H0 _].
  rewrite addOne_exact by lia.
  split; [apply idsFrom_exact; lia|]. split; [apply nthId_exact; lia|].
  apply Forall_forall. intros id Hid. apply elem_of_seqZ in Hid. lia.
Qed.

(** Below 2^53 the identifiers are read back as they were written. *)
Lemma ids_read_back (ids : list Z) :
  Forall (fun id => 0 <= id < 2 ^ 53) ids ->
  List.map (fun id => parseInt10 (String_of id)) ids = List.map Finite ids.
Proof.
  intros H. apply List.map_ext_in. intros id Hid.
  rewrite Forall_forall in H. specialize (H id (proj2 (list_elem_of_In _ _) Hid)).
  apply parseInt10_String_of. lia.
Qed.

(** C2, as the code has it. The run reads the maximum of the identifiers
    of the comments part once, before the loop; the comments it adds
    carry the identifiers that follow that maximum, one step per merged
    record. As long as the last identifier given out stays below 2^53,
    where the numbers of the program are exact, the comments part after
    the run holds the identifiers it had and the new ones; the new ones
    are pairwise distinct and each is greater than every finite
    identifier the part had. *)
Theorem new_comment_ids_exceed_existing
    (toLowerCase : jsstring -> jsstring) (partial_ratio : jsstring -> jsstring -> Z)
    (paragraphs0 : list Node) (commentsDoc0 : Node)
    (items : list MergeCommentItem) (nowIso : jsstring) :
  isElement commentsDoc0 = true ->
  let st := mergeRecords toLowerCase partial_ratio paragraphs0 commentsDoc0 items nowIso in
  getMaxCommentId commentsDoc0 + Z.of_nat (mergedSoFar st) < 2 ^ 53 ->
  let newIds := seqZ (getMaxCommentId commentsDoc0 + 1) (Z.of_nat (mergedSoFar st)) in
  commentIds (commentsDoc st) ≡ₚ commentIds commentsDoc0 ++ List.map Finite newIds /\
  NoDup newIds /\
  (forall c id, Finite c ∈ commentIds commentsDoc0 -> id ∈ newIds -> c < id) /\
  nextCommentId st = getMaxCommentId commentsDoc0 + 1 + Z.of_nat (mergedSoFar st).
Proof.
  intros Hel st Hbound newIds.
  destruct (mergeLoop_report toLowerCase partial_ratio paragraphs0 nowIso items 0
              (initialState paragraphs0 commentsDoc0) eq_refl) as (_ & Hm & Hn & _).
  destruct (mergeLoop_commentIds toLowerCase partial_ratio paragraphs0 nowIso items 0
              (initialState paragraphs0 commentsDoc0) eq_refl Hel) as [Hp _].
  simpl in Hm, Hn, Hp.
  assert (Hcount : mergedSoFar st = length (mergedFrom partial_ratio paragraphs0 0 items))
    by exact Hm.
  rewrite Hcount in Hbound.
  destruct (initial_ids_exact commentsDoc0 _ Hbound) as (Hids & Hlast & Hsmall).
  repeat split.
  - unfold newIds. rewrite Hcount, <- (ids_read_back _ Hsmall), <- Hids. exact Hp.
  - apply NoDup_seqZ.
  - intros c id Hc Hid. apply getMaxCommentId_ge in Hc.
    apply elem_of_seqZ in Hid. lia.
  - rewrite Hcount, <- Hlast. exact Hn.
Qed.

Lemma new_comment_ids_exceed_existing_witness :
  let st := mergeRecords toLowerCaseSample partialRatioSample
              [sampleParagraph] sampleComments sampleItems (js "now") in
  commentIds (commentsDoc st) ≡ₚ [Finite 7] ++ [Finite 8; Finite 9] /\
  nextCommentId st = 10.
Proof.
  intros st.
  destruct (new_comment_ids_exceed_existing toLowerCaseSample partialRatioSample
              [sampleParagraph] sampleComments sampleItems (js "now") eq_refl)
    as (Hp & _ & _ & Hn).
  - reflexivity.
  - split; [exact Hp|exact Hn].
Defined.

(** From 2^53 on the counter does not move: [n + 1] is [n] again. A
    comments part that holds the identifier 2^53 - 1 gets, for the two
    matched records of the sample, two comments of the identifier 2^53:
    the new identifiers are not pairwise distinct. *)
Lemma new_comment_ids_repeat_from_2_53 :
  let commentsDoc0 :=
    Element W_NS "w" "comments" []
      [Element W_NS "w" "comment" [mkAttr W_NS "w" "id" (js "9007199254740991")] []] in
  let st := mergeRecords toLowerCaseSample partialRatioSample
              [sampleParagraph] commentsDoc0 sampleItems (js "now") in
  getMaxCommentId commentsDoc0 = 2 ^ 53 - 1 /\
  mergedSoFar st = 2%nat /\
  List.map (getAttributeNS W_NS "id")
    (docGetElementsByTagNameNS W_NS "comment" (commentsDoc st))
  = [Some (js "9007199254740991"); Some (js "9007199254740992");
     Some (js "9007199254740992")] /\
  commentIds (commentsDoc st) = [Finite (2 ^ 53 - 1); Finite (2 ^ 53); Finite (2 ^ 53)] /\
  ~ NoDup (drop 1 (commentIds (commentsDoc st))).
Proof.
  vm_compute. repeat split.
  intros H. apply NoDup_cons in H as [H _]. apply H. left.
Qed.

(** *** Anchor nodes *)

Lemma insertBefore_at (pre post : list Node) (x : Node) :
  insertBefore (pre ++ post) x (length pre) = pre ++ x :: post.
Proof.
  unfold insertBefore.
  now rewrite take_app_length, drop_app_length.
Qed.

Lemma insertAfter_at (pre post : list Node) (a y : Node) :
  insertAfter (pre ++ a :: post) y (length pre) = pre ++ a :: y :: post.
Proof.
  unfold insertAfter.
  replace (S (length pre)) with (length (pre ++ [a])) by (rewrite length_app; simpl; lia).
  replace (pre ++ a :: post) with ((pre ++ [a]) ++ post) by (now rewrite <- app_assoc).
  destruct post as [|p post].
  - rewrite app_nil_r, lookup_ge_None_2 by lia. now rewrite <- !app_assoc.
  - rewrite lookup_app_r by lia. rewrite Nat.sub_diag. simpl.
    rewrite insertBefore_at. now rewrite <- app_assoc.
Qed.

Lemma candidatePositionsFrom_lookup (kids : list Node) (base k pos : nat) :
  candidatePositionsFrom kids base !! k = Some pos ->
  exists pre anchor post,
    kids = pre ++ anchor :: post /\ pos = (base + length pre)%nat /\
    length (List.filter isAnchorCandidate pre) = k /\
    List.filter isAnchorCandidate kids !! k = Some anchor.
Proof.
  revert base k. induction kids as [|c kids IH]; intros base k H; simpl in H; [discriminate|].
  destruct (isAnchorCandidate c) eqn:E.
  - destruct k as [|k]; simpl in H.
    + injection H as <-. exists [], c, kids. simpl. rewrite E.
      repeat split. lia.
    + destruct (IH _ _ H) as (pre & a & post & -> & -> & Hk & Ha).
      exists (c :: pre), a, post. simpl. rewrite E. simpl.
      repeat split; [lia|now f_equal|exact Ha].
  - destruct (IH _ _ H) as (pre & a & post & -> & -> & Hk & Ha).
    exists (c :: pre), a, post. simpl. rewrite E.
    repeat split; [lia|exact Hk|exact Ha].
Qed.

Lemma candidatePositionsFrom_length (kids : list Node) (base : nat) :
  length (candidatePositionsFrom kids base) = length (List.filter isAnchorCandidate kids).
Proof.
  revert base. induction kids as [|c kids IH]; intros base; simpl; [reflexivity|].
  destruct (isAnchorCandidate c); simpl; now rewrite IH.
Qed.

(** The child nodes after [insertCommentAnchorIntoParagraph], by the two
    cases of [candidates[anchorIndex] ?? null]. *)
Lemma insertCommentAnchorIntoParagraph_children ns pre loc attrs kids commentId anchorIndex :
  let paragraph := Element ns pre loc attrs kids in
  exists before anchorNode after,
    children (insertCommentAnchorIntoParagraph paragraph commentId anchorIndex)
    = before ++ [commentRangeStart commentId; anchorNode;
                 commentRangeEnd commentId; createCommentReferenceRun commentId] ++ after /\
    ((getDirectChildAnchorCandidates paragraph !! anchorIndex = Some anchorNode /\
      kids = before ++ anchorNode :: after /\
      length (List.filter isAnchorCandidate before) = anchorIndex)
     \/
     (getDirectChildAnchorCandidates paragraph !! anchorIndex = None /\
      anchorNode = createSpaceRun /\ before = kids /\ after = [])).
Proof.
  intros paragraph. unfold insertCommentAnchorIntoParagraph, candidatePositions.
  simpl children.
  destruct (candidatePositionsFrom kids 0 !! anchorIndex) as [pos|] eqn:E.
  - destruct (candidatePositionsFrom_lookup _ _ _ _ E) as (before & a & after & -> & -> & Hk & Ha).
    exists before, a, after. simpl Nat.add.
    rewrite insertBefore_at.
    change (before ++ commentRangeStart commentId :: a :: after)
      with (before ++ [commentRangeStart commentId] ++ a :: after).
    rewrite app_assoc.
    replace (S (length before)) with (length (before ++ [commentRangeStart commentId]))
      by (rewrite length_app; simpl; lia).
    rewrite insertAfter_at.
    replace ((before ++ [commentRangeStart commentId]) ++ a :: commentRangeEnd commentId :: after)
      with ((before ++ [commentRangeStart commentId; a]) ++ commentRangeEnd commentId :: after)
      by (now rewrite <- !app_assoc).
    replace (S (length (before ++ [commentRangeStart commentId])))
      with (length (before ++ [commentRangeStart commentId; a]))
      by (rewrite !length_app; simpl; lia).
    rewrite insertAfter_at. simpl. rewrite <- app_assoc. simpl.
    split; [reflexivity|]. left. repeat split; assumption.
  - exists kids, createSpaceRun, [].
    rewrite insertBefore_at.
    change (kids ++ [commentRangeStart commentId; createSpaceRun])
      with (kids ++ [commentRangeStart commentId] ++ createSpaceRun :: []).
    rewrite app_assoc.
    replace (S (length kids)) with (length (kids ++ [commentRangeStart commentId]))
      by (rewrite length_app; simpl; lia).
    rewrite insertAfter_at.
    replace ((kids ++ [commentRangeStart commentId]) ++ [createSpaceRun; commentRangeEnd commentId])
      with ((kids ++ [commentRangeStart commentId; createSpaceRun]) ++ commentRangeEnd commentId :: [])
      by (now rewrite <- !app_assoc).
    replace (S (length (kids ++ [commentRangeStart commentId])))
      with (length (kids ++ [commentRangeStart commentId; createSpaceRun]))
      by (rewrite !length_app; simpl; lia).
    rewrite insertAfter_at. simpl. rewrite <- app_assoc. simpl.
    split; [reflexivity|]. right. repeat split.
    unfold getDirectChildAnchorCandidates. simpl children.
    apply lookup_ge_None. apply lookup_ge_None in E.
    now rewrite candidatePositionsFrom_length in E.
Qed.

(** C1. [insertCommentAnchorIntoParagraph], called for every merged
    record with the identifier of its comment, leaves in the paragraph,
    next to one another and in this order: the [commentRangeStart]
    marker, the anchor node, the [commentRangeEnd] marker and the
    comment-reference run. The anchor node is the candidate of the given
    index, at its place among the child nodes, which are otherwise as
    they were; or, when there is no such candidate, a space run appended
    to them. The two markers and the [commentReference] of the run carry
    the identifier of the comment. *)
Theorem comment_anchor_insertion_order
    (ns pre loc : string) (attrs : list Attr) (kids : list Node)
    (commentId : Z) (anchorIndex : nat) :
  let paragraph := Element ns pre loc attrs kids in
  let rangeStart := commentRangeStart commentId in
  let rangeEnd := commentRangeEnd commentId in
  let refRun := createCommentReferenceRun commentId in
  (exists before anchorNode after,
     children (insertCommentAnchorIntoParagraph paragraph commentId anchorIndex)
     = before ++ [rangeStart; anchorNode; rangeEnd; refRun] ++ after /\
     ((getDirectChildAnchorCandidates paragraph !! anchorIndex = Some anchorNode /\
       kids = before ++ anchorNode :: after /\
       length (List.filter isAnchorCandidate before) = anchorIndex)
      \/
      (getDirectChildAnchorCandidates paragraph !! anchorIndex = None /\
       anchorNode = createSpaceRun /\ before = kids /\ after = []))) /\
  isElementNS W_NS "commentRangeStart" rangeStart = true /\
  getAttributeNS W_NS "id" rangeStart = Some (String_of commentId) /\
  isElementNS W_NS "commentRangeEnd" rangeEnd = true /\
  getAttributeNS W_NS "id" rangeEnd = Some (String_of commentId) /\
  isElementNS W_NS "r" refRun = true /\
  List.map (getAttributeNS W_NS "id") (getElementsByTagNameNS W_NS "commentReference" refRun)
  = [Some (String_of commentId)].
Proof.
  intros paragraph rangeStart rangeEnd refRun.
  split; [apply insertCommentAnchorIntoParagraph_children|].
  repeat split.
Qed.

Lemma childTextLengthOf_paragraphTextOf (el : Node) :
  childTextLengthOf el = length (paragraphTextOf el).
Proof.
  destruct el as [ns pre tag attrs kids|d|d]; try reflexivity.
  unfold childTextLengthOf, paragraphTextOf.
  destruct (negb (String.eqb ns W_NS)); [reflexivity|].
  destruct (String.eqb tag "t"); [reflexivity|].
  destruct (String.eqb tag "tab"); [reflexivity|].
  destruct (String.eqb tag "br"); [reflexivity|].
  destruct (String.eqb tag "cr"); reflexivity.
Qed.

Lemma fold_left_text_length (els : list Node) (acc : nat) :
  fold_left (fun len el => (len + childTextLengthOf el)%nat) els acc
  = (acc + length (flat_map paragraphTextOf els))%nat.
Proof.
  revert acc. induction els as [|el els IH]; intros acc; simpl; [lia|].
  rewrite IH, length_app, childTextLengthOf_paragraphTextOf. lia.
Qed.

Lemma getChildTextLength_length (node : Node) :
  getChildTextLength node = length (getParagraphText node).
Proof.
  unfold getChildTextLength, getParagraphText. now rewrite fold_left_text_length.
Qed.

(** The walk of [findBestAnchorCandidateIndexForOffset] from a cursor
    that the offset has not passed. *)
Lemma walkCandidates_spec (cs : list Node) (i cursor offset : nat) :
  (cursor <= offset)%nat ->
  match walkCandidates cs i cursor offset with
  | Some r =>
      exists k, r = (i + k)%nat /\ (k < length cs)%nat /\
        (cursor + widthsTotal (take k cs) <= offset
         < cursor + widthsTotal (take (S k) cs))%nat
  | None => (cursor + widthsTotal cs <= offset)%nat
  end.
Proof.
  revert i cursor. induction cs as [|c cs IH]; intros i cursor Hle; simpl.
  - unfold widthsTotal. simpl. lia.
  - fold (candidateWidth c).
    destruct (Nat.ltb_spec offset (cursor + candidateWidth c)) as [Hlt|Hge].
    + exists 0%nat. unfold widthsTotal. simpl. repeat split; lia.
    + specialize (IH (S i) (cursor + candidateWidth c)%nat Hge).
      destruct (walkCandidates cs (S i) (cursor + candidateWidth c) offset) as [r|].
      * destruct IH as (k & -> & Hk & Hlo & Hhi).
        exists (S k). unfold widthsTotal in *. simpl in *. repeat split; lia.
      * unfold widthsTotal in *. simpl. lia.
Qed.

Lemma widthsTotal_app (cs1 cs2 : list Node) :
  widthsTotal (cs1 ++ cs2) = (widthsTotal cs1 + widthsTotal cs2)%nat.
Proof.
  unfold widthsTotal. induction cs1 as [|c cs1 IH]; simpl; [reflexivity|].
  rewrite IH. lia.
Qed.

Lemma widthsTotal_take (cs : list Node) (k : nat) :
  (widthsTotal (take k cs) <= widthsTotal cs)%nat.
Proof.
  rewrite <- (take_drop k cs) at 2. rewrite widthsTotal_app. lia.
Qed.

(** The total of the walk, by the text of the candidates. *)
Lemma widthsTotal_by_text (cs : list Node) :
  widthsTotal cs
  = sum_list (List.map (fun c => Nat.max 1 (length (getParagraphText c))) cs).
Proof.
  unfold widthsTotal. f_equal. apply List.map_ext. intros c.
  unfold candidateWidth. now rewrite getChildTextLength_length.
Qed.

(** C10. The index [findBestAnchorCandidateIndexForOffset] returns for a
    paragraph and an offset: every candidate is as wide as the text
    [getParagraphText] extracts from it is long, and one position wide
    when it has no text; the index is that of the candidate whose span
    holds the offset, and that of the last candidate when the offset is
    at or beyond the total; it is 0 when there is no candidate. When the
    index given to [insertCommentAnchorIntoParagraph] is past the last
    candidate, a run that holds one space (a [w:t] with
    [xml:space="preserve"]) is appended to the child nodes and the
    comment range is put around it. Both functions are total. *)
Theorem anchor_index_total_and_in_range
    (ns pre loc : string) (attrs : list Attr) (kids : list Node)
    (offset : nat) (commentId : Z) (anchorIndex : nat) :
  let paragraph := Element ns pre loc attrs kids in
  let candidates := getDirectChildAnchorCandidates paragraph in
  let i := findBestAnchorCandidateIndexForOffset paragraph offset in
  let width c := Nat.max 1 (length (getParagraphText c)) in
  let total cs := sum_list (List.map width cs) in
  let spaceRun :=
    Element W_NS "w" "r" []
      [Element W_NS "w" "t" [mkAttr XML_NS "xml" "space" (js "preserve")]
         [TextNode (js " ")]] in
  (forall c, getChildTextLength c = length (getParagraphText c)) /\
  (candidates = [] -> i = 0%nat) /\
  (candidates <> [] ->
     (i < length candidates)%nat /\
     ((offset < total candidates)%nat ->
        exists c, candidates !! i = Some c /\
          (total (take i candidates) <= offset
           < total (take i candidates) + width c)%nat) /\
     ((total candidates <= offset)%nat -> i = (length candidates - 1)%nat)) /\
  ((length candidates <= anchorIndex)%nat ->
     children (insertCommentAnchorIntoParagraph paragraph commentId anchorIndex)
     = kids ++ [commentRangeStart commentId; spaceRun;
                commentRangeEnd commentId; createCommentReferenceRun commentId]) /\
  getParagraphText spaceRun = js " " /\
  isAnchorCandidate spaceRun = true.
Proof.
  intros paragraph candidates i width total spaceRun.
  assert (Ht : forall cs, total cs = widthsTotal cs)
    by (intros cs; symmetry; apply widthsTotal_by_text).
  assert (Hw : forall c, width c = candidateWidth c)
    by (intros c; unfold width, candidateWidth; now rewrite getChildTextLength_length).
  split; [exact getChildTextLength_length|].
  split; [|split; [|split; [|split; reflexivity]]].
  - intros Hnil. unfold i, findBestAnchorCandidateIndexForOffset.
    fold candidates. now rewrite Hnil.
  - intros Hne. rewrite !Ht.
    assert (Hlen : (0 < length candidates)%nat)
      by (destruct candidates; [congruence|simpl; lia]).
    unfold i, findBestAnchorCandidateIndexForOffset. fold candidates.
    destruct (Nat.eqb_spec (length candidates) 0) as [E|_]; [lia|].
    pose proof (walkCandidates_spec candidates 0 0 offset (Nat.le_0_l _)) as Hwalk.
    destruct (walkCandidates candidates 0 0 offset) as [r|].
    + destruct Hwalk as (k & -> & Hk & Hlo & Hhi). simpl in *.
      split; [exact Hk|]. split;
        [|intros Htot; pose proof (widthsTotal_take candidates (S k)); lia].
      intros _.
      destruct (lookup_lt_is_Some_2 candidates k Hk) as [c Hc].
      exists c. split; [exact Hc|]. rewrite ?Ht, Hw.
      rewrite (take_S_r candidates k c Hc) in Hhi.
      rewrite widthsTotal_app in Hhi. unfold widthsTotal in Hhi at 2.
      simpl in Hhi. lia.
    + simpl in Hwalk. split; [lia|]. split; [lia|reflexivity].
  - intros Hpast.
    destruct (insertCommentAnchorIntoParagraph_children ns pre loc attrs kids commentId anchorIndex)
      as (before & a & after & Hkids & [(Hsome & _)|(_ & -> & -> & ->)]).
    + fold paragraph candidates in Hsome.
      apply lookup_lt_Some in Hsome. lia.
    + fold paragraph in Hkids. rewrite Hkids. reflexivity.
Qed.

Lemma anchor_index_total_and_in_range_witness :
  let width c := Nat.max 1 (length (getParagraphText c)) in
  List.map width (getDirectChildAnchorCandidates sampleRuns) = [6; 1; 1; 5]%nat /\
  findBestAnchorCandidateIndexForOffset sampleRuns 7 = 2%nat /\
  (exists c, getDirectChildAnchorCandidates sampleRuns !! 2%nat = Some c /\
             (7 <= 7 < 7 + width c)%nat) /\
  findBestAnchorCandidateIndexForOffset sampleRuns 40 = 3%nat /\
  children (insertCommentAnchorIntoParagraph sampleRuns 8 4)
  = children sampleRuns ++
    [commentRangeStart 8;
     Element W_NS "w" "r" []
       [Element W_NS "w" "t" [mkAttr XML_NS "xml" "space" (js "preserve")]
          [TextNode (js " ")]];
     commentRangeEnd 8; createCommentReferenceRun 8].
Proof.
  intros width.
  destruct (anchor_index_total_and_in_range W_NS "w" "p" []
              (children sampleRuns) 7 8 4) as (_ & _ & Hin & Hpast & _).
  destruct Hin as (_ & Hspan & _); [discriminate|].
  destruct Hspan as (c & Hc & Hr); [vm_compute; lia|].
  destruct (anchor_index_total_and_in_range W_NS "w" "p" []
              (children sampleRuns) 40 8 4) as (_ & _ & Hin & _).
  destruct Hin as (_ & _ & Hlast); [discriminate|].
  split; [reflexivity|]. split; [reflexivity|].
  split; [exists c; split; [exact Hc|exact Hr]|].
  split; [apply Hlast; vm_compute; lia|].
  apply Hpast. vm_compute. lia.
Defined.

(** *** The manifests *)

Lemma find_app_none {A} (p : A -> bool) (l1 l2 : list A) :
  List.find p l1 = None -> List.find p (l1 ++ l2) = List.find p l2.
Proof.
  induction l1 as [|x l1 IH]; simpl; [reflexivity|].
  destruct (p x); [discriminate|exact IH].
Qed.

Lemma existsb_find_none {A} (p : A -> bool) (l : list A) :
  existsb p l = false <-> List.find p l = None.
Proof.
  induction l as [|x l IH]; simpl; [tauto|].
  destruct (p x); simpl; [split; discriminate|exact IH].
Qed.

(** The elements of a tag name after a childless element [c] is
    appended to the document element. *)
Lemma docGetElementsByTagName_appendChild (q : string) (c root : Node) :
  isElement root = true -> children c = [] -> isElement c = true ->
  exists root',
    appendChild c root = root' /\ attrsOf root' = attrsOf root /\
    hasTagName q root' = hasTagName q root /\
    docGetElementsByTagName q (appendChild c root)
    = (if hasTagName q root then [root'] else []) ++
      List.filter (hasTagName q) (descendantElements root) ++
      (if hasTagName q c then [c] else []).
Proof.
  intros Hroot Hc Hel.
  destruct root as [ns pre loc attrs kids|d|d]; try discriminate.
  destruct c as [cns cpre cloc cattrs ckids|d|d]; try discriminate.
  simpl in Hc. subst ckids.
  eexists. split; [reflexivity|]. split; [reflexivity|]. split; [reflexivity|].
  unfold docGetElementsByTagName, appendChild, descendantElements.
  simpl children. simpl setChildren. cbn [subtreeElements].
  rewrite flat_map_app. cbn [List.filter].
  change (hasTagName q (Element ns pre loc attrs (kids ++ [Element cns cpre cloc cattrs []])))
    with (hasTagName q (Element ns pre loc attrs kids)).
  rewrite List.filter_app. simpl flat_map. cbn [List.filter app].
  destruct (hasTagName q (Element ns pre loc attrs kids)),
           (hasTagName q (Element cns cpre cloc cattrs [])); reflexivity.
Qed.

Lemma ensureCommentsPartInContentTypes_present (contentTypesDoc : Node) :
  existsb isCommentsOverride (docGetElementsByTagName "Override" contentTypesDoc) = true ->
  ensureCommentsPartInContentTypes contentTypesDoc = contentTypesDoc.
Proof. intros H. unfold ensureCommentsPartInContentTypes. now rewrite H. Qed.

Lemma ensureCommentsPartInContentTypes_twice (contentTypesDoc : Node) :
  ensureCommentsPartInContentTypes (ensureCommentsPartInContentTypes contentTypesDoc)
  = ensureCommentsPartInContentTypes contentTypesDoc.
Proof.
  destruct (existsb isCommentsOverride
              (docGetElementsByTagName "Override" contentTypesDoc)) eqn:E.
  - now rewrite !(ensureCommentsPartInContentTypes_present _ E).
  - assert (Hnew : exists override,
              children override = [] /\ isElement override = true /\
              hasTagName "Override" override = true /\
              isCommentsOverride override = true /\
              ensureCommentsPartInContentTypes contentTypesDoc
              = appendChild override contentTypesDoc).
    { eexists. unfold ensureCommentsPartInContentTypes. rewrite E.
      repeat split; reflexivity. }
    destruct Hnew as (override & Hkids & Hel & Htag & Hov & Hnew).
    rewrite Hnew.
    destruct (isElement contentTypesDoc) eqn:Hroot.
    + apply ensureCommentsPartInContentTypes_present.
      destruct (docGetElementsByTagName_appendChild "Override" override contentTypesDoc
                  Hroot Hkids Hel) as (root' & _ & _ & _ & ->).
      rewrite !existsb_app, Htag. simpl. rewrite Hov.
      now rewrite !orb_true_r.
    + destruct contentTypesDoc; [discriminate| |]; exact Hnew.
Qed.

Lemma ensureCommentsRelationship_present (documentRelsDoc : Node) :
  existsb isCommentsRelationship
    (docGetElementsByTagName "Relationship" documentRelsDoc) = true ->
  fst (ensureCommentsRelationship documentRelsDoc) = documentRelsDoc.
Proof.
  intros H. unfold ensureCommentsRelationship.
  destruct (List.find _ _) eqn:E; [reflexivity|].
  apply existsb_find_none in E. congruence.
Qed.

Lemma ensureCommentsRelationship_new (documentRelsDoc : Node) :
  existsb isCommentsRelationship
    (docGetElementsByTagName "Relationship" documentRelsDoc) = false ->
  let rels := docGetElementsByTagName "Relationship" documentRelsDoc in
  let newId := js "rId" ++ String_of (addOne (fold_left maxRIdStep rels 0)) in
  ensureCommentsRelationship documentRelsDoc
  = (appendChild (commentsRelationship newId) documentRelsDoc, newId).
Proof.
  intros H rels newId. unfold ensureCommentsRelationship.
  apply existsb_find_none in H. rewrite H. reflexivity.
Qed.

Lemma ensureCommentsRelationship_twice (documentRelsDoc : Node) :
  ensureCommentsRelationship (fst (ensureCommentsRelationship documentRelsDoc))
  = ensureCommentsRelationship documentRelsDoc.
Proof.
  destruct (existsb isCommentsRelationship
              (docGetElementsByTagName "Relationship" documentRelsDoc)) eqn:E.
  - now rewrite (ensureCommentsRelationship_present _ E).
  - rewrite (ensureCommentsRelationship_new _ E). cbn [fst].
    set (newId := js "rId" ++ String_of _).
    destruct (isElement documentRelsDoc) eqn:Hel.
    + unfold ensureCommentsRelationship at 1.
      destruct (docGetElementsByTagName_appendChild "Relationship"
                  (commentsRelationship newId) documentRelsDoc Hel eq_refl eq_refl)
        as (root' & Hroot' & Hattrs & Htag & ->).
      apply existsb_find_none in E.
      assert (Hold : List.find isCommentsRelationship
                (if hasTagName "Relationship" documentRelsDoc then [root'] else []) = None
              /\ List.find isCommentsRelationship
                   (List.filter (hasTagName "Relationship") (descendantElements documentRelsDoc)) = None).
      { destruct documentRelsDoc as [ns pre loc attrs kids|d|d]; try discriminate.
        unfold docGetElementsByTagName in E. cbn [subtreeElements List.filter] in E.
        fold (descendantElements (Element ns pre loc attrs kids)) in E.
        destruct (hasTagName "Relationship" (Element ns pre loc attrs kids)).
        - cbn [List.find] in E |- *.
          assert (Hsame : isCommentsRelationship root'
                          = isCommentsRelationship (Element ns pre loc attrs kids)).
          { unfold isCommentsRelationship, getAttribute. now rewrite Hattrs. }
          rewrite Hsame.
          destruct (isCommentsRelationship (Element ns pre loc attrs kids));
            [discriminate|]. now split.
        - now split. }
      destruct Hold as [Hold1 Hold2].
      rewrite (find_app_none _ _ _ Hold1), (find_app_none _ _ _ Hold2).
      change (hasTagName "Relationship" (commentsRelationship newId)) with true.
      cbn [List.find]. change (isCommentsRelationship (commentsRelationship newId)) with true.
      cbv iota. change (getAttribute "Id" (commentsRelationship newId)) with (Some newId).
      cbv iota. reflexivity.
    + destruct documentRelsDoc; [discriminate| |];
        (change (appendChild (commentsRelationship newId) _) with documentRelsDoc ||
         idtac); unfold appendChild; simpl setChildren;
        now rewrite (ensureCommentsRelationship_new _ E).
Qed.

Lemma rIdNumber_of_numeral (r : Node) (n : Z) :
  0 <= n <= 2 ^ 53 ->
  getAttribute "Id" r = Some (js "rId" ++ String_of n) ->
  rIdNumber r = Finite n.
Proof.
  intros Hn Hid. unfold rIdNumber. rewrite Hid. simpl.
  pose proof two_53_lt_ten_21.
  rewrite (String_of_nonneg_digits n) by lia. apply parseInt10_String_of. lia.
Qed.

Lemma maxRIdStep_rIdNumber (m : Z) (r : Node) :
  maxRIdStep m r = match rIdNumber r with
                   | Finite n => if m <? n then n else m
                   | _ => m
                   end.
Proof.
  unfold maxRIdStep, rIdNumber.
  destruct (matchRId _); [|reflexivity]. reflexivity.
Qed.

Lemma maxRIdStep_fold (rels : list Node) (m : Z) :
  let top := fold_left maxRIdStep rels m in
  m <= top /\
  (forall r n, r ∈ rels -> rIdNumber r = Finite n -> n <= top) /\
  (top = m \/ exists r, r ∈ rels /\ rIdNumber r = Finite top).
Proof.
  revert m. induction rels as [|r rels IH]; intros m; simpl.
  - repeat split; [lia| |now left]. intros r n H. inversion H.
  - destruct (IH (maxRIdStep m r)) as (IHm & IHle & IHtop).
    rewrite maxRIdStep_rIdNumber in *.
    assert (Hskip : (forall k, rIdNumber r <> Finite k) ->
              fold_left maxRIdStep rels m = fold_left maxRIdStep rels
                (match rIdNumber r with Finite n => if m <? n then n else m | _ => m end)).
    { intros Hk. destruct (rIdNumber r); try reflexivity. now destruct (Hk z). }
    destruct (rIdNumber r) as [| | |k] eqn:E.
    1-3: (repeat split; [lia| |];
          [intros r' n Hin Hn; apply elem_of_cons in Hin as [->|Hin]; [congruence|];
           now apply (IHle r')
          |destruct IHtop as [->|(r' & Hin & Hr')]; [now left|];
           right; exists r'; split; [apply elem_of_cons; now right|exact Hr']]).
    destruct (Z.ltb_spec m k).
    + repeat split; [lia| |].
      * intros r' n Hin Hn. apply elem_of_cons in Hin as [->|Hin].
        -- rewrite E in Hn. injection Hn as <-. lia.
        -- now apply (IHle r').
      * right. destruct IHtop as [->|(r' & Hin & Hr')].
        -- exists r. split; [apply elem_of_cons; now left|exact E].
        -- exists r'. split; [apply elem_of_cons; now right|exact Hr'].
    + repeat split; [lia| |].
      * intros r' n Hin Hn. apply elem_of_cons in Hin as [->|Hin].
        -- rewrite E in Hn. injection Hn as <-. lia.
        -- now apply (IHle r').
      * destruct IHtop as [->|(r' & Hin & Hr')]; [now left|].
        right. exists r'. split; [apply elem_of_cons; now right|exact Hr'].
Qed.

(** The elements [getElementsByTagName(qname)] answers for a name
    without prefix: the elements of that local name that have no
    prefix. *)
Lemma docGetElementsByTagName_unprefixed (loc : string) (root el : Node) :
  el ∈ docGetElementsByTagName loc root <->
  el ∈ subtreeElements root /\
  exists ns pre eloc attrs kids,
    el = Element ns pre eloc attrs kids /\ qualifiedName pre eloc = loc.
Proof.
  unfold docGetElementsByTagName.
  rewrite list_elem_of_In, List.filter_In, <- list_elem_of_In.
  split; intros [Hin H]; (split; [exact Hin|]).
  - destruct el as [ns pre eloc attrs kids|d|d]; try discriminate.
    exists ns, pre, eloc, attrs, kids. split; [reflexivity|].
    now apply String.eqb_eq in H.
  - destruct H as (ns & pre & eloc & attrs & kids & -> & Hq). simpl.
    now apply String.eqb_eq.
Qed.

(** C8, as the code has it. The two fix-ups of the manifests are
    idempotent: a second application after a first changes nothing.
    Each looks for its entry with [getElementsByTagName], by qualified
    name: it sees the elements of tag name [Override], or
    [Relationship], without prefix. When the content-types part has such
    an [Override] for the comments part, or the relationships part such
    a relationship of the comments type, the fix-up leaves the part as
    it is. When [ensureCommentsRelationship] makes a relationship, its
    [Id] is [rId] followed by [String(maxNum + 1)] in the numbers of the
    program, [maxNum] being the greatest finite number [parseInt] reads
    among the [Id]s of the form [rId] followed by digits (0 when there is
    none); this is one more than the greatest numeral as long as that is
    below 2^53. *)
Theorem package_fixups_are_idempotent (contentTypesDoc documentRelsDoc : Node) :
  let overrides := docGetElementsByTagName "Override" contentTypesDoc in
  let rels := docGetElementsByTagName "Relationship" documentRelsDoc in
  ensureCommentsPartInContentTypes (ensureCommentsPartInContentTypes contentTypesDoc)
  = ensureCommentsPartInContentTypes contentTypesDoc /\
  (existsb isCommentsOverride overrides = true ->
   ensureCommentsPartInContentTypes contentTypesDoc = contentTypesDoc) /\
  ensureCommentsRelationship (fst (ensureCommentsRelationship documentRelsDoc))
  = ensureCommentsRelationship documentRelsDoc /\
  (existsb isCommentsRelationship rels = true ->
   fst (ensureCommentsRelationship documentRelsDoc) = documentRelsDoc) /\
  (forall el,
     (el ∈ overrides <->
      el ∈ subtreeElements contentTypesDoc /\
      exists ns pre loc attrs kids,
        el = Element ns pre loc attrs kids /\ qualifiedName pre loc = "Override"%string) /\
     (el ∈ rels <->
      el ∈ subtreeElements documentRelsDoc /\
      exists ns pre loc attrs kids,
        el = Element ns pre loc attrs kids /\
        qualifiedName pre loc = "Relationship"%string)) /\
  (existsb isCommentsRelationship rels = false ->
   exists maxNum,
     ensureCommentsRelationship documentRelsDoc
     = (appendChild
          (Element REL_NS "" "Relationship"
             [mkAttr "" "" "Id" (js "rId" ++ String_of (addOne maxNum));
              mkAttr "" "" "Type" (js COMMENTS_REL_TYPE);
              mkAttr "" "" "Target" (js "comments.xml")] [])
          documentRelsDoc,
        js "rId" ++ String_of (addOne maxNum)) /\
     0 <= maxNum /\
     (forall r n, r ∈ rels -> rIdNumber r = Finite n -> n <= maxNum) /\
     (maxNum = 0 \/ exists r, r ∈ rels /\ rIdNumber r = Finite maxNum) /\
     (maxNum < 2 ^ 53 ->
      addOne maxNum = maxNum + 1 /\
      String_of (addOne maxNum) = decimalOf (maxNum + 1) /\
      forall r n, r ∈ rels -> 0 <= n <= 2 ^ 53 ->
        getAttribute "Id" r = Some (js "rId" ++ String_of n) -> n <= maxNum)).
Proof.
  intros overrides rels.
  split; [apply ensureCommentsPartInContentTypes_twice|].
  split; [apply ensureCommentsPartInContentTypes_present|].
  split; [apply ensureCommentsRelationship_twice|].
  split; [apply ensureCommentsRelationship_present|].
  split; [intros el; split; apply docGetElementsByTagName_unprefixed|].
  intros Hnone. exists (fold_left maxRIdStep rels 0).
  destruct (maxRIdStep_fold rels 0) as (H0 & Hle & Htop).
  split; [apply (ensureCommentsRelationship_new _ Hnone)|].
  split; [exact H0|]. split; [exact Hle|]. split; [exact Htop|].
  intros Hsmall. pose proof two_53_lt_ten_21 as H21.
  split; [apply addOne_exact; lia|].
  split; [rewrite addOne_exact by lia; apply String_of_decimal; lia|].
  intros r n Hin Hn Hid. apply (Hle r n Hin). now apply rIdNumber_of_numeral.
Qed.

Lemma package_fixups_are_idempotent_witness :
  ensureCommentsRelationship sampleRels
  = (appendChild (commentsRelationship (js "rId4")) sampleRels, js "rId4") /\
  ensureCommentsRelationship (fst (ensureCommentsRelationship sampleRels))
  = ensureCommentsRelationship sampleRels /\
  ensureCommentsPartInContentTypes
    (ensureCommentsPartInContentTypes (Element CONTENT_TYPES_NS "" "Types" [] []))
  = ensureCommentsPartInContentTypes (Element CONTENT_TYPES_NS "" "Types" [] []).
Proof.
  destruct (package_fixups_are_idempotent
              (Element CONTENT_TYPES_NS "" "Types" [] []) sampleRels)
    as (Hct & _ & Hrel & _ & _ & Hnew).
  destruct Hnew as (maxNum & Hres & _ & _ & _ & _); [reflexivity|].
  split; [reflexivity|]. split; [exact Hrel|exact Hct].
Defined.

(** A content-types part whose elements carry a prefix has its
    [Override] for the comments part under the tag name [ct:Override];
    the lookup by the name [Override] does not see it, and the fix-up
    adds a second entry for the same part. A relationships part that
    holds [rId9007199254740993] gets a relationship named
    [rId9007199254740992]: the numeral is read as the double 2^53, and
    2^53 + 1 is 2^53 again. *)
Lemma package_fixups_miss_prefixed_and_large_entries :
  let contentTypesDoc :=
    Element CONTENT_TYPES_NS "ct" "Types" []
      [Element CONTENT_TYPES_NS "ct" "Override"
         [mkAttr "" "" "PartName" (js "/word/comments.xml");
          mkAttr "" "" "ContentType" (js COMMENTS_CONTENT_TYPE)] []] in
  let documentRelsDoc :=
    Element REL_NS "" "Relationships" []
      [Element REL_NS "" "Relationship"
         [mkAttr "" "" "Id" (js "rId9007199254740993");
          mkAttr "" "" "Type" (js "styles")] []] in
  ensureCommentsPartInContentTypes contentTypesDoc <> contentTypesDoc /\
  List.map (getAttribute "PartName")
    (docGetElementsByTagNameNS CONTENT_TYPES_NS "Override"
       (ensureCommentsPartInContentTypes contentTypesDoc))
  = [Some (js "/word/comments.xml"); Some (js "/word/comments.xml")] /\
  snd (ensureCommentsRelationship documentRelsDoc) = js "rId9007199254740992".
Proof.
  vm_compute. repeat split. discriminate.
Qed.

(** *** Whitespace in normalized strings *)

Lemma trimStart_suffix (s : jsstring) : exists p, s = p ++ trimStart s.
Proof.
  induction s as [|c s [p IH]]; simpl; [now exists []|].
  destruct (isSpace c).
  - exists (c :: p). simpl. now f_equal.
  - now exists [].
Qed.

Lemma trimStart_head (s : jsstring) : headNotSpace (trimStart s).
Proof.
  induction s as [|c s IH]; simpl; [intros a H; discriminate|].
  destruct (isSpace c) eqn:E; [exact IH|].
  intros a [= <-]. exact E.
Qed.

Lemma trimStart_id (s : jsstring) : headNotSpace s -> trimStart s = s.
Proof.
  destruct s as [|c s]; [reflexivity|]. intros H. simpl.
  now rewrite (H c eq_refl).
Qed.

Lemma headNotSpace_rev (s : jsstring) : headNotSpace (reverse s) <-> lastNotSpace s.
Proof.
  unfold headNotSpace, lastNotSpace.
  now rewrite <- head_lookup, head_reverse.
Qed.

Lemma trimEnd_prefix (s : jsstring) : exists q, s = trimEnd s ++ q.
Proof.
  unfold trimEnd. destruct (trimStart_suffix (reverse s)) as [p Hp].
  exists (reverse p). rewrite <- reverse_app, <- Hp. now rewrite reverse_involutive.
Qed.

Lemma trimStart_dropped (s : jsstring) :
  exists p, s = p ++ trimStart s /\ Forall (fun c => isSpace c = true) p.
Proof.
  induction s as [|c s (p & IH & Hp)]; simpl; [now exists []|].
  destruct (isSpace c) eqn:E.
  - exists (c :: p). simpl. split; [now f_equal|now constructor].
  - now exists [].
Qed.

Lemma trimEnd_dropped (s : jsstring) :
  exists q, s = trimEnd s ++ q /\ Forall (fun c => isSpace c = true) q.
Proof.
  unfold trimEnd. destruct (trimStart_dropped (reverse s)) as (p & Hp & Hall).
  exists (reverse p). split.
  - rewrite <- reverse_app, <- Hp. now rewrite reverse_involutive.
  - now apply Forall_reverse.
Qed.

Lemma trimEnd_last (s : jsstring) : lastNotSpace (trimEnd s).
Proof.
  unfold trimEnd. apply headNotSpace_rev. rewrite reverse_involutive.
  apply trimStart_head.
Qed.

Lemma trimEnd_id (s : jsstring) : lastNotSpace s -> trimEnd s = s.
Proof.
  intros H. unfold trimEnd. rewrite trimStart_id by now apply headNotSpace_rev.
  apply reverse_involutive.
Qed.

Lemma trimEnd_head (s : jsstring) : headNotSpace s -> headNotSpace (trimEnd s).
Proof.
  intros H a Ha. apply H.
  destruct (trimEnd_prefix s) as [q Hq]. rewrite Hq.
  now apply lookup_app_l_Some.
Qed.

Lemma trim_head (s : jsstring) : headNotSpace (trim s).
Proof. apply trimEnd_head, trimStart_head. Qed.

Lemma trim_last (s : jsstring) : lastNotSpace (trim s).
Proof. apply trimEnd_last. Qed.

Lemma trim_id (s : jsstring) : headNotSpace s -> lastNotSpace s -> trim s = s.
Proof.
  intros Hh Hl. unfold trim. rewrite (trimStart_id s Hh). now apply trimEnd_id.
Qed.

Lemma trim_trim (s : jsstring) : trim (trim s) = trim s.
Proof. apply trim_id; [apply trim_head|apply trim_last]. Qed.

Lemma noSpaceRun_app_l (s q : jsstring) : noSpaceRun (s ++ q) -> noSpaceRun s.
Proof.
  intros H i a b Ha Hb. apply (H i a b); now apply lookup_app_l_Some.
Qed.

Lemma noSpaceRun_app_r (p s : jsstring) : noSpaceRun (p ++ s) -> noSpaceRun s.
Proof.
  intros H i a b Ha Hb. apply (H (length p + i)%nat a b).
  - now rewrite lookup_app_r, Nat.add_comm, Nat.add_sub by lia.
  - replace (S (length p + i)) with (length p + S i)%nat by lia.
    now rewrite lookup_app_r, Nat.add_comm, Nat.add_sub by lia.
Qed.

Lemma noSpaceRun_trim (s : jsstring) : noSpaceRun s -> noSpaceRun (trim s).
Proof.
  intros H. unfold trim.
  destruct (trimStart_suffix s) as [p Hp]. rewrite Hp in H.
  apply noSpaceRun_app_r in H.
  destruct (trimEnd_prefix (trimStart s)) as [q Hq]. rewrite Hq in H.
  now apply noSpaceRun_app_l in H.
Qed.

Lemma noSpaceRun_take (s : jsstring) (n : nat) : noSpaceRun s -> noSpaceRun (take n s).
Proof.
  intros H. rewrite <- (take_drop n s) in H. now apply noSpaceRun_app_l in H.
Qed.

(** Appending keeps the property when the junction is not two
    whitespace units. *)
Lemma noSpaceRun_app (s t : jsstring) :
  noSpaceRun s -> noSpaceRun t ->
  (lastNotSpace s \/ headNotSpace t) ->
  noSpaceRun (s ++ t).
Proof.
  intros Hs Ht Hj i a b Ha Hb Hsp.
  destruct (decide (S i < length s)%nat) as [Hlt|Hge].
  - rewrite lookup_app_l in Ha, Hb by lia. now apply (Hs i a b).
  - destruct (decide (i < length s)%nat) as [Hlt'|Hge'].
    + assert (Hi : S i = length s) by lia.
      rewrite lookup_app_l in Ha by lia.
      rewrite lookup_app_r in Hb by lia. rewrite Hi, Nat.sub_diag in Hb.
      destruct Hj as [Hl|Hh].
      * assert (Hlast : last s = Some a).
        { rewrite last_lookup. rewrite <- Ha. f_equal. lia. }
        rewrite (Hl a Hlast) in Hsp. discriminate.
      * now apply Hh.
    + rewrite lookup_app_r in Ha, Hb by lia.
      replace (S i - length s)%nat with (S (i - length s)) in Hb by lia.
      now apply (Ht (i - length s)%nat a b).
Qed.

Lemma ink_noSpaceRun (t : jsstring) :
  Forall (fun u => isSpace u = false) t ->
  noSpaceRun t /\ headNotSpace t /\ (t <> [] -> lastNotSpace t).
Proof.
  intros H. rewrite Forall_lookup in H. repeat split.
  - intros i a b Ha Hb Hsp. now apply (H (S i)).
  - intros a Ha. now apply (H 0%nat).
  - intros _ a Ha. rewrite last_lookup in Ha. now apply (H _ _ Ha).
Qed.

Lemma lastNotSpace_app (s t : jsstring) :
  t <> [] -> lastNotSpace t -> lastNotSpace (s ++ t).
Proof.
  intros Hne Ht a Ha. apply Ht. rewrite last_app in Ha.
  destruct (last t) eqn:E; [exact Ha|].
  apply last_None in E. contradiction.
Qed.

Section Normalizer.

Variable toLowerCase : jsstring -> jsstring.
Hypothesis toLowerCase_ink : lowerCaseKeepsInk toLowerCase.

Lemma foldQuotes_ink (c : N) : isSpace c = false -> isSpace (foldQuotes c) = false.
Proof.
  intros H. unfold foldQuotes.
  repeat match goal with
  | |- context [if ?b then _ else _] => destruct b
  end; try reflexivity. exact H.
Qed.

Lemma normalizeLoop_noSpaceRun text i norm map (lastWasSpace : bool) :
  noSpaceRun norm ->
  (lastWasSpace = false -> lastNotSpace norm) ->
  noSpaceRun (fst (normalizeLoop toLowerCase text i norm map lastWasSpace)).
Proof.
  revert i norm map lastWasSpace.
  induction text as [|raw text IH]; intros i norm map lws Hrun Hlast; simpl; [exact Hrun|].
  destruct (isSpace raw) eqn:E.
  - destruct lws; simpl.
    + now apply IH.
    + apply IH; [|discriminate].
      apply noSpaceRun_app; [exact Hrun| |left; now apply Hlast].
      intros [|k] a b Ha Hb; discriminate.
  - destruct (toLowerCase_ink (foldQuotes raw) (foldQuotes_ink raw E)) as [Hne Hink].
    destruct (ink_noSpaceRun _ Hink) as (Hr & Hh & Hl).
    apply IH.
    + apply noSpaceRun_app; [exact Hrun|exact Hr|now right].
    + intros _. apply lastNotSpace_app; [exact Hne|now apply Hl].
Qed.

(** The normalized string has no run of whitespace and no whitespace
    at either end. *)
Lemma normalized_shape (text : jsstring) :
  let s := normalized (normalizeForFuzzyIndexing toLowerCase text) in
  noSpaceRun s /\ headNotSpace s /\ lastNotSpace s.
Proof.
  unfold normalizeForFuzzyIndexing.
  pose proof (normalizeLoop_noSpaceRun text 0 [] [] false) as H.
  destruct (normalizeLoop toLowerCase text 0 [] [] false) as [norm map]. simpl in *.
  repeat split; [|apply trim_head|apply trim_last].
  apply noSpaceRun_trim, H.
  - intros i a b Ha; discriminate.
  - intros _ a Ha; discriminate.
Qed.

End Normalizer.

Lemma trim_length_ge (t : jsstring) :
  noSpaceRun t -> headNotSpace t -> (length t - 1 <= length (trim t))%nat.
Proof.
  intros Hrun Hhead. unfold trim. rewrite (trimStart_id t Hhead). unfold trimEnd.
  rewrite length_reverse.
  destruct (reverse t) as [|z [|y r]] eqn:E.
  - apply (f_equal (@length N)) in E. rewrite length_reverse in E. simpl in *. lia.
  - apply (f_equal reverse) in E. rewrite reverse_involutive in E. subst t.
    rewrite trimStart_id; [simpl; lia|].
    intros a [= <-]. now apply (Hhead z).
  - apply (f_equal reverse) in E. rewrite reverse_involutive in E.
    rewrite !reverse_cons in E. subst t.
    rewrite !length_app, length_reverse. simpl.
    destruct (isSpace z) eqn:Ez; [|simpl; lia].
    assert (Hy : isSpace y = false).
    { destruct (isSpace y) eqn:Ey; [|reflexivity].
      rewrite <- Ez. apply (Hrun (length (reverse r)) y z).
      - rewrite <- app_assoc. now rewrite lookup_app_r, Nat.sub_diag by lia.
      - rewrite lookup_app_r by (rewrite length_app; simpl; lia).
        rewrite length_app. simpl.
        now replace (S (length (reverse r)) - (length (reverse r) + 1))%nat with 0%nat by lia.
      - exact Ey. }
    rewrite Hy. simpl. lia.
Qed.

Section StartSearch.

Variable toLowerCase : jsstring -> jsstring.
Variable partial_ratio : jsstring -> jsstring -> Z.
Hypothesis toLowerCase_ink : lowerCaseKeepsInk toLowerCase.

(** The prefix of a normalized anchor is the anchor itself when it has
    at most 80 code units, and has at least 79 otherwise. *)
Lemma anchorPrefix_normalized (anchor : jsstring) :
  let normAnchor := normalizeForFuzzySearch toLowerCase anchor in
  ((length normAnchor <= 80)%nat -> anchorPrefix normAnchor = normAnchor) /\
  ((80 < length normAnchor)%nat -> (79 <= length (anchorPrefix normAnchor))%nat).
Proof.
  intros normAnchor.
  destruct (normalized_shape toLowerCase toLowerCase_ink anchor) as (Hrun & Hhead & Hlast).
  fold (normalizeForFuzzySearch toLowerCase anchor) in Hrun, Hhead, Hlast.
  fold normAnchor in Hrun, Hhead, Hlast.
  unfold anchorPrefix, slice. rewrite drop_0, Nat.sub_0_r. split.
  - intros Hle. rewrite take_ge by lia. now apply trim_id.
  - intros Hgt.
    pose proof (trim_length_ge (take 80 normAnchor)) as H.
    rewrite length_take in H. rewrite Nat.min_l in H by lia.
    apply H; [now apply noSpaceRun_take|].
    intros a Ha. apply Hhead. rewrite lookup_take_Some in Ha. tauto.
Qed.

(** The prefix of a normalized anchor is its first 80 code units less
    the space they may end with. *)
Lemma normalized_take_trim (anchor : jsstring) :
  let normAnchor := normalizeForFuzzySearch toLowerCase anchor in
  (exists q, take 80 normAnchor = trim (take 80 normAnchor) ++ q /\
             (length q <= 1)%nat /\ Forall (fun c => isSpace c = true) q) /\
  lastNotSpace (trim (take 80 normAnchor)).
Proof.
  intros normAnchor.
  destruct (normalized_shape toLowerCase toLowerCase_ink anchor) as (Hrun & Hhead & Hlast).
  fold (normalizeForFuzzySearch toLowerCase anchor) in Hrun, Hhead, Hlast.
  fold normAnchor in Hrun, Hhead, Hlast.
  assert (Hh : headNotSpace (take 80 normAnchor)).
  { intros a Ha. apply Hhead. rewrite lookup_take_Some in Ha. tauto. }
  split; [|apply trim_last].
  pose proof (trim_length_ge (take 80 normAnchor) (noSpaceRun_take _ _ Hrun) Hh) as Hlen.
  unfold trim in Hlen |- *. rewrite (trimStart_id _ Hh) in Hlen |- *.
  destruct (trimEnd_dropped (take 80 normAnchor)) as (q & Hq & Hall).
  exists q. split; [exact Hq|]. split; [|exact Hall].
  apply (f_equal length) in Hq. rewrite length_app in Hq. lia.
Qed.

(** [startMethod] and [approxStart], by the stage of
    [findApproxMatchStartIndex] that answers. *)
Lemma locateStart_stages (paraText anchor : jsstring) :
  let np := normalizeForFuzzyIndexing toLowerCase paraText in
  let normPara := normalized np in
  let normAnchor := normalizeForFuzzySearch toLowerCase anchor in
  let direct := indexOf normPara normAnchor in
  let pfx := anchorPrefix normAnchor in
  let idx := indexOf normPara pfx in
  let scan := fuzzyWindowScan partial_ratio normPara (normToOrig np) normAnchor in
  locateStart toLowerCase partial_ratio paraText anchor =
    if negb (nonEmpty normAnchor) then (none, None)
    else if 0 <=? direct then (substring, at_index (normToOrig np) direct)
    else if (12 <=? length pfx)%nat && (0 <=? idx)
         then (prefix, at_index (normToOrig np) idx)
    else match scan with
         | Some off => (fuzzy, Some off)
         | None => (none, None)
         end.
Proof.
  intros np normPara normAnchor direct pfx idx scan.
  unfold locateStart, findApproxMatchStartIndex, includes.
  fold np normPara normAnchor direct.
  destruct (nonEmpty normAnchor) eqn:Hne; cbn [negb andb].
  - fold pfx idx scan.
    destruct (0 <=? direct) eqn:Hd; [reflexivity|].
    destruct (anchorPrefix_normalized anchor) as [Hshort Hlong].
    fold normAnchor pfx in Hshort, Hlong.
    destruct (0 <=? idx) eqn:Hi; rewrite ?andb_true_r, ?andb_false_r.
    + destruct (le_lt_dec (length normAnchor) 80) as [Hle|Hgt].
      * exfalso. unfold idx in Hi. rewrite (Hshort Hle) in Hi.
        fold direct in Hi. congruence.
      * specialize (Hlong Hgt).
        assert (Hp : nonEmpty pfx = true) by (destruct pfx; [simpl in Hlong; lia|reflexivity]).
        rewrite Hp. destruct (Nat.leb_spec 12 (length pfx)); [reflexivity|lia].
    + reflexivity.
  - destruct (fuzzyWindowScan _ _ _ _); reflexivity.
Qed.

End StartSearch.

Lemma toLowerCaseSample_ink : lowerCaseKeepsInk toLowerCaseSample.
Proof.
  intros c Hc. unfold toLowerCaseSample. simpl flat_map. rewrite app_nil_r.
  unfold toLowerCaseUnit.
  destruct ((65 <=? c) && (c <=? 90))%N eqn:E.
  - split; [discriminate|]. constructor; [|constructor].
    apply andb_prop in E as [H1 H2]. apply N.leb_le in H1. apply N.leb_le in H2.
    unfold isSpace.
    repeat match goal with
    | |- context [(?a <=? ?b)%N] => destruct (N.leb_spec a b); try lia
    | |- context [(?a =? ?b)%N] => destruct (N.eqb_spec a b); try lia
    end; reflexivity.
  - destruct (c =? 304)%N.
    + split; [discriminate|]. repeat constructor.
    + split; [discriminate|]. now constructor.
Qed.

(** What a matched record leaves in the report: the start method and
    offset of [locateStart], and the anchor index probed from the
    candidate of that offset, 0 standing in for a missing one. *)
Lemma mergeStep_located
    (toLowerCase : jsstring -> jsstring) (partial_ratio : jsstring -> jsstring -> Z)
    (paragraphTexts : list jsstring) (nowIso : jsstring)
    (st : MergeState) (i : nat) (item : MergeCommentItem) :
  let anchor := default [] (anchor_text item) in
  let best := findBestParagraphMatch partial_ratio (paragraphs st) paragraphTexts anchor in
  let st' := mergeStep toLowerCase partial_ratio paragraphTexts nowIso st i item in
  0 <= bestIndex best ->
  exists d paragraph,
    detailsSoFar st' = detailsSoFar st ++ [d] /\
    mergedSoFar st' = S (mergedSoFar st) /\
    at_index (paragraphs st) (bestIndex best) = Some paragraph /\
    (startMethod d, approxStart d)
    = locateStart toLowerCase partial_ratio
        (default [] (at_index paragraphTexts (bestIndex best))) anchor /\
    anchorNodeIndex d
    = probeUnused (default ∅ (usedAnchorIndicesByParagraph st !! bestIndex best))
        (findBestAnchorCandidateIndexForOffset paragraph (default 0%nat (approxStart d))) /\
    paragraphs st'
    = <[Z.to_nat (bestIndex best) :=
          insertCommentAnchorIntoParagraph paragraph (nextCommentId st) (anchorNodeIndex d)]>
        (paragraphs st).
Proof.
  intros anchor best st' H. unfold st', mergeStep. fold anchor best.
  destruct (bestIndex best <? 0) eqn:E; [apply Z.ltb_lt in E; lia|].
  destruct (findBestParagraphMatch_range partial_ratio (paragraphs st) paragraphTexts anchor)
    as [Hr|Hr]; fold best in Hr; [|lia].
  destruct (at_index_in_range (paragraphs st) (bestIndex best)) as [p Hp]; [lia|].
  rewrite Hp.
  destruct (locateStart _ _ _ _) as [sm ap].
  eexists. exists p. cbn. repeat split.
Qed.

(** C4. For a merged record the three searches of the start position
    answer in order: the normalized anchor as a substring of the
    normalized paragraph; else the prefix of the anchor, taken only when
    it has at least 12 code units; else the fuzzy window scan. The
    prefix is the first 80 code units of the normalized anchor less the
    one space they may end with. The first search that answers gives
    [startMethod], and the offset comes from its position through the
    index map. [startMethod] is "none" with a null offset exactly when
    none of the three answers; the anchor node is then the one of offset
    0, and the record is counted as merged like any other. *)
Theorem anchor_start_search_order
    (toLowerCase : jsstring -> jsstring) (partial_ratio : jsstring -> jsstring -> Z)
    (paragraphTexts : list jsstring) (nowIso : jsstring)
    (st : MergeState) (i : nat) (item : MergeCommentItem) :
  lowerCaseKeepsInk toLowerCase ->
  let anchor := default [] (anchor_text item) in
  let best := findBestParagraphMatch partial_ratio (paragraphs st) paragraphTexts anchor in
  let st' := mergeStep toLowerCase partial_ratio paragraphTexts nowIso st i item in
  let np := normalizeForFuzzyIndexing toLowerCase
              (default [] (at_index paragraphTexts (bestIndex best))) in
  let normPara := normalized np in
  let normAnchor := normalizeForFuzzySearch toLowerCase anchor in
  let pfx := trim (take 80 normAnchor) in
  let found1 := nonEmpty normAnchor && (0 <=? indexOf normPara normAnchor) in
  let found2 := nonEmpty normAnchor && (12 <=? length pfx)%nat
                && (0 <=? indexOf normPara pfx) in
  let found3 := if nonEmpty normAnchor
                then fuzzyWindowScan partial_ratio normPara (normToOrig np) normAnchor
                else None in
  0 <= bestIndex best ->
  (exists q, take 80 normAnchor = pfx ++ q /\ (length q <= 1)%nat /\
             Forall (fun c => isSpace c = true) q) /\
  lastNotSpace pfx /\
  exists d paragraph,
    detailsSoFar st' = detailsSoFar st ++ [d] /\
    mergedSoFar st' = S (mergedSoFar st) /\
    at_index (paragraphs st) (bestIndex best) = Some paragraph /\
    anchorNodeIndex d
    = probeUnused (default ∅ (usedAnchorIndicesByParagraph st !! bestIndex best))
        (findBestAnchorCandidateIndexForOffset paragraph (default 0%nat (approxStart d))) /\
    (found1 = true ->
       startMethod d = substring /\
       approxStart d = at_index (normToOrig np) (indexOf normPara normAnchor)) /\
    (found1 = false -> found2 = true ->
       startMethod d = prefix /\
       approxStart d = at_index (normToOrig np) (indexOf normPara pfx)) /\
    (found1 = false -> found2 = false -> forall off, found3 = Some off ->
       startMethod d = fuzzy /\ approxStart d = Some off) /\
    (found1 = false -> found2 = false -> found3 = None ->
       startMethod d = none /\ approxStart d = None) /\
    ((startMethod d = none /\ approxStart d = None) <->
     (found1 = false /\ found2 = false /\ found3 = None)) /\
    (startMethod d = none -> default 0%nat (approxStart d) = 0%nat).
Proof.
  intros Hink anchor best st' np normPara normAnchor pfx found1 found2 found3 Hbest.
  destruct (normalized_take_trim toLowerCase partial_ratio Hink anchor) as (Hq & Hlast).
  fold normAnchor pfx in Hq, Hlast.
  split; [exact Hq|]. split; [exact Hlast|].
  destruct (mergeStep_located toLowerCase partial_ratio paragraphTexts nowIso st i item Hbest)
    as (d & paragraph & Hd & Hm & Hp & Hloc & Hidx & _).
  fold anchor best in Hd, Hm, Hp, Hloc, Hidx. fold st' in Hd, Hm.
  exists d, paragraph.
  split; [exact Hd|]. split; [exact Hm|]. split; [exact Hp|]. split; [exact Hidx|].
  rewrite (locateStart_stages toLowerCase partial_ratio Hink) in Hloc.
  fold np normPara normAnchor in Hloc.
  change (anchorPrefix normAnchor) with pfx in Hloc.
  unfold found1, found2, found3.
  assert (Hcases :
    forall sm ap, (startMethod d, approxStart d) = (sm, ap) ->
      startMethod d = sm /\ approxStart d = ap) by (intros sm ap [= -> ->]; now split).
  destruct (nonEmpty normAnchor); cbn [negb andb] in *;
    [destruct (0 <=? indexOf normPara normAnchor);
       [|destruct ((12 <=? length pfx)%nat && (0 <=? indexOf normPara pfx));
           [|destruct (fuzzyWindowScan partial_ratio normPara (normToOrig np) normAnchor)]]|];
    apply Hcases in Hloc as [Hsm Hap]; rewrite Hsm, Hap;
    repeat split; intros;
    repeat match goal with H : _ /\ _ |- _ => destruct H end;
    try discriminate; try congruence; reflexivity.
Qed.

(** *** The fuzzy window scan *)

Lemma scanPositions_lookup (len k : nat) :
  (k <= Nat.max 0 (len - 1) / 5)%nat -> scanPositions len !! k = Some (5 * k)%nat.
Proof.
  intros Hk. unfold scanPositions.
  rewrite list_lookup_fmap, lookup_seq_lt by lia. reflexivity.
Qed.

Lemma scanPositions_elem (len pos : nat) :
  pos ∈ scanPositions len <->
  (pos mod 5 = 0)%nat /\ (pos <= Nat.max 0 (len - 1))%nat.
Proof.
  unfold scanPositions. rewrite list_elem_of_fmap.
  pose proof (Nat.Div0.mul_div_le (Nat.max 0 (len - 1)) 5) as Hdiv.
  split.
  - intros (k & -> & Hk). apply elem_of_seq in Hk. split.
    + rewrite Nat.mul_comm. apply Nat.Div0.mod_mul.
    + set (d := (Nat.max 0 (len - 1) / 5)%nat) in *. lia.
  - intros [Hmod Hle]. exists (pos / 5)%nat.
    pose proof (Nat.div_mod_eq pos 5) as Hpos.
    pose proof (Nat.Div0.div_le_mono pos (Nat.max 0 (len - 1)) 5 Hle) as Hmono.
    split.
    + set (e := (pos / 5)%nat) in *. lia.
    + apply elem_of_seq.
      set (d := (Nat.max 0 (len - 1) / 5)%nat) in *.
      set (e := (pos / 5)%nat) in *. lia.
Qed.

(** In the list of scan positions, what comes before a position is
    what is less than it. *)
Lemma scanPositions_before (len : nat) (before after : list nat) (pos q : nat) :
  scanPositions len = before ++ pos :: after ->
  q ∈ scanPositions len -> (q < pos)%nat -> q ∈ before.
Proof.
  intros Hsplit Hq Hlt.
  assert (Hall : forall k p, scanPositions len !! k = Some p -> p = (5 * k)%nat).
  { intros k p Hk. unfold scanPositions in Hk.
    rewrite list_lookup_fmap in Hk.
    destruct (seq 0 (S (Nat.max 0 (len - 1) / 5)) !! k) as [j|] eqn:E; [|discriminate].
    apply lookup_seq in E as [-> _]. simpl in Hk. now injection Hk as <-. }
  apply list_elem_of_lookup in Hq as [k Hk].
  pose proof (Hall k q Hk) as ->.
  assert (Hpos : pos = (5 * length before)%nat).
  { apply (Hall (length before)). rewrite Hsplit.
    now rewrite lookup_app_r, Nat.sub_diag by lia. }
  rewrite Hsplit in Hk. rewrite lookup_app_l in Hk by lia.
  apply list_elem_of_lookup. now exists k.
Qed.

Section Scan.

Variable partial_ratio : jsstring -> jsstring -> Z.
Variables (normPara scanNeedle : jsstring) (windowLen : nat).

Local Abbreviation windowScore pos :=
  (partial_ratio scanNeedle (slice normPara pos (pos + windowLen))).

(** The scan over positions whose windows are not empty, from a best
    score under 98: the positions it examined, the first of them with
    the best score, and why it stopped. *)
Lemma scanLoop_spec (positions : list nat) (bestScore0 bestPos0 : Z) :
  (forall p, p ∈ positions -> nonEmpty (slice normPara p (p + windowLen)) = true) ->
  bestScore0 < 98 ->
  exists examined rest,
    let r := scanLoop partial_ratio normPara scanNeedle windowLen positions
               bestScore0 bestPos0 in
    positions = examined ++ rest /\
    bestScore0 <= fst r /\
    (forall q, q ∈ examined -> windowScore q <= fst r) /\
    ((fst r = bestScore0 /\ snd r = bestPos0 /\ rest = []) \/
     (exists before pos after,
        examined = before ++ pos :: after /\
        snd r = Z.of_nat pos /\ fst r = windowScore pos /\ bestScore0 < fst r /\
        (forall q, q ∈ before -> windowScore q < fst r /\ windowScore q < 98) /\
        ((98 <= fst r /\ after = []) \/ (fst r < 98 /\ rest = [])))).
Proof.
  revert bestScore0 bestPos0.
  induction positions as [|p ps IH]; intros bs bp Hwin Hbs.
  - exists [], []. simpl. repeat split; try lia.
    + intros q Hq. inversion Hq.
    + left. repeat split.
  - assert (Hps : forall q, q ∈ ps -> nonEmpty (slice normPara q (q + windowLen)) = true)
      by (intros q Hq; apply Hwin; now apply elem_of_cons; right).
    simpl scanLoop. rewrite (Hwin p) by (apply elem_of_cons; now left).
    cbn [negb].
    destruct (Z.ltb_spec bs (windowScore p)) as [Hlt|Hge].
    + destruct (Z.leb_spec 98 (windowScore p)) as [H98|H98].
      * exists [p], ps. simpl. repeat split; try lia.
        -- intros q Hq. apply list_elem_of_singleton in Hq. subst q. lia.
        -- right. exists [], p, []. repeat split; try lia.
           ++ inversion H.
           ++ inversion H.
           ++ left. now split.
      * destruct (IH (windowScore p) (Z.of_nat p) Hps H98)
          as (examined & rest & Hsplit & Hle & Hall & Hcase).
        exists (p :: examined), rest. cbn zeta in *.
        split; [simpl; now f_equal|]. split; [lia|]. split.
        -- intros q Hq. apply elem_of_cons in Hq as [->|Hq]; [lia|now apply Hall].
        -- right. destruct Hcase as [(Hf & Hs & Hr)|(before & pos & after & He & Hs & Hf & Hgt & Hb & Hstop)].
           ++ exists [], p, examined. repeat split; try assumption; try lia.
              ** inversion H.
              ** inversion H.
              ** right. split; [lia|exact Hr].
           ++ exists (p :: before), pos, after.
              split; [simpl; now f_equal|]. repeat split; try assumption; try lia.
              ** apply elem_of_cons in H as [->|H]; [lia|now apply Hb].
              ** apply elem_of_cons in H as [->|H]; [lia|now apply Hb].
    + destruct (IH bs bp Hps Hbs)
        as (examined & rest & Hsplit & Hle & Hall & Hcase).
      exists (p :: examined), rest. cbn zeta in *.
      split; [simpl; now f_equal|]. split; [lia|]. split.
      * intros q Hq. apply elem_of_cons in Hq as [->|Hq]; [lia|now apply Hall].
      * destruct Hcase as [(Hf & Hs & Hr)|(before & pos & after & He & Hs & Hf & Hgt & Hb & Hstop)].
        -- left. now repeat split.
        -- right. exists (p :: before), pos, after.
           split; [simpl; now f_equal|]. repeat split; try assumption; try lia.
           ++ apply elem_of_cons in H as [->|H]; [lia|now apply Hb].
           ++ apply elem_of_cons in H as [->|H]; [lia|now apply Hb].
Qed.

End Scan.

Lemma windowLenOf_scanNeedle (normAnchor : jsstring) :
  let scanNeedle := scanNeedleOf normAnchor in
  scanNeedle = take 220 normAnchor /\
  length scanNeedle = Nat.min 220 (length normAnchor) /\
  windowLenOf scanNeedle = clamp (length scanNeedle) 80 260 /\
  windowLenOf scanNeedle = Nat.max 80 (length scanNeedle) /\
  (80 <= windowLenOf scanNeedle <= 220)%nat.
Proof.
  unfold scanNeedleOf, windowLenOf, clamp, slice.
  rewrite drop_0, Nat.sub_0_r.
  destruct (Nat.ltb_spec 220 (length normAnchor)) as [H|H].
  - rewrite length_take. repeat split; lia.
  - rewrite take_ge by lia. repeat split; lia.
Qed.

Lemma window_nonEmpty (normPara : jsstring) (windowLen pos : nat) :
  (0 < windowLen)%nat -> (pos < length normPara)%nat ->
  nonEmpty (slice normPara pos (pos + windowLen)) = true.
Proof.
  intros Hw Hpos. unfold slice.
  replace (pos + windowLen - pos)%nat with windowLen by lia.
  destruct (drop pos normPara) as [|c rest] eqn:E.
  - apply (f_equal (@length N)) in E. rewrite length_drop in E. simpl in E. lia.
  - destruct windowLen; [lia|reflexivity].
Qed.

(** C7, as the code has it. The scan needle is the normalized anchor cut
    to its first 220 code units. The window is as long as the needle,
    and at least 80: this is [clamp] of the length of the needle, not of
    the anchor, so it never exceeds 220. The window starts at the
    multiples of 5 up to the last code unit of the normalized paragraph.
    The result is the first window start with the best score: every
    earlier window scored less, and under 98; and either that score is
    98 or more, where the scan stopped, or no window scored more. The
    stage answers only for a best score of 60 or more. *)
Theorem fuzzy_window_scan_spec
    (partial_ratio : jsstring -> jsstring -> Z)
    (normPara : jsstring) (normToOrig : list nat) (normAnchor : jsstring) :
  let scanNeedle := scanNeedleOf normAnchor in
  let windowLen := windowLenOf scanNeedle in
  let positions := scanPositions (length normPara) in
  let windowScore pos :=
    partial_ratio scanNeedle (slice normPara pos (pos + windowLen)) in
  let best := scanLoop partial_ratio normPara scanNeedle windowLen positions 0 (-1) in
  scanNeedle = take 220 normAnchor /\
  windowLen = clamp (length scanNeedle) 80 260 /\
  (80 <= windowLen <= 220)%nat /\
  (forall pos, pos ∈ positions <->
     (pos mod 5 = 0)%nat /\ (pos <= Nat.max 0 (length normPara - 1))%nat) /\
  (normPara = [] -> best = (0, -1)) /\
  (normPara <> [] ->
     (best = (0, -1) /\ forall q, q ∈ positions -> windowScore q <= 0) \/
     (exists pos, pos ∈ positions /\
        best = (windowScore pos, Z.of_nat pos) /\ 0 < windowScore pos /\
        (forall q, q ∈ positions -> (q < pos)%nat ->
           windowScore q < windowScore pos /\ windowScore q < 98) /\
        (98 <= windowScore pos \/
         forall q, q ∈ positions -> windowScore q <= windowScore pos))) /\
  fuzzyWindowScan partial_ratio normPara normToOrig normAnchor
  = (if (0 <=? snd best) && (60 <=? fst best)
     then at_index normToOrig (snd best) else None).
Proof.
  intros scanNeedle windowLen positions windowScore best.
  destruct (windowLenOf_scanNeedle normAnchor) as (Hneedle & _ & Hclamp & _ & Hrange).
  fold scanNeedle in Hneedle, Hclamp, Hrange. fold windowLen in Hclamp, Hrange.
  split; [exact Hneedle|]. split; [exact Hclamp|]. split; [exact Hrange|].
  split; [intros pos; apply scanPositions_elem|].
  split; [|split].
  - intros ->. unfold best, positions. simpl. unfold slice.
    rewrite drop_nil, take_nil. reflexivity.
  - intros Hne.
    assert (Hlen : (0 < length normPara)%nat)
      by (destruct normPara; [congruence|simpl; lia]).
    destruct (scanLoop_spec partial_ratio normPara scanNeedle windowLen positions 0 (-1))
      as (examined & rest & Hsplit & Hle & Hall & Hcase); [|lia|].
    { intros p Hp. apply scanPositions_elem in Hp as [_ Hp].
      apply window_nonEmpty; lia. }
    fold best in Hsplit, Hle, Hall, Hcase. cbn zeta in *.
    destruct Hcase as [(Hf & Hs & Hr)|(before & pos & after & He & Hs & Hf & Hgt & Hb & Hstop)].
    + left. split; [now apply injective_projections|].
      intros q Hq. rewrite <- Hf. apply Hall.
      rewrite Hsplit, Hr, app_nil_r in Hq. exact Hq.
    + right. exists pos.
      assert (Hpos : pos ∈ positions).
      { rewrite Hsplit, He. apply elem_of_app. left.
        apply elem_of_app. right. apply elem_of_cons. now left. }
      split; [exact Hpos|]. split; [now apply injective_projections|].
      split; [unfold windowScore; rewrite <- Hf; lia|]. split.
      * intros q Hq Hlt. unfold windowScore. rewrite <- Hf. apply Hb.
        apply (scanPositions_before (length normPara) before (after ++ rest) pos q);
          [|exact Hq|exact Hlt].
        fold positions. rewrite Hsplit, He, <- app_assoc. reflexivity.
      * destruct Hstop as [[H98 _]|[_ Hr]].
        -- left. unfold windowScore. rewrite <- Hf. exact H98.
        -- right. intros q Hq. unfold windowScore. rewrite <- Hf. apply Hall.
           rewrite Hsplit, Hr, app_nil_r in Hq. exact Hq.
  - unfold fuzzyWindowScan. fold scanNeedle windowLen positions best.
    destruct best as [bs bp]. reflexivity.
Qed.

Lemma fuzzy_window_scan_spec_witness :
  let normPara := js "hello world" in
  let best := scanLoop partialRatioSample normPara (js "world")
                (windowLenOf (js "world")) (scanPositions (length normPara)) 0 (-1) in
  best = (100, 0).
Proof.
  intros normPara best.
  destruct (fuzzy_window_scan_spec partialRatioSample normPara (seq 0 11) (js "world"))
    as (_ & _ & _ & _ & _ & Hscan & _).
  destruct Hscan as [[Hnone _]|(pos & _ & Hbest & _)]; [discriminate| |].
  - vm_compute in Hnone. discriminate.
  - reflexivity.
Defined.

(** C7, as it is stated, does not hold: for an anchor of 250 normalized
    code units the window has 220 code units, not
    [clamp 250 80 260 = 250]. *)
Lemma window_length_follows_needle_not_anchor :
  let normAnchor := normalizeForFuzzySearch toLowerCaseSample (repeat 97%N 250) in
  length normAnchor = 250%nat /\
  windowLenOf (scanNeedleOf normAnchor) = 220%nat /\
  clamp (length normAnchor) 80 260 = 250%nat /\
  windowLenOf (scanNeedleOf normAnchor) <> clamp (length normAnchor) 80 260.
Proof.
  vm_compute. repeat split. discriminate.
Qed.

(** *** The index map of the normalizer *)

Lemma normalizeLoop_map_sorted toLowerCase text i norm map (lastWasSpace : bool) :
  (forall a, a ∈ map -> (a < i)%nat) ->
  StronglySorted lt map ->
  let m := snd (normalizeLoop toLowerCase text i norm map lastWasSpace) in
  StronglySorted lt m /\ (forall a, a ∈ m -> (a < i + length text)%nat).
Proof.
  revert i norm map lastWasSpace.
  induction text as [|raw text IH]; intros i norm map lws Hlt Hsorted; simpl.
  - split; [exact Hsorted|]. intros a Ha. specialize (Hlt a Ha). lia.
  - assert (Hpush : (forall a, a ∈ map ++ [i] -> (a < S i)%nat) /\
                    StronglySorted lt (map ++ [i])).
    { split.
      - intros a Ha. apply elem_of_app in Ha as [Ha|Ha].
        + specialize (Hlt a Ha). lia.
        + apply list_elem_of_singleton in Ha. lia.
      - assert (Hone : StronglySorted lt [i]) by repeat constructor.
        assert (Hcross : forall x1 x2, x1 ∈ map -> x2 ∈ [i] -> (x1 < x2)%nat).
        { intros x1 x2 H1 H2. apply list_elem_of_singleton in H2. subst x2.
          now apply Hlt. }
        exact (StronglySorted_app_2 lt map [i] Hcross Hsorted Hone). }
    assert (Hskip : forall a, a ∈ map -> (a < S i)%nat)
      by (intros a Ha; specialize (Hlt a Ha); lia).
    replace (i + S (length text))%nat with (S i + length text)%nat by lia.
    destruct (isSpace raw); [destruct lws; simpl|]; apply IH; tauto.
Qed.

(** The entries of the index map are offsets into the text and grow
    strictly. *)
Lemma normToOrig_strictly_increasing toLowerCase (text : jsstring) :
  let m := normToOrig (normalizeForFuzzyIndexing toLowerCase text) in
  StronglySorted lt m /\ (forall a, a ∈ m -> (a < length text)%nat).
Proof.
  unfold normalizeForFuzzyIndexing.
  pose proof (normalizeLoop_map_sorted toLowerCase text 0 [] [] false) as H.
  destruct (normalizeLoop toLowerCase text 0 [] [] false) as [norm map]. simpl in *.
  apply H; [intros a Ha; inversion Ha|constructor].
Qed.

Lemma normalizeLoop_map_extends toLowerCase text i norm map (lastWasSpace : bool) :
  exists ext, snd (normalizeLoop toLowerCase text i norm map lastWasSpace) = map ++ ext.
Proof.
  revert i norm map lastWasSpace.
  induction text as [|raw text IH]; intros i norm map lws; simpl.
  - exists []. now rewrite app_nil_r.
  - destruct (isSpace raw); [destruct lws; simpl|].
    + apply IH.
    + destruct (IH (S i) (norm ++ [32%N]) (map ++ [i]) true) as [ext ->].
      exists (i :: ext). now rewrite <- app_assoc.
    + destruct (IH (S i) (norm ++ toLowerCase [foldQuotes raw]) (map ++ [i]) false)
        as [ext ->].
      exists (i :: ext). now rewrite <- app_assoc.
Qed.

(** Whatever the text, when it begins with whitespace the first entry
    of the index map is offset 0, the offset of that whitespace; the
    first code unit of the normalized string is not whitespace, so it
    was produced further on. *)
Lemma normToOrig_keeps_leading_space toLowerCase (c : N) (rest : jsstring) :
  isSpace c = true ->
  let r := normalizeForFuzzyIndexing toLowerCase (c :: rest) in
  normToOrig r !! 0%nat = Some 0%nat /\ headNotSpace (normalized r).
Proof.
  intros Hc. unfold normalizeForFuzzyIndexing. simpl normalizeLoop. rewrite Hc.
  cbn [negb app].
  destruct (normalizeLoop_map_extends toLowerCase rest 1 [32%N] [0%nat] true)
    as [ext Hext].
  destruct (normalizeLoop toLowerCase rest 1 [32%N] [0%nat] true)
    as [norm map].
  simpl in *. subst map. split; [reflexivity|apply trim_head].
Qed.

(** C3, on the code. [normalizeForFuzzyIndexing] trims the normalized
    string and returns the index map as the loop built it: the entry of
    a leading or trailing space stays. For the text " a" the normalized
    string is "a" and the map is [0; 1]: two entries for one code unit,
    and the entry at index 0 is the offset of the space, while the "a"
    that produced the code unit at index 0 stands at offset 1. The start
    offset computed for an anchor in a paragraph that begins with a
    space is one short for the same reason. *)
Theorem normalizeForFuzzyIndexing_keeps_trimmed_entries :
  let text := js " a" in
  let r := normalizeForFuzzyIndexing toLowerCaseSample text in
  normalized r = js "a" /\
  normToOrig r = [0; 1]%nat /\
  length (normToOrig r) <> length (normalized r) /\
  normalized r !! 0%nat = Some 97%N /\
  normToOrig r !! 0%nat = Some 0%nat /\
  text !! 0%nat = Some 32%N /\ text !! 1%nat = Some 97%N /\
  findApproxMatchStartIndex toLowerCaseSample partialRatioSample
    (js " the fox") (js "fox") = Some 4%nat /\
  indexOf (js " the fox") (js "fox") = 5.
Proof. vm_compute. repeat split. discriminate. Qed.

Lemma anchor_start_search_order_witness :
  let run text anchor :=
    mergeStep toLowerCaseSample partialRatioSample [text] (js "now")
      (initialState [sampleParagraphOf text] sampleComments) 0
      (mkItem (Some anchor) (Some (js "first")) (Some (js "Kate")) None) in
  let a80 := replicate 80 97%N in
  let a230 := replicate 230 97%N in
  let start text anchor :=
    findApproxMatchStartIndex toLowerCaseSample partialRatioSample text anchor in
  start (js "Hello  World") (js "World") = Some 7%nat /\
  start (js "b" ++ a80) (a80 ++ js "b" ++ a80) = Some 1%nat /\
  start (js "world") (js "hello world!") = Some 0%nat /\
  start (js "zzz") (a230 ++ js " zzz") = None /\
  (exists d, detailsSoFar (run (js "Hello  World") (js "World")) = [d] /\
             startMethod d = substring /\ approxStart d = Some 7%nat) /\
  (exists d, detailsSoFar (run (js "b" ++ a80) (a80 ++ js "b" ++ a80)) = [d] /\
             startMethod d = prefix /\ approxStart d = Some 1%nat) /\
  (exists d, detailsSoFar (run (js "world") (js "hello world!")) = [d] /\
             startMethod d = fuzzy /\ approxStart d = Some 0%nat) /\
  (exists d, detailsSoFar (run (js "zzz") (a230 ++ js " zzz")) = [d] /\
             mergedSoFar (run (js "zzz") (a230 ++ js " zzz")) = 1%nat /\
             startMethod d = none /\ approxStart d = None /\ anchorNodeIndex d = 0%nat).
Proof.
  intros run a80 a230 start.
  assert (H : forall text anchor,
    0 <= bestIndex (findBestParagraphMatch partialRatioSample
                     [sampleParagraphOf text] [text] anchor) ->
    _) by
    (intros text anchor;
     exact (anchor_start_search_order toLowerCaseSample partialRatioSample
              [text] (js "now") (initialState [sampleParagraphOf text] sampleComments) 0
              (mkItem (Some anchor) (Some (js "first")) (Some (js "Kate")) None)
              toLowerCaseSample_ink)).
  do 4 (split; [vm_compute; reflexivity|]).
  repeat split.
  - destruct (H (js "Hello  World") (js "World")) as (_ & _ & d & p & Hd & _ & _ & _ & H1 & _);
      [vm_compute; discriminate|].
    exists d. split; [exact Hd|]. apply H1. vm_compute. reflexivity.
  - destruct (H (js "b" ++ a80) (a80 ++ js "b" ++ a80))
      as (_ & _ & d & p & Hd & _ & _ & _ & _ & H2 & _);
      [vm_compute; discriminate|].
    exists d. split; [exact Hd|]. apply H2; vm_compute; reflexivity.
  - destruct (H (js "world") (js "hello world!"))
      as (_ & _ & d & p & Hd & _ & _ & _ & _ & _ & H3 & _);
      [vm_compute; discriminate|].
    exists d. split; [exact Hd|]. apply H3; vm_compute; reflexivity.
  - destruct (H (js "zzz") (a230 ++ js " zzz"))
      as (_ & _ & d & p & Hd & Hm & Hp & Hi & _ & _ & _ & H4 & _);
      [vm_compute; discriminate|].
    exists d. split; [exact Hd|]. split; [exact Hm|].
    destruct H4 as [Hs Ha]; try (vm_compute; reflexivity).
    split; [exact Hs|]. split; [exact Ha|].
    rewrite Hi, Ha. vm_compute in Hp. injection Hp as <-. vm_compute. reflexivity.
Defined.

(** *** When the index map has an entry for every match *)

Lemma startsWith_length (needle hay : jsstring) :
  startsWith needle hay = true -> (length needle <= length hay)%nat.
Proof.
  revert hay. induction needle as [|n needle IH]; intros [|h hay] H; simpl in *;
    try lia; try discriminate.
  apply andb_prop in H as [_ H]. specialize (IH hay H). lia.
Qed.

Lemma indexOf_from_range (hay needle : jsstring) (i : nat) :
  indexOf_from hay needle i = -1 \/
  (Z.of_nat i <= indexOf_from hay needle i /\
   indexOf_from hay needle i - Z.of_nat i + Z.of_nat (length needle)
   <= Z.of_nat (length hay)).
Proof.
  revert i. induction hay as [|h hay IH]; intros i; simpl.
  - destruct (startsWith needle []) eqn:E; [|now left].
    right. apply startsWith_length in E. simpl in E. lia.
  - destruct (startsWith needle (h :: hay)) eqn:E.
    + right. apply startsWith_length in E. simpl in E. lia.
    + destruct (IH (S i)) as [->|[H1 H2]]; [now left|right; lia].
Qed.

Lemma indexOf_lt (hay needle : jsstring) :
  needle <> [] -> 0 <= indexOf hay needle ->
  0 <= indexOf hay needle < Z.of_nat (length hay).
Proof.
  intros Hne H0. unfold indexOf in *.
  destruct (indexOf_from_range hay needle 0) as [E|[H1 H2]]; [lia|].
  destruct needle; [congruence|]. simpl in H2. lia.
Qed.

Lemma trim_length_le (s : jsstring) : (length (trim s) <= length s)%nat.
Proof.
  unfold trim.
  destruct (trimStart_suffix s) as [p Hp].
  destruct (trimEnd_prefix (trimStart s)) as [q Hq].
  rewrite Hp at 2. rewrite Hq at 2. rewrite !length_app. lia.
Qed.

Section UnitLowerCase.

Variable toLowerCase : jsstring -> jsstring.
Variable partial_ratio : jsstring -> jsstring -> Z.

Lemma normalizeLoop_lengths text i norm map (lastWasSpace : bool) :
  Forall (unitKept toLowerCase) text ->
  length norm = length map ->
  length (fst (normalizeLoop toLowerCase text i norm map lastWasSpace))
  = length (snd (normalizeLoop toLowerCase text i norm map lastWasSpace)).
Proof.
  intros Hunit. revert i norm map lastWasSpace.
  induction text as [|raw text IH]; intros i norm map lws H; simpl; [exact H|].
  apply Forall_cons in Hunit as [Hu Hunit]. specialize (IH Hunit).
  unfold unitKept, normalizedUnit in Hu.
  destruct (isSpace raw); [destruct lws; simpl|]; apply IH;
    rewrite ?length_app, ?Hu; simpl; lia.
Qed.

(** For a text whose code units each give one normalized code unit,
    the index map has an entry for every code unit of the normalized
    string. *)
Lemma normToOrig_covers (text : jsstring) :
  Forall (unitKept toLowerCase) text ->
  let r := normalizeForFuzzyIndexing toLowerCase text in
  (length (normalized r) <= length (normToOrig r))%nat.
Proof.
  intros Hunit. unfold normalizeForFuzzyIndexing.
  pose proof (normalizeLoop_lengths text 0 [] [] false Hunit eq_refl) as H.
  destruct (normalizeLoop toLowerCase text 0 [] [] false) as [norm map]. simpl in *.
  pose proof (trim_length_le norm). lia.
Qed.

Lemma at_index_found (text needle : jsstring) :
  Forall (unitKept toLowerCase) text ->
  let r := normalizeForFuzzyIndexing toLowerCase text in
  needle <> [] -> 0 <= indexOf (normalized r) needle ->
  exists off, at_index (normToOrig r) (indexOf (normalized r) needle) = Some off.
Proof.
  intros Hunit r Hne H0.
  pose proof (indexOf_lt (normalized r) needle Hne H0) as Hlt.
  pose proof (normToOrig_covers text Hunit) as Hcov. cbv zeta in Hcov.
  apply at_index_in_range. subst r. lia.
Qed.

(** Then the offset is null for the start method "none" and for no
    other. *)
Lemma locateStart_null_iff_none (paraText anchor : jsstring) :
  lowerCaseKeepsInk toLowerCase ->
  Forall (unitKept toLowerCase) paraText ->
  let r := locateStart toLowerCase partial_ratio paraText anchor in
  snd r = None <-> fst r = none.
Proof.
  intros Hink Hunit. cbv zeta.
  rewrite (locateStart_stages toLowerCase partial_ratio Hink).
  set (np := normalizeForFuzzyIndexing toLowerCase paraText).
  set (normAnchor := normalizeForFuzzySearch toLowerCase anchor).
  destruct (nonEmpty normAnchor) eqn:Hne; cbn [negb]; [|now split].
  assert (HneA : normAnchor <> []) by (destruct normAnchor; [discriminate|congruence]).
  destruct (Z.leb_spec 0 (indexOf (normalized np) normAnchor)) as [Hd|Hd].
  - destruct (at_index_found paraText normAnchor Hunit HneA Hd) as [off Hoff].
    fold np in Hoff. rewrite Hoff. simpl. split; discriminate.
  - destruct (Nat.leb_spec 12 (length (anchorPrefix normAnchor))) as [H12|H12];
      cbn [andb].
    + destruct (Z.leb_spec 0 (indexOf (normalized np) (anchorPrefix normAnchor))) as [Hi|Hi].
      * assert (HneP : anchorPrefix normAnchor <> [])
          by (destruct (anchorPrefix normAnchor); [simpl in H12; lia|congruence]).
        destruct (at_index_found paraText _ Hunit HneP Hi) as [off Hoff].
        fold np in Hoff. rewrite Hoff. simpl. split; discriminate.
      * destruct (fuzzyWindowScan _ _ _ _); simpl; split; congruence.
    + destruct (fuzzyWindowScan _ _ _ _); simpl; split; congruence.
Qed.

End UnitLowerCase.

(** U+0130 has a lower case of two code units: the normalized string
    outgrows the index map, and a substring found beyond the map has no
    offset. *)
Example locateStart_beyond_index_map :
  normalizeForFuzzyIndexing toLowerCaseSample [0x130; 0x130; 97]%N
  = {| normalized := [0x69; 0x307; 0x69; 0x307; 97]%N; normToOrig := [0; 1; 2]%nat |} /\
  locateStart toLowerCaseSample partialRatioSample [0x130; 0x130; 97]%N (js "a")
  = (substring, None).
Proof. split; reflexivity. Qed.

(* ================================================================== *)
(** ** Further properties of the merge engine *)
(* ================================================================== *)

(** *** The best paragraph *)

Section BestParagraph.

Variable partial_ratio : jsstring -> jsstring -> Z.
Variable paragraphTexts : list jsstring.
Variable cleanAnchor : jsstring.

Local Abbreviation scoreAt i := (partial_ratio cleanAnchor (default [] (paragraphTexts !! i))).
Local Abbreviation inked i := (nonEmpty (trim (default [] (paragraphTexts !! i)))).

(** The best match after the paragraphs before [k]. *)
Lemma bestMatch_fold_first_maximum (k : nat) :
  let r := fold_left (bestMatchStep partial_ratio paragraphTexts cleanAnchor) (seq 0 k)
             {| bestIndex := -1; bestScore := 0; bestMethod := "partial_ratio" |} in
  bestMethod r = "partial_ratio"%string /\
  ((bestIndex r = -1 /\ bestScore r = 0 /\
    forall j, (j < k)%nat -> inked j = true -> scoreAt j <= 0) \/
   (exists i, (i < k)%nat /\ bestIndex r = Z.of_nat i /\ inked i = true /\
      bestScore r = scoreAt i /\ 0 < scoreAt i /\
      (forall j, (j < k)%nat -> inked j = true -> scoreAt j <= scoreAt i) /\
      (forall j, (j < i)%nat -> inked j = true -> scoreAt j < scoreAt i))).
Proof.
  induction k as [|k IH].
  - simpl. split; [reflexivity|]. left. repeat split. intros j Hj. lia.
  - rewrite seq_S, fold_left_app. simpl.
    set (r := fold_left _ (seq 0 k) _) in *. cbv zeta in IH.
    destruct IH as [Hm IH]. unfold bestMatchStep, scoreMatch.
    destruct (inked k) eqn:Hink; cbn [negb].
    + destruct (Z.ltb_spec (bestScore r) (scoreAt k)) as [Hlt|Hge]; cbn.
      * split; [reflexivity|]. right. exists k.
        split; [lia|]. split; [reflexivity|]. split; [exact Hink|].
        split; [reflexivity|].
        destruct IH as [(Hi & Hs & Hall)|(i & Hik & Hi & Hinki & Hs & Hpos & Hall & Hfirst)].
        -- split; [lia|]. split.
           ++ intros j Hj Hinkj. destruct (decide (j = k)) as [->|Hne]; [lia|].
              specialize (Hall j ltac:(lia) Hinkj). lia.
           ++ intros j Hj Hinkj. specialize (Hall j Hj Hinkj). lia.
        -- split; [lia|]. split.
           ++ intros j Hj Hinkj. destruct (decide (j = k)) as [->|Hne]; [lia|].
              specialize (Hall j ltac:(lia) Hinkj). lia.
           ++ intros j Hj Hinkj. specialize (Hall j Hj Hinkj). lia.
      * split; [exact Hm|].
        destruct IH as [(Hi & Hs & Hall)|(i & Hik & Hi & Hinki & Hs & Hpos & Hall & Hfirst)].
        -- left. repeat split; try assumption.
           intros j Hj Hinkj. destruct (decide (j = k)) as [->|Hne]; [lia|].
           apply Hall; [lia|exact Hinkj].
        -- right. exists i. repeat split; try assumption; try lia.
           intros j Hj Hinkj. destruct (decide (j = k)) as [->|Hne]; [lia|].
           apply Hall; [lia|exact Hinkj].
    + split; [exact Hm|].
      destruct IH as [(Hi & Hs & Hall)|(i & Hik & Hi & Hinki & Hs & Hpos & Hall & Hfirst)].
      * left. repeat split; try assumption.
        intros j Hj Hinkj. destruct (decide (j = k)) as [->|Hne]; [congruence|].
        apply Hall; [lia|exact Hinkj].
      * right. exists i. repeat split; try assumption; try lia.
        intros j Hj Hinkj. destruct (decide (j = k)) as [->|Hne]; [congruence|].
        apply Hall; [lia|exact Hinkj].
Qed.

End BestParagraph.

(** X1. For an anchor that is not blank, [findBestParagraphMatch]
    answers the first paragraph, among those whose text is not blank,
    that has the greatest score; it answers index -1 with score 0 when
    no such paragraph scores above 0. Blank paragraphs are never
    answered, whatever their score. *)
Theorem best_paragraph_is_first_maximum
    (partial_ratio : jsstring -> jsstring -> Z)
    (paragraphs : list Node) (paragraphTexts : list jsstring) (anchorText : jsstring) :
  nonEmpty (cleanAnchorText anchorText) = true ->
  let scoreAt i :=
    partial_ratio (cleanAnchorText anchorText) (default [] (paragraphTexts !! i)) in
  let inked i := nonEmpty (trim (default [] (paragraphTexts !! i))) in
  let r := findBestParagraphMatch partial_ratio paragraphs paragraphTexts anchorText in
  (bestIndex r = -1 /\ bestScore r = 0 /\
   forall j, (j < length paragraphs)%nat -> inked j = true -> scoreAt j <= 0) \/
  (exists i, (i < length paragraphs)%nat /\ bestIndex r = Z.of_nat i /\
     inked i = true /\ bestScore r = scoreAt i /\ 0 < scoreAt i /\
     (forall j, (j < length paragraphs)%nat -> inked j = true -> scoreAt j <= scoreAt i) /\
     (forall j, (j < i)%nat -> inked j = true -> scoreAt j < scoreAt i)).
Proof.
  intros Hne scoreAt inked r. unfold r, findBestParagraphMatch. rewrite Hne. cbn [negb].
  apply (bestMatch_fold_first_maximum partial_ratio paragraphTexts
           (cleanAnchorText anchorText) (length paragraphs)).
Qed.

Lemma best_paragraph_is_first_maximum_witness :
  bestIndex (findBestParagraphMatch partialRatioSample
               [sampleParagraph; sampleParagraph]
               [js "  "; js "Hello world"] (js "world")) = 1.
Proof.
  destruct (best_paragraph_is_first_maximum partialRatioSample
              [sampleParagraph; sampleParagraph]
              [js "  "; js "Hello world"] (js "world") eq_refl)
    as [(H & _)|(i & _ & Hi & Hink & _)].
  - vm_compute in H. discriminate.
  - destruct i as [|[|i]]; [vm_compute in Hink; discriminate|reflexivity|].
    vm_compute in Hi. discriminate.
Defined.

(** *** Text lengths *)

(** X2. [getChildTextLength] counts what [getParagraphText] writes: for
    every node, the length it returns is the length of the text
    extracted from the same node. *)
Theorem getChildTextLength_is_text_length (node : Node) :
  getChildTextLength node = length (getParagraphText node).
Proof.
  unfold getChildTextLength, getParagraphText. apply fold_left_text_length.
Qed.

(** *** What an insertion leaves as it was *)

Lemma getParagraphText_children (ns pre loc : string) (attrs : list Attr) (kids : list Node) :
  getParagraphText (Element ns pre loc attrs kids)
  = flat_map (fun k => flat_map paragraphTextOf (subtreeElements k)) kids.
Proof.
  unfold getParagraphText, descendantElements. simpl children.
  induction kids as [|k kids IH]; simpl; [reflexivity|].
  now rewrite flat_map_app, IH.
Qed.

(** The node that ends up between the markers, and the children around
    it: either a candidate in its place, or a space run at the end. *)
Lemma insertCommentAnchorIntoParagraph_cases ns pre loc attrs kids commentId anchorIndex :
  let paragraph := Element ns pre loc attrs kids in
  let wrapped anchorNode :=
    [commentRangeStart commentId; anchorNode;
     commentRangeEnd commentId; createCommentReferenceRun commentId] in
  (exists before anchorNode after,
     (anchorIndex < length (getDirectChildAnchorCandidates paragraph))%nat /\
     kids = before ++ anchorNode :: after /\
     insertCommentAnchorIntoParagraph paragraph commentId anchorIndex
     = Element ns pre loc attrs (before ++ wrapped anchorNode ++ after)) \/
  ((length (getDirectChildAnchorCandidates paragraph) <= anchorIndex)%nat /\
   insertCommentAnchorIntoParagraph paragraph commentId anchorIndex
   = Element ns pre loc attrs (kids ++ wrapped createSpaceRun)).
Proof.
  intros paragraph wrapped.
  destruct (insertCommentAnchorIntoParagraph_children ns pre loc attrs kids commentId anchorIndex)
    as (before & a & after & Hkids & Hcase).
  fold paragraph in Hkids, Hcase.
  assert (Hshape : insertCommentAnchorIntoParagraph paragraph commentId anchorIndex
                   = Element ns pre loc attrs
                       (children (insertCommentAnchorIntoParagraph paragraph commentId anchorIndex))).
  { unfold insertCommentAnchorIntoParagraph.
    destruct (candidatePositions paragraph !! anchorIndex); reflexivity. }
  destruct Hcase as [(Hsome & -> & _)|(Hnone & -> & -> & ->)].
  - left. exists before, a, after. split; [now apply lookup_lt_Some in Hsome|].
    split; [reflexivity|]. rewrite Hshape, Hkids. reflexivity.
  - right. split; [now apply lookup_ge_None in Hnone|].
    rewrite Hshape, Hkids, app_nil_r. reflexivity.
Qed.

Lemma insertCommentAnchorIntoParagraph_text
    (ns pre loc : string) (attrs : list Attr) (kids : list Node)
    (commentId : Z) (anchorIndex : nat) :
  let paragraph := Element ns pre loc attrs kids in
  let paragraph' := insertCommentAnchorIntoParagraph paragraph commentId anchorIndex in
  ((anchorIndex < length (getDirectChildAnchorCandidates paragraph))%nat ->
   getParagraphText paragraph' = getParagraphText paragraph) /\
  ((length (getDirectChildAnchorCandidates paragraph) <= anchorIndex)%nat ->
   getParagraphText paragraph' = getParagraphText paragraph ++ js " ").
Proof.
  intros paragraph paragraph'.
  destruct (insertCommentAnchorIntoParagraph_cases ns pre loc attrs kids commentId anchorIndex)
    as [(before & a & after & Hlt & -> & Hnew)|(Hge & Hnew)];
    fold paragraph paragraph' in Hnew, Hlt || fold paragraph paragraph' in Hnew, Hge.
  - split; [intros _|intros Hge; lia].
    rewrite Hnew. unfold paragraph. rewrite !getParagraphText_children.
    rewrite !flat_map_app. simpl. rewrite app_nil_r. reflexivity.
  - split; [intros Hlt; lia|intros _].
    rewrite Hnew. unfold paragraph. rewrite !getParagraphText_children.
    rewrite !flat_map_app. simpl. reflexivity.
Qed.

(** X3. Wrapping a candidate in a comment range leaves the text of the
    paragraph as it was: the markers and the reference run write
    nothing. When there is no candidate of the given index, the text
    gains the one space of the appended run. *)
Theorem insertion_keeps_paragraph_text
    (ns pre loc : string) (attrs : list Attr) (kids : list Node)
    (commentId : Z) (anchorIndex : nat) :
  let paragraph := Element ns pre loc attrs kids in
  let paragraph' := insertCommentAnchorIntoParagraph paragraph commentId anchorIndex in
  ((anchorIndex < length (getDirectChildAnchorCandidates paragraph))%nat ->
   getParagraphText paragraph' = getParagraphText paragraph) /\
  ((length (getDirectChildAnchorCandidates paragraph) <= anchorIndex)%nat ->
   getParagraphText paragraph' = getParagraphText paragraph ++ js " ").
Proof. apply insertCommentAnchorIntoParagraph_text. Qed.

Lemma insertion_keeps_paragraph_text_witness :
  getParagraphText (insertCommentAnchorIntoParagraph sampleParagraph 8 0)
  = js "Hello world" /\
  getParagraphText (insertCommentAnchorIntoParagraph sampleParagraph 8 1)
  = js "Hello world ".
Proof.
  split.
  - apply (insertion_keeps_paragraph_text W_NS "w" "p" [] (children sampleParagraph) 8 0).
    vm_compute. lia.
  - apply (insertion_keeps_paragraph_text W_NS "w" "p" [] (children sampleParagraph) 8 1).
    vm_compute. lia.
Defined.

(** X4. An insertion leaves the candidates of the paragraph as they
    were, each at its index: the markers and the reference run are not
    candidates. A synthesized space run becomes the last candidate. *)
Theorem insertion_keeps_candidates
    (ns pre loc : string) (attrs : list Attr) (kids : list Node)
    (commentId : Z) (anchorIndex : nat) :
  let paragraph := Element ns pre loc attrs kids in
  let paragraph' := insertCommentAnchorIntoParagraph paragraph commentId anchorIndex in
  ((anchorIndex < length (getDirectChildAnchorCandidates paragraph))%nat ->
   getDirectChildAnchorCandidates paragraph' = getDirectChildAnchorCandidates paragraph) /\
  ((length (getDirectChildAnchorCandidates paragraph) <= anchorIndex)%nat ->
   getDirectChildAnchorCandidates paragraph'
   = getDirectChildAnchorCandidates paragraph ++ [createSpaceRun]).
Proof.
  intros paragraph paragraph'.
  destruct (insertCommentAnchorIntoParagraph_cases ns pre loc attrs kids commentId anchorIndex)
    as [(before & a & after & Hlt & -> & Hnew)|(Hge & Hnew)];
    fold paragraph paragraph' in Hnew, Hlt || fold paragraph paragraph' in Hnew, Hge.
  - split; [intros _|intros Hge; lia].
    rewrite Hnew. unfold paragraph, getDirectChildAnchorCandidates. simpl children.
    rewrite !List.filter_app. simpl. destruct (isAnchorCandidate a); reflexivity.
  - split; [intros Hlt; lia|intros _].
    rewrite Hnew. unfold paragraph, getDirectChildAnchorCandidates. simpl children.
    rewrite !List.filter_app. reflexivity.
Qed.

Lemma insertion_keeps_candidates_witness :
  getDirectChildAnchorCandidates (insertCommentAnchorIntoParagraph sampleParagraph 8 0)
  = getDirectChildAnchorCandidates sampleParagraph /\
  getDirectChildAnchorCandidates (insertCommentAnchorIntoParagraph sampleParagraph 8 1)
  = getDirectChildAnchorCandidates sampleParagraph ++ [createSpaceRun].
Proof.
  split.
  - apply (insertion_keeps_candidates W_NS "w" "p" [] (children sampleParagraph) 8 0).
    vm_compute. lia.
  - apply (insertion_keeps_candidates W_NS "w" "p" [] (children sampleParagraph) 8 1).
    vm_compute. lia.
Defined.

(** *** What a run leaves as it was *)

Lemma insertCommentAnchorIntoParagraph_not_element (p : Node) (commentId : Z) (a : nat) :
  isElement p = false -> insertCommentAnchorIntoParagraph p commentId a = p.
Proof. destruct p; [discriminate|reflexivity..]. Qed.

Lemma insertCommentAnchorIntoParagraph_isElement (p : Node) (commentId : Z) (a : nat) :
  isElement (insertCommentAnchorIntoParagraph p commentId a) = isElement p.
Proof.
  destruct p as [ns pre loc attrs kids|d|d]; try reflexivity.
  unfold insertCommentAnchorIntoParagraph.
  destruct (candidatePositions _ !! a); reflexivity.
Qed.

(** The text after an insertion, for any node. *)
Lemma insertCommentAnchorIntoParagraph_text_spaces (p : Node) (commentId : Z) (a : nat) :
  exists k, getParagraphText (insertCommentAnchorIntoParagraph p commentId a)
            = getParagraphText p ++ replicate k 32%N.
Proof.
  destruct p as [ns pre loc attrs kids|d|d]; try (exists 0%nat; reflexivity).
  destruct (insertCommentAnchorIntoParagraph_text ns pre loc attrs kids commentId a)
    as [Hin Hpast].
  destruct (le_lt_dec (length (getDirectChildAnchorCandidates (Element ns pre loc attrs kids))) a)
    as [Hge|Hlt].
  - exists 1%nat. now apply Hpast.
  - exists 0%nat. rewrite app_nil_r. now apply Hin.
Qed.

Lemma perm_wrap {B} (a x b c t : list B) :
  a ++ x ++ b ++ c ++ t ≡ₚ x ++ t ++ a ++ b ++ c.
Proof.
  transitivity ((x ++ b ++ c ++ t) ++ a); [apply Permutation_app_comm|].
  rewrite <- !app_assoc. apply Permutation_app_head.
  rewrite (app_assoc b c), (app_assoc t a).
  apply Permutation_app_comm.
Qed.

(** The child nodes [sel] reads after an insertion: those it read
    before, and what it reads on the inserted nodes. *)
Lemma insertCommentAnchorIntoParagraph_sel (sel : Node -> list (option jsstring))
    (p : Node) (commentId : Z) (a : nat) :
  isElement p = true ->
  flat_map sel (children (insertCommentAnchorIntoParagraph p commentId a)) ≡ₚ
  flat_map sel (children p) ++
  (sel (commentRangeStart commentId) ++ sel (commentRangeEnd commentId) ++
   sel (createCommentReferenceRun commentId)) ++
  (if (a <? length (getDirectChildAnchorCandidates p))%nat then [] else sel createSpaceRun).
Proof.
  intros Hel. destruct p as [ns pre loc attrs kids|d|d]; try discriminate.
  destruct (insertCommentAnchorIntoParagraph_cases ns pre loc attrs kids commentId a)
    as [(before & x & after & Hlt & -> & ->)|(Hge & ->)].
  - destruct (Nat.ltb_spec a (length (getDirectChildAnchorCandidates
                (Element ns pre loc attrs (before ++ x :: after))))); [|lia].
    simpl children. rewrite !flat_map_app. simpl. rewrite !app_nil_r.
    rewrite <- !app_assoc. apply Permutation_app_head. apply perm_wrap.
  - destruct (Nat.ltb_spec a (length (getDirectChildAnchorCandidates
                (Element ns pre loc attrs kids)))); [lia|].
    simpl children. rewrite !flat_map_app. simpl. rewrite !app_nil_r.
    rewrite <- !app_assoc. do 2 apply Permutation_app_head.
    transitivity ((sel (commentRangeEnd commentId) ++ sel (createCommentReferenceRun commentId))
                  ++ sel createSpaceRun); [apply Permutation_app_comm|].
    now rewrite <- app_assoc.
Qed.

Lemma flat_map_insert_perm {A B} (f : A -> list B) (l : list A) (i : nat) (x y : A)
    (e : list B) :
  l !! i = Some x -> f y ≡ₚ f x ++ e ->
  flat_map f (<[i := y]> l) ≡ₚ flat_map f l ++ e.
Proof.
  revert i. induction l as [|z l IH]; intros i Hi Hy; [discriminate|].
  destruct i as [|i]; simpl in *.
  - injection Hi as ->. rewrite Hy, <- !app_assoc. apply Permutation_app_head.
    apply Permutation_app_comm.
  - rewrite (IH i Hi Hy). now rewrite app_assoc.
Qed.

Lemma Forall2_insert_r {A B} (R : A -> B -> Prop) (l : list A) (k : list B)
    (i : nat) (y y' : B) :
  Forall2 R l k -> k !! i = Some y ->
  (forall x, l !! i = Some x -> R x y -> R x y') ->
  Forall2 R l (<[i := y']> k).
Proof.
  intros H. revert i. induction H as [|x z l k Hxz H IH]; intros i Hi Hstep; [discriminate|].
  destruct i as [|i]; simpl in *.
  - injection Hi as ->. constructor; [now apply Hstep|exact H].
  - constructor; [exact Hxz|]. now apply IH.
Qed.

Section RunFacts.

Variable toLowerCase : jsstring -> jsstring.
Variable partial_ratio : jsstring -> jsstring -> Z.
Variable paragraphs0 : list Node.
Variable nowIso : jsstring.

Local Abbreviation paragraphTexts := (List.map getParagraphText paragraphs0).
Local Abbreviation step := (mergeStep toLowerCase partial_ratio paragraphTexts nowIso).
Local Abbreviation loop := (mergeLoop toLowerCase partial_ratio paragraphTexts nowIso).
Local Abbreviation bestOf item :=
  (findBestParagraphMatch partial_ratio paragraphs0 paragraphTexts
     (default [] (anchor_text item))).
Local Abbreviation matched := (recordMatches partial_ratio paragraphs0).

(** What an iteration does to the paragraphs. *)
Lemma mergeStep_paragraphs st i item :
  length (paragraphs st) = length paragraphs0 ->
  (matched item = false /\ step st i item = st) \/
  (matched item = true /\
   exists b p a,
     bestIndex (bestOf item) = Z.of_nat b /\
     paragraphs st !! b = Some p /\
     paragraphs (step st i item)
     = <[b := insertCommentAnchorIntoParagraph p (nextCommentId st) a]> (paragraphs st) /\
     nextCommentId (step st i item) = addOne (nextCommentId st)).
Proof.
  intros Hlen.
  destruct (mergeStep_cases toLowerCase partial_ratio paragraphs0 nowIso st i item Hlen)
    as [[Hm Hst]|[Hm (d & p' & _ & _ & _ & Hn & _)]]; [left; now split|].
  right. split; [exact Hm|].
  assert (Hbest : 0 <= bestIndex (findBestParagraphMatch partial_ratio (paragraphs st)
                         paragraphTexts (default [] (anchor_text item)))).
  { rewrite (findBestParagraphMatch_length partial_ratio (paragraphs st) paragraphs0 _ _ Hlen).
    unfold recordMatches in Hm. now apply Z.leb_le in Hm. }
  destruct (mergeStep_located toLowerCase partial_ratio paragraphTexts nowIso st i item Hbest)
    as (d' & p & _ & _ & Hp & _ & _ & Hps).
  rewrite (findBestParagraphMatch_length partial_ratio (paragraphs st) paragraphs0 _ _ Hlen)
    in Hbest, Hp, Hps.
  exists (Z.to_nat (bestIndex (bestOf item))), p, (anchorNodeIndex d').
  split; [lia|]. split; [|split; [exact Hps|exact Hn]].
  unfold at_index in Hp. destruct (bestIndex (bestOf item) <? 0); [discriminate|exact Hp].
Qed.

(** A relation between a paragraph as it was read and as it is, that
    insertions keep, holds after the loop. *)
Lemma mergeLoop_related (R : Node -> Node -> Prop) :
  (forall p0 p commentId a, R p0 p -> R p0 (insertCommentAnchorIntoParagraph p commentId a)) ->
  forall items i st,
    Forall2 R paragraphs0 (paragraphs st) ->
    Forall2 R paragraphs0 (paragraphs (loop items i st)).
Proof.
  intros Hstep items. induction items as [|item items IH]; intros i st HR; [exact HR|].
  simpl. apply IH.
  assert (Hlen : length (paragraphs st) = length paragraphs0)
    by (symmetry; now apply Forall2_length in HR).
  destruct (mergeStep_paragraphs st i item Hlen)
    as [[_ ->]|[_ (b & p & a & _ & Hp & -> & _)]]; [exact HR|].
  apply (Forall2_insert_r R _ _ b p); [exact HR|exact Hp|].
  intros x _ Hx. now apply Hstep.
Qed.

(** A paragraph that no record matches is, after the loop, as it was. *)
Lemma mergeLoop_unmatched items i st (j : nat) :
  length (paragraphs st) = length paragraphs0 ->
  (forall item, item ∈ items -> bestIndex (bestOf item) <> Z.of_nat j) ->
  paragraphs (loop items i st) !! j = paragraphs st !! j.
Proof.
  revert i st. induction items as [|item items IH]; intros i st Hlen Hno; [reflexivity|].
  simpl. rewrite IH.
  - destruct (mergeStep_paragraphs st i item Hlen)
      as [[_ ->]|[_ (b & p & a & Hb & _ & -> & _)]]; [reflexivity|].
    apply list_lookup_insert_ne. intros ->.
    apply (Hno item); [apply elem_of_cons; now left|exact Hb].
  - now apply mergeStep_length.
  - intros it Hit. apply Hno. apply elem_of_cons. now right.
Qed.

(** The identifiers [sel] reads on the child nodes of the paragraphs
    after the loop, for a [sel] that reads the identifier once on the
    three inserted nodes and nothing on a space run. *)
Lemma mergeLoop_idsOfChildren (sel : Node -> list (option jsstring)) :
  (forall commentId,
     sel (commentRangeStart commentId) ++ sel (commentRangeEnd commentId) ++
     sel (createCommentReferenceRun commentId) = [Some (String_of commentId)]) ->
  sel createSpaceRun = [] ->
  forall items i st,
    length (paragraphs st) = length paragraphs0 ->
    Forall (fun p => isElement p = true) (paragraphs st) ->
    idsOfChildren sel (paragraphs (loop items i st)) ≡ₚ
    idsOfChildren sel (paragraphs st) ++
    List.map (fun z => Some (String_of z))
      (idsFrom (nextCommentId st)
         (length (mergedFrom partial_ratio paragraphs0 i items))).
Proof.
  intros Hsel Hspace items.
  induction items as [|item items IH]; intros i st Hlen Hel; simpl.
  - unfold mergedFrom. simpl. now rewrite app_nil_r.
  - unfold mergedFrom in *. simpl.
    destruct (mergeStep_paragraphs st i item Hlen)
      as [[Hm Hst]|[Hm (b & p & a & _ & Hp & Hps & Hn)]]; rewrite Hm.
    + rewrite Hst. now apply IH.
    + rewrite IH; [|now apply mergeStep_length|].
      * rewrite Hps, Hn. cbn [length].
        assert (Hpel : isElement p = true)
          by (rewrite Forall_lookup in Hel; exact (Hel b p Hp)).
        unfold idsOfChildren.
        rewrite (flat_map_insert_perm _ _ b p _ [Some (String_of (nextCommentId st))] Hp).
        -- rewrite <- app_assoc. apply Permutation_app_head.
           rewrite idsFrom_cons. reflexivity.
        -- rewrite (insertCommentAnchorIntoParagraph_sel sel p _ a Hpel).
           rewrite Hsel, Hspace. destruct (_ <? _)%nat; now rewrite app_nil_r.
      * rewrite Hps. apply Forall_insert; [exact Hel|].
        rewrite insertCommentAnchorIntoParagraph_isElement.
        rewrite Forall_lookup in Hel. exact (Hel b p Hp).
Qed.

End RunFacts.

(** X5. A run never rewrites text. For a document without nested
    paragraphs, after the record loop every paragraph extracts to the
    text it had when it was read, followed by as many spaces as space
    runs were appended to it; and the paragraphs are as many as
    before. *)
Theorem run_keeps_paragraph_texts
    (toLowerCase : jsstring -> jsstring) (partial_ratio : jsstring -> jsstring -> Z)
    (paragraphs0 : list Node) (commentsDoc0 : Node)
    (items : list MergeCommentItem) (nowIso : jsstring) :
  Forall noParagraphInside paragraphs0 ->
  let st := mergeRecords toLowerCase partial_ratio paragraphs0 commentsDoc0 items nowIso in
  length (paragraphs st) = length paragraphs0 /\
  forall j p0, paragraphs0 !! j = Some p0 ->
    exists p' k, paragraphs st !! j = Some p' /\
      getParagraphText p' = getParagraphText p0 ++ replicate k 32%N.
Proof.
  intros _ st.
  assert (HR : Forall2 (fun p0 p => exists k, getParagraphText p
                          = getParagraphText p0 ++ replicate k 32%N)
                 paragraphs0 (paragraphs st)).
  { apply mergeLoop_related.
    - intros p0 p commentId a [k Hk].
      destruct (insertCommentAnchorIntoParagraph_text_spaces p commentId a) as [k' Hk'].
      exists (k + k')%nat. now rewrite Hk', Hk, replicate_add, app_assoc.
    - simpl. apply Forall2_same_length_lookup. split; [reflexivity|].
      intros i x y Hx Hy. rewrite Hx in Hy. injection Hy as <-.
      exists 0%nat. simpl. now rewrite app_nil_r. }
  split; [symmetry; now apply Forall2_length in HR|].
  intros j p0 Hj.
  destruct (Forall2_lookup_l _ _ _ _ _ HR Hj) as (p' & Hp' & k & Hk).
  now exists p', k.
Qed.

Lemma run_keeps_paragraph_texts_witness :
  let st := mergeRecords toLowerCaseSample partialRatioSample
              [sampleParagraph] sampleComments sampleItems (js "now") in
  exists p' k, paragraphs st !! 0%nat = Some p' /\
    getParagraphText p' = js "Hello world" ++ replicate k 32%N.
Proof.
  intros st.
  destruct (run_keeps_paragraph_texts toLowerCaseSample partialRatioSample
              [sampleParagraph] sampleComments sampleItems (js "now")) as [_ H].
  - repeat constructor.
  - apply (H 0%nat sampleParagraph). reflexivity.
Defined.

(** X6. In a document without nested paragraphs, a paragraph that is
    the best match of no record comes out of the run as it went in. *)
Theorem run_leaves_unmatched_paragraphs
    (toLowerCase : jsstring -> jsstring) (partial_ratio : jsstring -> jsstring -> Z)
    (paragraphs0 : list Node) (commentsDoc0 : Node)
    (items : list MergeCommentItem) (nowIso : jsstring) (j : nat) :
  Forall noParagraphInside paragraphs0 ->
  (forall item, item ∈ items ->
     bestIndex (findBestParagraphMatch partial_ratio paragraphs0
                  (List.map getParagraphText paragraphs0)
                  (default [] (anchor_text item))) <> Z.of_nat j) ->
  paragraphs (mergeRecords toLowerCase partial_ratio paragraphs0 commentsDoc0 items nowIso)
    !! j
  = paragraphs0 !! j.
Proof.
  intros _ Hno. unfold mergeRecords.
  now rewrite (mergeLoop_unmatched toLowerCase partial_ratio paragraphs0 nowIso items 0
                 (initialState paragraphs0 commentsDoc0) j eq_refl Hno).
Qed.

Lemma run_leaves_unmatched_paragraphs_witness :
  paragraphs (mergeRecords toLowerCaseSample partialRatioSample
                [sampleParagraph; sampleParagraph] sampleComments sampleItems (js "now"))
    !! 1%nat
  = Some sampleParagraph.
Proof.
  apply (run_leaves_unmatched_paragraphs toLowerCaseSample partialRatioSample
           [sampleParagraph; sampleParagraph] sampleComments sampleItems (js "now") 1).
  - repeat constructor.
  - intros item Hitem. unfold sampleItems in Hitem.
    repeat (apply elem_of_cons in Hitem as [->|Hitem]; [vm_compute; discriminate|]).
    inversion Hitem.
Defined.

(** X7. The two trees agree after a run. For a document without nested
    paragraphs, whose paragraphs are elements, and a comments part whose
    root is an element, as long as the last identifier given out stays
    below 2^53: the run adds to the document, for each identifier it
    gives out and for no other, one [commentRangeStart], one
    [commentRangeEnd] and one [commentReference] carrying it, and to the
    comments part one [w:comment] carrying it; what was there before
    stays. *)
Theorem run_keeps_markers_and_comments_paired
    (toLowerCase : jsstring -> jsstring) (partial_ratio : jsstring -> jsstring -> Z)
    (paragraphs0 : list Node) (commentsDoc0 : Node)
    (items : list MergeCommentItem) (nowIso : jsstring) :
  Forall noParagraphInside paragraphs0 ->
  Forall (fun p => isElement p = true) paragraphs0 ->
  isElement commentsDoc0 = true ->
  let st := mergeRecords toLowerCase partial_ratio paragraphs0 commentsDoc0 items nowIso in
  getMaxCommentId commentsDoc0 + Z.of_nat (mergedSoFar st) < 2 ^ 53 ->
  let newIds := seqZ (getMaxCommentId commentsDoc0 + 1) (Z.of_nat (mergedSoFar st)) in
  let written := List.map (fun z => Some (decimalOf z)) newIds in
  idsOfChildren rangeStartId (paragraphs st) ≡ₚ idsOfChildren rangeStartId paragraphs0 ++ written /\
  idsOfChildren rangeEndId (paragraphs st) ≡ₚ idsOfChildren rangeEndId paragraphs0 ++ written /\
  idsOfChildren referenceIds (paragraphs st) ≡ₚ idsOfChildren referenceIds paragraphs0 ++ written /\
  commentIds (commentsDoc st) ≡ₚ commentIds commentsDoc0 ++ List.map Finite newIds.
Proof.
  intros _ Hel Hdoc st Hbound newIds written.
  destruct (mergeLoop_report toLowerCase partial_ratio paragraphs0 nowIso items 0
              (initialState paragraphs0 commentsDoc0) eq_refl) as (_ & Hm & _ & _).
  simpl in Hm.
  assert (Hcount : mergedSoFar st = length (mergedFrom partial_ratio paragraphs0 0 items))
    by exact Hm.
  rewrite Hcount in Hbound.
  destruct (initial_ids_exact commentsDoc0 _ Hbound) as (Hids & _ & Hsmall).
  assert (Hwritten : written
                     = List.map (fun z => Some (String_of z))
                         (idsFrom (addOne (getMaxCommentId commentsDoc0))
                            (length (mergedFrom partial_ratio paragraphs0 0 items)))).
  { unfold written, newIds. rewrite Hcount, Hids. apply List.map_ext_in. intros z Hz.
    rewrite Forall_forall in Hsmall.
    specialize (Hsmall z (proj2 (list_elem_of_In _ _) Hz)).
    pose proof two_53_lt_ten_21. now rewrite String_of_decimal by lia. }
  rewrite Hwritten.
  repeat split.
  - apply (mergeLoop_idsOfChildren toLowerCase partial_ratio paragraphs0 nowIso rangeStartId);
      [reflexivity|reflexivity|reflexivity|exact Hel].
  - apply (mergeLoop_idsOfChildren toLowerCase partial_ratio paragraphs0 nowIso rangeEndId);
      [reflexivity|reflexivity|reflexivity|exact Hel].
  - apply (mergeLoop_idsOfChildren toLowerCase partial_ratio paragraphs0 nowIso referenceIds);
      [reflexivity|reflexivity|reflexivity|exact Hel].
  - unfold newIds. rewrite Hcount, <- (ids_read_back _ Hsmall), <- Hids.
    apply (mergeLoop_commentIds toLowerCase partial_ratio paragraphs0 nowIso items 0
             (initialState paragraphs0 commentsDoc0) eq_refl Hdoc).
Qed.

Lemma run_keeps_markers_and_comments_paired_witness :
  let st := mergeRecords toLowerCaseSample partialRatioSample
              [sampleParagraph] sampleComments sampleItems (js "now") in
  idsOfChildren rangeStartId (paragraphs st) ≡ₚ [Some (js "8"); Some (js "9")] /\
  idsOfChildren referenceIds (paragraphs st) ≡ₚ [Some (js "8"); Some (js "9")].
Proof.
  intros st.
  destruct (run_keeps_markers_and_comments_paired toLowerCaseSample partialRatioSample
              [sampleParagraph] sampleComments sampleItems (js "now"))
    as (Hs & _ & Hr & _).
  - repeat constructor.
  - repeat constructor.
  - reflexivity.
  - reflexivity.
  - split; [exact Hs|exact Hr].
Defined.

(** *** The entries of the report *)

(** A matched record has a score above 0, under the one method name. *)
Lemma findBestParagraphMatch_matched
    (partial_ratio : jsstring -> jsstring -> Z)
    (paragraphs : list Node) (paragraphTexts : list jsstring) (anchorText : jsstring) :
  let r := findBestParagraphMatch partial_ratio paragraphs paragraphTexts anchorText in
  0 <= bestIndex r ->
  nonEmpty (cleanAnchorText anchorText) = true /\
  bestMethod r = "partial_ratio"%string /\
  0 < bestScore r /\
  bestScore r = partial_ratio (cleanAnchorText anchorText)
                  (default [] (at_index paragraphTexts (bestIndex r))) /\
  nonEmpty (trim (default [] (at_index paragraphTexts (bestIndex r)))) = true.
Proof.
  intros r Hr. unfold r, findBestParagraphMatch in *.
  destruct (nonEmpty (cleanAnchorText anchorText)) eqn:Hne; cbn [negb] in *;
    [|simpl in Hr; lia].
  split; [reflexivity|].
  destruct (bestMatch_fold_first_maximum partial_ratio paragraphTexts
              (cleanAnchorText anchorText) (length paragraphs)) as [Hm H].
  split; [exact Hm|].
  destruct H as [(Hi & _)|(i & _ & Hi & Hink & Hs & Hpos & _)]; [lia|].
  rewrite Hi. unfold at_index.
  destruct (Z.ltb_spec (Z.of_nat i) 0) as [?|_]; [lia|].
  rewrite Nat2Z.id. repeat split; [lia|exact Hs|exact Hink].
Qed.

Lemma slice_length_le (s : jsstring) (b : nat) : (length (slice s 0 b) <= b)%nat.
Proof. unfold slice. rewrite length_take. lia. Qed.

Lemma slice_nonEmpty (s : jsstring) (b : nat) :
  nonEmpty s = true -> (0 < b)%nat -> (0 < length (slice s 0 b))%nat.
Proof.
  unfold slice, nonEmpty. destruct s as [|c s]; [discriminate|].
  intros _ Hb. rewrite drop_0, length_take. simpl. lia.
Qed.

(** The matched records come with increasing indices from [i] on. *)
Lemma mergedFrom_indices (partial_ratio : jsstring -> jsstring -> Z)
    (paragraphs0 : list Node) (items : list MergeCommentItem) (i : nat) :
  let merged := mergedFrom partial_ratio paragraphs0 i items in
  StronglySorted lt (List.map fst merged) /\
  Forall (fun k => (i <= k < i + length items)%nat) (List.map fst merged) /\
  (length merged <= length items)%nat.
Proof.
  revert i. induction items as [|item items IH]; intros i; unfold mergedFrom; simpl.
  - repeat split; constructor.
  - destruct (IH (S i)) as (Hs & Hr & Hl). unfold mergedFrom in *.
    assert (Hr' : Forall (fun k => (i <= k < i + S (length items))%nat)
                    (List.map fst (List.filter
                       (fun p => recordMatches partial_ratio paragraphs0 p.2)
                       (combine (seq (S i) (length items)) items)))).
    { eapply Forall_impl; [exact Hr|]. simpl. intros k Hk. lia. }
    destruct (recordMatches partial_ratio paragraphs0 item); simpl.
    + repeat split; [|constructor; [lia|exact Hr']|lia].
      constructor; [exact Hs|].
      eapply Forall_impl; [exact Hr|]. simpl. intros k Hk. lia.
    + repeat split; [exact Hs|exact Hr'|lia].
Qed.

Section ReportFacts.

Variable toLowerCase : jsstring -> jsstring.
Variable partial_ratio : jsstring -> jsstring -> Z.
Variable paragraphs0 : list Node.
Variable nowIso : jsstring.

Local Abbreviation paragraphTexts := (List.map getParagraphText paragraphs0).
Local Abbreviation step := (mergeStep toLowerCase partial_ratio paragraphTexts nowIso).
Local Abbreviation loop := (mergeLoop toLowerCase partial_ratio paragraphTexts nowIso).
Local Abbreviation bestOf item :=
  (findBestParagraphMatch partial_ratio paragraphs0 paragraphTexts
     (default [] (anchor_text item))).

Local Abbreviation entryOf := (detailEntryOf toLowerCase partial_ratio paragraphs0).

(** The entry an iteration adds. *)
Lemma mergeStep_entry st i item :
  length (paragraphs st) = length paragraphs0 ->
  step st i item = st \/
  exists d, detailsSoFar (step st i item) = detailsSoFar st ++ [d] /\
            index d = i /\ entryOf d item.
Proof.
  intros Hlen. unfold mergeStep, detailEntryOf.
  rewrite (findBestParagraphMatch_length partial_ratio (paragraphs st) paragraphs0 _ _ Hlen).
  destruct (bestIndex (bestOf item) <? 0) eqn:E; [now left|].
  apply Z.ltb_ge in E.
  destruct (at_index (paragraphs st) (bestIndex (bestOf item))) as [p|]; [|now left].
  right.
  destruct (locateStart _ _ _ _) as [sm ap] eqn:Hloc.
  eexists. cbn. repeat split; try reflexivity. exact E.
Qed.

(** Every entry after the loop is one the loop had or the entry of the
    record at its index. *)
Lemma mergeLoop_entries items i st :
  length (paragraphs st) = length paragraphs0 ->
  forall d, d ∈ detailsSoFar (loop items i st) ->
    d ∈ detailsSoFar st \/
    exists item, items !! (index d - i)%nat = Some item /\ (i <= index d)%nat /\
                 entryOf d item.
Proof.
  revert i st. induction items as [|item items IH]; intros i st Hlen d Hd; [now left|].
  simpl in Hd.
  assert (Hlen' : length (paragraphs (step st i item)) = length paragraphs0)
    by now apply mergeStep_length.
  destruct (IH (S i) _ Hlen' d Hd) as [Hin|(it & Hit & Hle & He)].
  - destruct (mergeStep_entry st i item Hlen) as [Hst|(d' & Hds & Hi & He)].
    + rewrite Hst in Hin. now left.
    + rewrite Hds in Hin. apply elem_of_app in Hin as [Hin|Hin]; [now left|].
      apply list_elem_of_singleton in Hin as ->.
      right. exists item. rewrite Hi, Nat.sub_diag. split; [reflexivity|split; [lia|exact He]].
  - right. exists it. replace (index d - i)%nat with (S (index d - S i)) by lia.
    split; [exact Hit|split; [lia|exact He]].
Qed.

End ReportFacts.

(** X8. Every entry of the report is the entry of a matched record: its
    score is above 0 and is the score of the record's cleaned anchor
    against the text its paragraph had when the document was read, its
    method is [partial_ratio], its anchor preview has between 1 and 80
    units and its target preview at most 80. The entries' indices grow
    strictly and stay below [totalCount], and [mergedCount] is at most
    [totalCount]. *)
Theorem report_entries_are_well_formed
    (toLowerCase : jsstring -> jsstring) (partial_ratio : jsstring -> jsstring -> Z)
    (paragraphs0 : list Node) (commentsDoc0 : Node)
    (items : list MergeCommentItem) (nowIso : jsstring) :
  let r := mergeReport toLowerCase partial_ratio paragraphs0 commentsDoc0 items nowIso in
  (mergedCount r <= totalCount r)%nat /\
  StronglySorted lt (List.map index (details r)) /\
  forall d, d ∈ details r ->
    (index d < totalCount r)%nat /\
    0 < score d /\
    method d = "partial_ratio"%string /\
    (0 < length (anchorPreview d) <= 80)%nat /\
    (length (targetPreview d) <= 80)%nat /\
    exists item, items !! index d = Some item /\
      score d = partial_ratio (cleanAnchorText (default [] (anchor_text item)))
                  (default []
                     (at_index (List.map getParagraphText paragraphs0)
                        (bestIndex (findBestParagraphMatch partial_ratio paragraphs0
                                      (List.map getParagraphText paragraphs0)
                                      (default [] (anchor_text item)))))).
Proof.
  intros r.
  destruct (mergeLoop_report toLowerCase partial_ratio paragraphs0 nowIso items 0
              (initialState paragraphs0 commentsDoc0) eq_refl) as (Hd & Hm & _ & _).
  simpl in Hd, Hm.
  destruct (mergedFrom_indices partial_ratio paragraphs0 items 0) as (Hs & Hr & Hl).
  assert (Hidx : List.map index (details r)
                 = List.map fst (mergedFrom partial_ratio paragraphs0 0 items)) by exact Hd.
  assert (Hcount : mergedCount r = length (mergedFrom partial_ratio paragraphs0 0 items))
    by exact Hm.
  split; [rewrite Hcount; exact Hl|].
  split; [rewrite Hidx; exact Hs|].
  intros d Hin.
  assert (Hlt : (index d < length items)%nat).
  { assert (Hmem : index d ∈ List.map index (details r))
      by (apply list_elem_of_fmap; now exists d).
    rewrite Hidx in Hmem. rewrite Forall_forall in Hr. specialize (Hr _ Hmem). lia. }
  split; [exact Hlt|].
  destruct (mergeLoop_entries toLowerCase partial_ratio paragraphs0 nowIso items 0%nat
              (initialState paragraphs0 commentsDoc0) eq_refl d Hin)
    as [Hin0|(item & Hit & _ & Hb & Hsc & Hme & Hap & Htp & _)];
    [simpl in Hin0; inversion Hin0|].
  rewrite Nat.sub_0_r in Hit.
  destruct (findBestParagraphMatch_matched partial_ratio paragraphs0
              (List.map getParagraphText paragraphs0) (default [] (anchor_text item)) Hb)
    as (Hne & Hmeth & Hpos & Hval & _).
  split; [rewrite Hsc; exact Hpos|].
  split; [rewrite Hme; exact Hmeth|].
  split; [rewrite Hap; split; [apply slice_nonEmpty; [exact Hne|lia]|apply slice_length_le]|].
  split; [rewrite Htp; apply slice_length_le|].
  exists item. split; [exact Hit|]. rewrite Hsc. exact Hval.
Qed.

(** *** The start offset *)

Lemma at_index_elem {A} (l : list A) (i : Z) (x : A) :
  at_index l i = Some x -> x ∈ l.
Proof.
  unfold at_index. destruct (i <? 0); [discriminate|].
  apply list_elem_of_lookup_2.
Qed.

(** Every offset [findApproxMatchStartIndex] answers is an entry of the
    index map of the paragraph text. *)
Lemma findApproxMatchStartIndex_elem
    (toLowerCase : jsstring -> jsstring) (partial_ratio : jsstring -> jsstring -> Z)
    (paragraphText anchorText : jsstring) (off : nat) :
  findApproxMatchStartIndex toLowerCase partial_ratio paragraphText anchorText = Some off ->
  off ∈ normToOrig (normalizeForFuzzyIndexing toLowerCase paragraphText).
Proof.
  unfold findApproxMatchStartIndex, fuzzyWindowScan.
  destruct (negb _); [discriminate|].
  destruct (0 <=? indexOf _ _); [apply at_index_elem|].
  destruct (_ && _); [apply at_index_elem|].
  destruct (scanLoop _ _ _ _ _ _ _) as [bs bp].
  destruct (_ && _); [apply at_index_elem|discriminate].
Qed.

(** X9. An offset answered by [findApproxMatchStartIndex] is the index of
    a code unit of the paragraph text, whichever of the three searches
    found it; and an anchor that normalizes to the empty string has no
    offset. *)
Theorem approx_start_is_inside_paragraph
    (toLowerCase : jsstring -> jsstring) (partial_ratio : jsstring -> jsstring -> Z)
    (paragraphText anchorText : jsstring) :
  (forall off,
     findApproxMatchStartIndex toLowerCase partial_ratio paragraphText anchorText = Some off ->
     (off < length paragraphText)%nat) /\
  (normalizeForFuzzySearch toLowerCase anchorText = [] ->
   findApproxMatchStartIndex toLowerCase partial_ratio paragraphText anchorText = None).
Proof.
  split.
  - intros off H. apply findApproxMatchStartIndex_elem in H.
    now apply (normToOrig_strictly_increasing toLowerCase paragraphText).
  - intros H. unfold findApproxMatchStartIndex. now rewrite H.
Qed.

Lemma approx_start_is_inside_paragraph_witness :
  findApproxMatchStartIndex toLowerCaseSample partialRatioSample
    (js "Hello world") (js "World") = Some 6%nat /\ (6 < 11)%nat.
Proof.
  split; [reflexivity|].
  apply (proj1 (approx_start_is_inside_paragraph toLowerCaseSample partialRatioSample
                  (js "Hello world") (js "World")) 6%nat).
  reflexivity.
Defined.

(** *** The probe for an unused anchor index *)

(** X10. The probe [while (used.has(anchorIdx)) anchorIdx++] stops, and
    stops on the least index at or after the one it starts from that is
    not in the set; it moves by at most the size of the set. *)
Theorem probe_stops_on_least_unused_index (used : gset nat) (idx : nat) :
  let r := probeUnused used idx in
  (r ∉ used) /\ (idx <= r <= idx + size used)%nat /\
  (forall j, (idx <= j)%nat -> j ∉ used -> (r <= j)%nat).
Proof.
  intros r.
  destruct (probeUnused_spec used idx) as (Hout & Hle & Hbelow). fold r in Hout, Hle, Hbelow.
  destruct (probeFrom_spec (size used) used idx) as ((_ & Hup) & _ & _).
  split; [exact Hout|]. split; [split; [exact Hle|exact Hup]|].
  intros j Hj Hfree. destruct (Nat.le_gt_cases r j) as [H|H]; [exact H|].
  exfalso. apply Hfree, Hbelow. lia.
Qed.

(** *** The manifests after the fix-ups *)

Lemma docGetElementsByTagName_root (q : string) (root : Node) :
  isElement root = true ->
  docGetElementsByTagName q root
  = (if hasTagName q root then [root] else []) ++
    List.filter (hasTagName q) (descendantElements root).
Proof.
  destruct root as [ns pre loc attrs kids|d|d]; try discriminate. intros _.
  unfold docGetElementsByTagName, descendantElements.
  cbn [subtreeElements List.filter children].
  now destruct (hasTagName q (Element ns pre loc attrs kids)).
Qed.

Lemma getAttribute_attrsOf (q : string) (a b : Node) :
  attrsOf a = attrsOf b -> getAttribute q a = getAttribute q b.
Proof. unfold getAttribute. now intros ->. Qed.

(** What [sel] reads on the elements named [q] after a leaf named [q] is
    appended to the root, for a [sel] that reads attributes only. *)
Lemma docGetElementsByTagName_appendChild_map {B} (q : string) (c root : Node)
    (sel : Node -> B) :
  (forall a b, attrsOf a = attrsOf b -> sel a = sel b) ->
  isElement root = true -> children c = [] -> isElement c = true ->
  hasTagName q c = true ->
  List.map sel (docGetElementsByTagName q (appendChild c root))
  = List.map sel (docGetElementsByTagName q root) ++ [sel c].
Proof.
  intros Hsel Hroot Hleaf Hc Hq.
  destruct (docGetElementsByTagName_appendChild q c root Hroot Hleaf Hc)
    as (root' & _ & Hattrs & Htag & ->).
  rewrite (docGetElementsByTagName_root q root Hroot), Hq.
  rewrite !List.map_app, <- app_assoc. f_equal.
  destruct (hasTagName q root); [|reflexivity].
  cbn. f_equal. now apply Hsel.
Qed.

Lemma existsb_map {A B} (f : A -> B) (p : B -> bool) (l : list A) :
  existsb p (List.map f l) = existsb (fun x => p (f x)) l.
Proof. induction l as [|x l IH]; simpl; [reflexivity|now rewrite IH]. Qed.

(** X11. After the two fix-ups the manifests declare the comments part:
    the content-types part has an [Override] without prefix for
    [/word/comments.xml] and the relationships part a [Relationship]
    without prefix of the comments type. The identifier returned is
    never empty. Among the [Relationship] elements without prefix, which
    are the ones the fix-up reads, a relationship that is made comes
    last; and when the numbers read on their [Id]s are below 2^53, its
    [Id] is one that none of them had, so that [Id]s that were distinct
    stay distinct. *)
Theorem package_fixups_declare_comments_part (contentTypesDoc documentRelsDoc : Node) :
  isElement contentTypesDoc = true ->
  isElement documentRelsDoc = true ->
  let rels := docGetElementsByTagName "Relationship" documentRelsDoc in
  let rels' := docGetElementsByTagName "Relationship"
                 (fst (ensureCommentsRelationship documentRelsDoc)) in
  let relId := snd (ensureCommentsRelationship documentRelsDoc) in
  let below := forall r n, r ∈ rels -> rIdNumber r = Finite n -> n < 2 ^ 53 in
  existsb isCommentsOverride
    (docGetElementsByTagName "Override"
       (ensureCommentsPartInContentTypes contentTypesDoc)) = true /\
  existsb isCommentsRelationship rels' = true /\
  relId <> [] /\
  (existsb isCommentsRelationship rels = false ->
   List.map (getAttribute "Id") rels' = List.map (getAttribute "Id") rels ++ [Some relId]) /\
  (below -> existsb isCommentsRelationship rels = false ->
   Some relId ∉ List.map (getAttribute "Id") rels) /\
  (below -> NoDup (List.map (getAttribute "Id") rels) ->
   NoDup (List.map (getAttribute "Id") rels')).
Proof.
  intros Hct Hrel rels rels' relId below.
  assert (Hnew : existsb isCommentsRelationship rels = false ->
            List.map (getAttribute "Id") rels'
            = List.map (getAttribute "Id") rels ++ [Some relId] /\
            (below -> Some relId ∉ List.map (getAttribute "Id") rels) /\
            existsb isCommentsRelationship rels' = true).
  { intros Hnone. unfold rels', relId.
    rewrite (ensureCommentsRelationship_new documentRelsDoc Hnone). cbn [fst snd].
    fold rels.
    set (newId := js "rId" ++ String_of (addOne (fold_left maxRIdStep rels 0))).
    rewrite (docGetElementsByTagName_appendChild_map "Relationship"
               (commentsRelationship newId) documentRelsDoc (getAttribute "Id"))
      by (try reflexivity; try assumption; intros a b; apply getAttribute_attrsOf).
    split; [reflexivity|]. split.
    - intros Hbelow Hin. apply list_elem_of_fmap in Hin as (r & Hr & Hin).
      destruct (maxRIdStep_fold rels 0) as (H0 & Hle & Htop).
      assert (Hmax : fold_left maxRIdStep rels 0 < 2 ^ 53).
      { destruct Htop as [->|(r' & Hin' & Hr')]; [reflexivity|].
        exact (Hbelow r' _ Hin' Hr'). }
      unfold newId in Hr. rewrite addOne_exact in Hr by lia.
      assert (Hn : rIdNumber r = Finite (fold_left maxRIdStep rels 0 + 1)).
      { apply rIdNumber_of_numeral; [lia|]. now rewrite <- Hr. }
      specialize (Hle r _ Hin Hn). lia.
    - assert (Hmap : List.map isCommentsRelationship
                       (docGetElementsByTagName "Relationship"
                          (appendChild (commentsRelationship newId) documentRelsDoc))
                     = List.map isCommentsRelationship rels ++ [true]).
      { apply (docGetElementsByTagName_appendChild_map "Relationship"
                 (commentsRelationship newId) documentRelsDoc isCommentsRelationship);
          try reflexivity; try assumption.
        intros a b Hab. unfold isCommentsRelationship.
        now rewrite (getAttribute_attrsOf "Type" a b Hab). }
      rewrite <- (existsb_map isCommentsRelationship (fun b => b)), Hmap.
      rewrite existsb_app. simpl. apply orb_true_r. }
  split.
  { unfold ensureCommentsPartInContentTypes.
    destruct (existsb isCommentsOverride (docGetElementsByTagName "Override" contentTypesDoc))
      eqn:E; [exact E|].
    set (override := setAttribute _ _ _).
    assert (Hmap : List.map isCommentsOverride
                     (docGetElementsByTagName "Override" (appendChild override contentTypesDoc))
                   = List.map isCommentsOverride
                       (docGetElementsByTagName "Override" contentTypesDoc) ++ [true]).
    { apply (docGetElementsByTagName_appendChild_map "Override"
               override contentTypesDoc isCommentsOverride);
        try reflexivity; try assumption.
      intros a b Hab. unfold isCommentsOverride.
      now rewrite (getAttribute_attrsOf "PartName" a b Hab). }
    rewrite <- (existsb_map isCommentsOverride (fun b => b)), Hmap.
    rewrite existsb_app. simpl. apply orb_true_r. }
  destruct (existsb isCommentsRelationship rels) eqn:E.
  - assert (Hsame : fst (ensureCommentsRelationship documentRelsDoc) = documentRelsDoc)
      by now apply ensureCommentsRelationship_present.
    unfold rels'. rewrite Hsame. fold rels.
    split; [exact E|]. split; [|split; [discriminate|split; [discriminate|tauto]]].
    unfold relId, ensureCommentsRelationship. fold rels.
    destruct (List.find isCommentsRelationship rels) as [existing|]; cbn [snd].
    + destruct (getAttribute "Id" existing) as [v|]; [|discriminate].
      destruct v; [discriminate|]. simpl. discriminate.
    + discriminate.
  - destruct (Hnew eq_refl) as (Hids & Hfresh & Hex).
    split; [exact Hex|]. split; [|split; [intros _; exact Hids|split]].
    + unfold relId. rewrite (ensureCommentsRelationship_new documentRelsDoc E). discriminate.
    + intros Hbelow _. now apply Hfresh.
    + intros Hbelow Hnd. rewrite Hids. apply NoDup_app. split; [exact Hnd|].
      split; [|apply NoDup_singleton].
      intros x Hx Hx'. apply list_elem_of_singleton in Hx'. subst x. now apply Hfresh.
Qed.

Lemma package_fixups_declare_comments_part_witness :
  List.map (getAttribute "Id")
    (docGetElementsByTagName "Relationship" (fst (ensureCommentsRelationship sampleRels)))
  = [Some (js "rId1"); Some (js "rId3"); Some (js "rId4")] /\
  NoDup (List.map (getAttribute "Id")
           (docGetElementsByTagName "Relationship"
              (fst (ensureCommentsRelationship sampleRels)))).
Proof.
  destruct (package_fixups_declare_comments_part sampleRels sampleRels eq_refl eq_refl)
    as (_ & _ & _ & H & _ & Hnd).
  assert (Hbelow : forall r n,
            r ∈ docGetElementsByTagName "Relationship" sampleRels ->
            rIdNumber r = Finite n -> n < 2 ^ 53).
  { intros r n Hr Hn. vm_compute in Hr.
    repeat (apply elem_of_cons in Hr as [->|Hr];
            [vm_compute in Hn; injection Hn as <-; reflexivity|]).
    inversion Hr. }
  split; [rewrite (H eq_refl); reflexivity|].
  apply (Hnd Hbelow). vm_compute. repeat constructor; intros Hin;
    repeat (apply elem_of_cons in Hin as [Hin|Hin]; [discriminate|]); inversion Hin.
Defined.

(** *** The index map, code unit by code unit *)

Lemma startsWith_app (needle hay : jsstring) :
  startsWith needle hay = true -> exists rest, hay = needle ++ rest.
Proof.
  revert hay. induction needle as [|n needle IH]; intros hay H; [now exists hay|].
  destruct hay as [|h hay]; [discriminate|]. simpl in H.
  apply andb_true_iff in H as [Hn H]. apply N.eqb_eq in Hn as ->.
  destruct (IH hay H) as [rest ->]. now exists rest.
Qed.

Lemma indexOf_from_found (hay needle : jsstring) (i : nat) :
  0 <= indexOf_from hay needle i ->
  exists k, indexOf_from hay needle i = Z.of_nat (i + k) /\
            startsWith needle (drop k hay) = true.
Proof.
  revert i. induction hay as [|h hay IH]; intros i H; simpl in *.
  - destruct (startsWith needle []) eqn:E; [|lia].
    exists 0%nat. rewrite Nat.add_0_r. now split.
  - destruct (startsWith needle (h :: hay)) eqn:E.
    + exists 0%nat. rewrite Nat.add_0_r. now split.
    + destruct (IH (S i) H) as (k & Hk & Hs). exists (S k).
      split; [rewrite Hk; f_equal; lia|exact Hs].
Qed.

Lemma indexOf_found (hay needle : jsstring) (c : N) :
  0 <= indexOf hay needle -> needle !! 0%nat = Some c ->
  hay !! Z.to_nat (indexOf hay needle) = Some c.
Proof.
  intros H Hc. unfold indexOf in *.
  destruct (indexOf_from_found hay needle 0 H) as (k & -> & Hs).
  simpl. rewrite Nat2Z.id.
  destruct (startsWith_app _ _ Hs) as [rest Hrest].
  destruct needle as [|n needle]; [discriminate|]. simpl in Hc. injection Hc as ->.
  rewrite <- (Nat.add_0_r k), <- lookup_drop, Hrest. reflexivity.
Qed.

Section Alignment.

Variable toLowerCase : jsstring -> jsstring.
Hypothesis toLowerCase_ink : lowerCaseKeepsInk toLowerCase.

Lemma normalizeLoop_norm_extends text i norm map (lastWasSpace : bool) :
  exists ext, fst (normalizeLoop toLowerCase text i norm map lastWasSpace) = norm ++ ext.
Proof.
  revert i norm map lastWasSpace.
  induction text as [|raw text IH]; intros i norm map lws; simpl.
  - exists []. now rewrite app_nil_r.
  - destruct (isSpace raw); [destruct lws; simpl|].
    + apply IH.
    + destruct (IH (S i) (norm ++ [32%N]) (map ++ [i]) true) as [ext ->].
      exists (32%N :: ext). now rewrite <- app_assoc.
    + destruct (IH (S i) (norm ++ toLowerCase [foldQuotes raw]) (map ++ [i]) false)
        as [ext ->].
      exists (toLowerCase [foldQuotes raw] ++ ext). now rewrite <- app_assoc.
Qed.

(** Every unit the loop pushes is the normalized unit of the code unit
    of the text at the index pushed with it, when each code unit of the
    text gives one normalized unit. *)
Lemma normalizeLoop_aligned (whole text : jsstring) i norm map (lastWasSpace : bool) :
  Forall (unitKept toLowerCase) text ->
  (forall j raw, text !! j = Some raw -> whole !! (i + j)%nat = Some raw) ->
  Forall2 (fun c off => exists raw, whole !! off = Some raw /\
                                    normalizedUnit toLowerCase raw = [c]) norm map ->
  Forall2 (fun c off => exists raw, whole !! off = Some raw /\
                                    normalizedUnit toLowerCase raw = [c])
    (fst (normalizeLoop toLowerCase text i norm map lastWasSpace))
    (snd (normalizeLoop toLowerCase text i norm map lastWasSpace)).
Proof.
  intros Hunit. revert i norm map lastWasSpace.
  induction text as [|raw text IH]; intros i norm map lws Hsub HR; simpl; [exact HR|].
  apply Forall_cons in Hunit as [Hu Hunit]. specialize (IH Hunit).
  assert (Hraw : whole !! i = Some raw)
    by (rewrite <- (Nat.add_0_r i); now apply Hsub).
  assert (Hsub' : forall j r, text !! j = Some r -> whole !! (S i + j)%nat = Some r).
  { intros j r Hj. replace (S i + j)%nat with (i + S j)%nat by lia. now apply Hsub. }
  destruct (isSpace raw) eqn:Hsp; [destruct lws; simpl|].
  - now apply IH.
  - apply IH; [exact Hsub'|]. apply Forall2_app; [exact HR|].
    constructor; [|constructor]. exists raw. split; [exact Hraw|].
    unfold normalizedUnit. now rewrite Hsp.
  - apply IH; [exact Hsub'|]. apply Forall2_app; [exact HR|].
    unfold unitKept, normalizedUnit in Hu. rewrite Hsp in Hu.
    destruct (toLowerCase [foldQuotes raw]) as [|c [|c' l]] eqn:E; try discriminate.
    constructor; [|constructor]. exists raw. split; [exact Hraw|].
    unfold normalizedUnit. now rewrite Hsp, E.
Qed.

(** For a text that does not begin with whitespace, the normalized
    string is a prefix of what the loop built. *)
Lemma normalized_prefix (text : jsstring) :
  headNotSpace text ->
  exists q, fst (normalizeLoop toLowerCase text 0 [] [] false)
            = normalized (normalizeForFuzzyIndexing toLowerCase text) ++ q.
Proof.
  intros Hhead. unfold normalizeForFuzzyIndexing.
  destruct (normalizeLoop toLowerCase text 0 [] [] false) as [norm map] eqn:E.
  cbn [fst normalized].
  assert (Hn : headNotSpace norm).
  { destruct text as [|raw rest]; [simpl in E; injection E as <- <-; intros a Ha; discriminate|].
    assert (Hsp : isSpace raw = false) by now apply Hhead.
    simpl in E. rewrite Hsp in E.
    destruct (normalizeLoop_norm_extends rest 1 (toLowerCase [foldQuotes raw]) [0%nat] false)
      as [ext Hext].
    simpl in E. rewrite E in Hext. cbn [fst] in Hext. subst norm.
    destruct (toLowerCase_ink (foldQuotes raw) (foldQuotes_ink raw Hsp)) as [Hne Hall].
    destruct (toLowerCase [foldQuotes raw]) as [|c l]; [congruence|].
    intros a Ha. simpl in Ha. injection Ha as <-.
    now apply Forall_cons in Hall as [Hc _]. }
  unfold trim. rewrite (trimStart_id _ Hn). apply trimEnd_prefix.
Qed.

Lemma normalized_aligned (text : jsstring) (k : nat) (c : N) :
  Forall (unitKept toLowerCase) text ->
  headNotSpace text ->
  let r := normalizeForFuzzyIndexing toLowerCase text in
  normalized r !! k = Some c ->
  exists off raw, normToOrig r !! k = Some off /\ text !! off = Some raw /\
                  normalizedUnit toLowerCase raw = [c].
Proof.
  intros Hunit Hhead r Hk.
  destruct (normalized_prefix text Hhead) as [q Hq]. fold r in Hq.
  assert (HR := normalizeLoop_aligned text text 0 [] [] false Hunit
                  (fun j raw H => H) (Forall2_nil_2 _ _ _)).
  assert (Hmap : snd (normalizeLoop toLowerCase text 0 [] [] false) = normToOrig r).
  { unfold r, normalizeForFuzzyIndexing.
    now destruct (normalizeLoop toLowerCase text 0 [] [] false). }
  rewrite Hq, Hmap in HR.
  assert (Hk' : (normalized r ++ q) !! k = Some c) by now apply lookup_app_l_Some.
  destruct (Forall2_lookup_l _ _ _ _ _ HR Hk') as (off & Hoff & raw & Hraw & Hu).
  now exists off, raw.
Qed.

End Alignment.

(** X12. For a text that does not begin with whitespace and whose code
    units each give one normalized code unit (the lower case of none is
    longer than the letter), the index map of
    [normalizeForFuzzyIndexing] is aligned with the normalized string:
    the entry at the position of a normalized code unit is the index of
    the code unit of the text it was made from. *)
Theorem index_map_aligned_without_leading_space
    (toLowerCase : jsstring -> jsstring) (text : jsstring) (k : nat) (c : N) :
  lowerCaseKeepsInk toLowerCase ->
  Forall (fun raw => length (normalizedUnit toLowerCase raw) = 1%nat) text ->
  headNotSpace text ->
  let r := normalizeForFuzzyIndexing toLowerCase text in
  normalized r !! k = Some c ->
  exists off raw, normToOrig r !! k = Some off /\ text !! off = Some raw /\
                  normalizedUnit toLowerCase raw = [c].
Proof.
  intros Hink Hunit Hhead r Hk.
  exact (normalized_aligned toLowerCase Hink text k c Hunit Hhead Hk).
Qed.

Lemma index_map_aligned_without_leading_space_witness :
  exists off raw,
    normToOrig (normalizeForFuzzyIndexing toLowerCaseSample (js "A  Bc")) !! 2%nat = Some off /\
    js "A  Bc" !! off = Some raw /\ normalizedUnit toLowerCaseSample raw = [98%N].
Proof.
  apply (index_map_aligned_without_leading_space toLowerCaseSample (js "A  Bc") 2 98%N
           toLowerCaseSample_ink).
  - repeat constructor.
  - intros a Ha. injection Ha as <-. reflexivity.
  - reflexivity.
Defined.

(** X13. Under the same conditions on the paragraph text, when the
    normalized anchor occurs in the normalized paragraph, the offset
    [findApproxMatchStartIndex] answers is the index of the code unit of
    the paragraph text that the first occurrence begins with. *)
Theorem substring_start_points_at_the_match
    (toLowerCase : jsstring -> jsstring) (partial_ratio : jsstring -> jsstring -> Z)
    (paragraphText anchorText : jsstring) (c : N) :
  lowerCaseKeepsInk toLowerCase ->
  Forall (fun raw => length (normalizedUnit toLowerCase raw) = 1%nat) paragraphText ->
  headNotSpace paragraphText ->
  let np := normalizeForFuzzyIndexing toLowerCase paragraphText in
  let normAnchor := normalizeForFuzzySearch toLowerCase anchorText in
  normAnchor !! 0%nat = Some c ->
  includes (normalized np) normAnchor = true ->
  exists off raw,
    findApproxMatchStartIndex toLowerCase partial_ratio paragraphText anchorText = Some off /\
    normToOrig np !! Z.to_nat (indexOf (normalized np) normAnchor) = Some off /\
    paragraphText !! off = Some raw /\
    normalizedUnit toLowerCase raw = [c].
Proof.
  intros Hink Hunit Hhead np normAnchor Hc Hinc.
  unfold includes in Hinc. apply Z.leb_le in Hinc.
  assert (Hk := indexOf_found (normalized np) normAnchor c Hinc Hc).
  destruct (normalized_aligned toLowerCase Hink paragraphText _ c Hunit Hhead Hk)
    as (off & raw & Hoff & Hraw & Hu).
  exists off, raw. split; [|now repeat split].
  unfold findApproxMatchStartIndex. fold np normAnchor.
  destruct normAnchor as [|a l] eqn:E; [discriminate|]. cbn [nonEmpty negb].
  rewrite <- E in *.
  destruct (Z.leb_spec 0 (indexOf (normalized np) normAnchor)) as [_|?]; [|lia].
  unfold at_index.
  destruct (Z.ltb_spec (indexOf (normalized np) normAnchor) 0) as [?|_]; [lia|].
  exact Hoff.
Qed.

Lemma substring_start_points_at_the_match_witness :
  exists off raw,
    findApproxMatchStartIndex toLowerCaseSample partialRatioSample
      (js "The  quick fox") (js "Quick") = Some off /\
    normToOrig (normalizeForFuzzyIndexing toLowerCaseSample (js "The  quick fox"))
      !! Z.to_nat (indexOf (normalized (normalizeForFuzzyIndexing toLowerCaseSample
                                          (js "The  quick fox")))
                     (normalizeForFuzzySearch toLowerCaseSample (js "Quick"))) = Some off /\
    js "The  quick fox" !! off = Some raw /\
    normalizedUnit toLowerCaseSample raw = [113%N].
Proof.
  apply (substring_start_points_at_the_match toLowerCaseSample partialRatioSample
           (js "The  quick fox") (js "Quick") 113%N toLowerCaseSample_ink).
  - repeat constructor.
  - intros a Ha. injection Ha as <-. reflexivity.
  - reflexivity.
  - reflexivity.
Defined.

(** *** The cleaned anchor *)

Lemma noSpaceRun_cons_space (c : N) (t : jsstring) :
  noSpaceRun t -> headNotSpace t -> noSpaceRun (c :: t).
Proof.
  intros Ht Hh. apply (noSpaceRun_app [c] t); [|exact Ht|now right].
  intros i a b Ha Hb. destruct i; discriminate.
Qed.

Lemma noSpaceRun_cons_ink (c : N) (t : jsstring) :
  isSpace c = false -> noSpaceRun t -> noSpaceRun (c :: t).
Proof.
  intros Hc Ht. apply (noSpaceRun_app [c] t); [|exact Ht|left].
  - intros i a b Ha Hb. destruct i; discriminate.
  - intros a Ha. simpl in Ha. now injection Ha as <-.
Qed.

(** What [replace(/\s+/g, " ")] leaves: plain spaces only, never two in
    a row, and none first when the text before ended a run. *)
Lemma replaceSpaceRuns_shape (s : jsstring) (inRun : bool) :
  let t := replaceSpaceRuns s inRun in
  noSpaceRun t /\ (inRun = true -> headNotSpace t) /\
  Forall (fun c => isSpace c = true -> c = 32%N) t /\
  (length t <= length s)%nat.
Proof.
  revert inRun. induction s as [|c s IH]; intros inRun; simpl.
  - repeat split; try constructor.
    + intros i a b Ha. destruct i; discriminate.
    + intros _ a Ha. discriminate.
  - destruct (isSpace c) eqn:Hc.
    + destruct (IH true) as (Hn & Hh & Hf & Hl). destruct inRun.
      * repeat split; [exact Hn|intros _; now apply Hh|exact Hf|lia].
      * repeat split.
        -- apply noSpaceRun_cons_space; [exact Hn|now apply Hh].
        -- discriminate.
        -- constructor; [reflexivity|exact Hf].
        -- simpl. lia.
    + destruct (IH false) as (Hn & _ & Hf & Hl). repeat split.
      * now apply noSpaceRun_cons_ink.
      * intros _ a Ha. simpl in Ha. now injection Ha as <-.
      * constructor; [congruence|exact Hf].
      * simpl. lia.
Qed.

Lemma replaceSpaceRuns_id (s : jsstring) (inRun : bool) :
  noSpaceRun s -> (inRun = true -> headNotSpace s) ->
  Forall (fun c => isSpace c = true -> c = 32%N) s ->
  replaceSpaceRuns s inRun = s.
Proof.
  revert inRun. induction s as [|c s IH]; intros inRun Hn Hh Hf; [reflexivity|].
  simpl. apply Forall_cons in Hf as [Hc Hf].
  assert (Hn' : noSpaceRun s) by exact (noSpaceRun_app_r [c] s Hn).
  destruct (isSpace c) eqn:Hsp.
  - destruct inRun; [specialize (Hh eq_refl c eq_refl); congruence|].
    rewrite (Hc eq_refl). f_equal. apply IH; [exact Hn'| |exact Hf].
    intros _ a Ha. exact (Hn 0%nat c a eq_refl Ha Hsp).
  - f_equal. apply IH; [exact Hn'|discriminate|exact Hf].
Qed.

Lemma trim_Forall (P : N -> Prop) (s : jsstring) : Forall P s -> Forall P (trim s).
Proof.
  intros H. unfold trim.
  destruct (trimStart_suffix s) as [p Hp]. rewrite Hp in H.
  apply Forall_app in H as [_ H].
  destruct (trimEnd_prefix (trimStart s)) as [q Hq]. rewrite Hq in H.
  now apply Forall_app in H as [H _].
Qed.

(** X14. [cleanAnchorText] answers a normal form: the only whitespace
    left is the plain space, never twice in a row and neither first nor
    last; cleaning a cleaned text changes nothing, and the result is
    never longer than the text. *)
Theorem cleanAnchorText_normal_form (text : jsstring) :
  let s := cleanAnchorText text in
  noSpaceRun s /\ headNotSpace s /\ lastNotSpace s /\
  Forall (fun c => isSpace c = true -> c = 32%N) s /\
  cleanAnchorText s = s /\
  (length s <= length text)%nat.
Proof.
  intros s. unfold s, cleanAnchorText.
  destruct (replaceSpaceRuns_shape text false) as (Hn & _ & Hf & Hl).
  assert (Hn' : noSpaceRun (trim (replaceSpaceRuns text false))) by now apply noSpaceRun_trim.
  assert (Hf' : Forall (fun c => isSpace c = true -> c = 32%N)
                  (trim (replaceSpaceRuns text false))) by now apply trim_Forall.
  split; [exact Hn'|]. split; [apply trim_head|]. split; [apply trim_last|].
  split; [exact Hf'|]. split.
  - rewrite (replaceSpaceRuns_id _ false Hn' ltac:(discriminate) Hf'). apply trim_trim.
  - pose proof (trim_length_le (replaceSpaceRuns text false)). lia.
Qed.

(** *** The anchor node and the offset *)

Lemma subtree_text (k : Node) :
  paragraphTextOf k = [] ->
  flat_map paragraphTextOf (subtreeElements k) = getParagraphText k.
Proof.
  intros H. destruct k as [ns pre loc attrs kids|d|d]; try reflexivity.
  cbn [subtreeElements flat_map]. rewrite H. reflexivity.
Qed.

(** The text of a paragraph whose text lies in its candidates. *)
Lemma text_of_candidates (kids : list Node) :
  (forall k, k ∈ kids -> paragraphTextOf k = []) ->
  (forall k, k ∈ kids -> isAnchorCandidate k = false -> getParagraphText k = []) ->
  flat_map (fun k => flat_map paragraphTextOf (subtreeElements k)) kids
  = flat_map getParagraphText (List.filter isAnchorCandidate kids).
Proof.
  induction kids as [|k kids IH]; intros H1 H2; [reflexivity|].
  cbn [flat_map List.filter].
  rewrite (subtree_text k (H1 k ltac:(left))).
  rewrite IH
    by (first [intros x Hx; apply H1; now right|intros x Hx Hc; apply H2; [now right|exact Hc]]).
  destruct (isAnchorCandidate k) eqn:E; [reflexivity|].
  now rewrite (H2 k ltac:(left) E).
Qed.

Lemma widthsTotal_text (cs : list Node) :
  (forall c, c ∈ cs -> getParagraphText c <> []) ->
  widthsTotal cs = length (flat_map getParagraphText cs).
Proof.
  induction cs as [|c cs IH]; intros H; [reflexivity|].
  change (c :: cs) with ([c] ++ cs). rewrite widthsTotal_app.
  cbn [app flat_map]. rewrite length_app, <- IH by (intros; apply H; now right).
  f_equal. unfold widthsTotal, candidateWidth. simpl.
  rewrite getChildTextLength_length.
  specialize (H c ltac:(left)). destruct (getParagraphText c); [congruence|simpl; lia].
Qed.

(** X15. For a paragraph whose text lies in its anchor candidates, each
    of them holding some, the candidate
    [findBestAnchorCandidateIndexForOffset] answers for an offset inside
    the paragraph text is the one that holds the code unit at that
    offset. *)
Theorem anchor_candidate_holds_offset
    (ns pre loc : string) (attrs : list Attr) (kids : list Node) (offset : nat) :
  let paragraph := Element ns pre loc attrs kids in
  let candidates := getDirectChildAnchorCandidates paragraph in
  let i := findBestAnchorCandidateIndexForOffset paragraph offset in
  (forall k, k ∈ kids -> paragraphTextOf k = []) ->
  (forall k, k ∈ kids -> isAnchorCandidate k = false -> getParagraphText k = []) ->
  (forall c, c ∈ candidates -> getParagraphText c <> []) ->
  (offset < length (getParagraphText paragraph))%nat ->
  exists c,
    candidates !! i = Some c /\
    getParagraphText paragraph
    = flat_map getParagraphText (take i candidates) ++ getParagraphText c ++
      flat_map getParagraphText (drop (S i) candidates) /\
    (length (flat_map getParagraphText (take i candidates)) <= offset
     < length (flat_map getParagraphText (take i candidates))
       + length (getParagraphText c))%nat.
Proof.
  intros paragraph candidates i H1 H2 H3 Hoff.
  assert (Htext : getParagraphText paragraph = flat_map getParagraphText candidates).
  { unfold paragraph. rewrite getParagraphText_children. now apply text_of_candidates. }
  assert (Htot : widthsTotal candidates = length (getParagraphText paragraph))
    by (rewrite Htext; now apply widthsTotal_text).
  unfold i, findBestAnchorCandidateIndexForOffset. fold candidates.
  destruct (Nat.eqb_spec (length candidates) 0) as [E|_].
  { destruct candidates; [|discriminate]. rewrite Htext in Hoff. simpl in Hoff. lia. }
  pose proof (walkCandidates_spec candidates 0 0 offset (Nat.le_0_l _)) as Hw.
  destruct (walkCandidates candidates 0 0 offset) as [r|]; [|simpl in Hw; lia].
  destruct Hw as (k & -> & Hk & Hlo & Hhi). simpl in *.
  destruct (lookup_lt_is_Some_2 candidates k Hk) as [c Hc].
  exists c. split; [exact Hc|]. split.
  - rewrite Htext. rewrite <- (take_drop_middle candidates k c Hc) at 1.
    rewrite flat_map_app. reflexivity.
  - rewrite (take_S_r candidates k c Hc), widthsTotal_app in Hhi.
    rewrite (widthsTotal_text (take k candidates)) in Hlo, Hhi
      by (intros x Hx; apply H3; rewrite <- (take_drop k candidates);
          apply elem_of_app; now left).
    rewrite (widthsTotal_text [c]) in Hhi
      by (intros x Hx; apply list_elem_of_singleton in Hx as ->; apply H3;
          eapply list_elem_of_lookup_2; exact Hc).
    simpl in Hhi. rewrite app_nil_r in Hhi. lia.
Qed.

Lemma anchor_candidate_holds_offset_witness :
  exists c,
    getDirectChildAnchorCandidates sampleParagraph
      !! findBestAnchorCandidateIndexForOffset sampleParagraph 6 = Some c /\
    (6 < length (getParagraphText c))%nat.
Proof.
  destruct (anchor_candidate_holds_offset W_NS "w" "p" []
              [Element W_NS "w" "r" [] [Element W_NS "w" "t" [] [TextNode (js "Hello world")]]]
              6) as (c & Hc & _ & Hlt).
  - intros k Hk. apply list_elem_of_singleton in Hk as ->. reflexivity.
  - intros k Hk. apply list_elem_of_singleton in Hk as ->. discriminate.
  - intros c Hc. vm_compute in Hc. apply list_elem_of_singleton in Hc as ->. discriminate.
  - vm_compute. lia.
  - exists c. split; [exact Hc|]. vm_compute in Hc. injection Hc as <-. vm_compute. lia.
Defined.

(** *** The comments written *)

Lemma commentRecord_nativeComment (id : Z) (author isoDate text : jsstring) :
  commentRecord (nativeComment id author isoDate text)
  = (Some (String_of id), Some author, Some isoDate, text).
Proof.
  unfold commentRecord. f_equal.
  destruct text as [|c text]; [reflexivity|]. cbn. now rewrite !app_nil_r.
Qed.

(** Under a [w:comments] root the new comment is the last [w:comment] of
    the part. *)
Lemma addNativeComment_last (doc : Node) (id : Z) (author isoDate text : jsstring) :
  isElementNS W_NS "comments" doc = true ->
  docGetElementsByTagNameNS W_NS "comment" (addNativeComment doc id author isoDate text)
  = docGetElementsByTagNameNS W_NS "comment" doc ++ [nativeComment id author isoDate text] /\
  isElementNS W_NS "comments" (addNativeComment doc id author isoDate text) = true.
Proof.
  intros Hroot. destruct doc as [ns pre loc attrs kids|d|d]; try discriminate.
  unfold addNativeComment. cbn [appendToFirst]. rewrite Hroot.
  split; [|exact Hroot].
  unfold docGetElementsByTagNameNS. cbn [subtreeElements List.filter].
  assert (Hnot : isElementNS W_NS "comment" (Element ns pre loc attrs (kids ++ [nativeComment id author isoDate text]))
                 = isElementNS W_NS "comment" (Element ns pre loc attrs kids))
    by reflexivity.
  rewrite Hnot.
  assert (Hc : isElementNS W_NS "comment" (Element ns pre loc attrs kids) = false).
  { simpl in Hroot |- *. apply andb_true_iff in Hroot as [Hns Hloc].
    apply String.eqb_eq in Hloc. subst loc. rewrite Hns. reflexivity. }
  rewrite Hc, flat_map_app, List.filter_app. f_equal.
  cbn [flat_map]. rewrite app_nil_r. apply comments_in_nativeComment.
Qed.

Section CommentsWritten.

Variable toLowerCase : jsstring -> jsstring.
Variable partial_ratio : jsstring -> jsstring -> Z.
Variable paragraphs0 : list Node.
Variable nowIso : jsstring.

Local Abbreviation paragraphTexts := (List.map getParagraphText paragraphs0).
Local Abbreviation loop := (mergeLoop toLowerCase partial_ratio paragraphTexts nowIso).
Local Abbreviation step := (mergeStep toLowerCase partial_ratio paragraphTexts nowIso).

Lemma mergeLoop_commentRecords items i st :
  length (paragraphs st) = length paragraphs0 ->
  isElementNS W_NS "comments" (commentsDoc st) = true ->
  let merged := mergedFrom partial_ratio paragraphs0 i items in
  commentRecords (commentsDoc (loop items i st))
  = commentRecords (commentsDoc st) ++
    zip_with (fun id p => writtenComment nowIso id (snd p))
      (idsFrom (nextCommentId st) (length merged)) merged.
Proof.
  revert i st. induction items as [|item items IH]; intros i st Hlen Hroot; simpl.
  - unfold mergedFrom. simpl. now rewrite app_nil_r.
  - assert (Hlen' := mergeStep_length toLowerCase partial_ratio paragraphs0 nowIso
                       st i item Hlen).
    specialize (IH (S i) (step st i item) Hlen').
    destruct (mergeStep_cases toLowerCase partial_ratio paragraphs0 nowIso st i item Hlen)
      as [[Hm Hst]|[Hm (d & p' & _ & _ & _ & Hn & _ & Hc & _)]].
    + rewrite Hst in *. unfold mergedFrom in *. simpl. rewrite Hm. now apply IH.
    + destruct (addNativeComment_last (commentsDoc st) (nextCommentId st)
                  (itemAuthor item) nowIso (fullCommentText item) Hroot) as [Hlast Hroot'].
      rewrite <- Hc in Hlast, Hroot'. specialize (IH Hroot').
      unfold mergedFrom in *. simpl. rewrite Hm. cbn [length].
      rewrite IH, Hn. unfold commentRecords at 1. rewrite Hlast, List.map_app.
      rewrite <- app_assoc. f_equal. cbn [List.map app].
      rewrite commentRecord_nativeComment.
      rewrite idsFrom_cons.
      cbn [zip_with]. unfold writtenComment at 2. cbn [snd]. reflexivity.
Qed.

End CommentsWritten.

(** X16. Under a [w:comments] root, and as long as the last identifier
    given out stays below 2^53, the run appends the comments of the
    matched records at the end of the comments part, in input order and
    after the comments it had, which stay as they were. The comment of a
    record has the next identifier, written as a decimal numeral, the
    record's author trimmed ([Reviewer] when none is left), the time of
    the run, and as text the record's comment text after [[label] ] when
    the record has a label. *)
Theorem run_appends_comments_in_input_order
    (toLowerCase : jsstring -> jsstring) (partial_ratio : jsstring -> jsstring -> Z)
    (paragraphs0 : list Node) (commentsDoc0 : Node)
    (items : list MergeCommentItem) (nowIso : jsstring) :
  isElementNS W_NS "comments" commentsDoc0 = true ->
  let st := mergeRecords toLowerCase partial_ratio paragraphs0 commentsDoc0 items nowIso in
  let merged := mergedFrom partial_ratio paragraphs0 0 items in
  getMaxCommentId commentsDoc0 + Z.of_nat (length merged) < 2 ^ 53 ->
  let newIds := seqZ (getMaxCommentId commentsDoc0 + 1) (Z.of_nat (length merged)) in
  commentRecords (commentsDoc st)
  = commentRecords commentsDoc0 ++
    zip_with (fun id p => writtenComment nowIso id (snd p)) newIds merged /\
  (forall id, id ∈ newIds -> String_of id = decimalOf id) /\
  (forall item, itemAuthor item <> [] /\ headNotSpace (itemAuthor item) /\
                lastNotSpace (itemAuthor item)).
Proof.
  intros Hroot st merged Hbound newIds.
  destruct (initial_ids_exact commentsDoc0 _ Hbound) as (Hids & _ & Hsmall).
  split; [|split].
  - unfold newIds. rewrite <- Hids.
    exact (mergeLoop_commentRecords toLowerCase partial_ratio paragraphs0 nowIso items 0
             (initialState paragraphs0 commentsDoc0) eq_refl Hroot).
  - intros id Hid. rewrite Forall_forall in Hsmall. specialize (Hsmall id Hid).
    pose proof two_53_lt_ten_21. apply String_of_decimal. lia.
  - intros item. unfold itemAuthor.
    destruct (trim (default (js "Reviewer") (author item))) as [|c a] eqn:E; cbn [nonEmpty].
    + split; [discriminate|]. split; intros x Hx; vm_compute in Hx; injection Hx as <-;
        reflexivity.
    + rewrite <- E. split; [rewrite E; discriminate|]. split; [apply trim_head|apply trim_last].
Qed.

Lemma run_appends_comments_in_input_order_witness :
  commentRecords
    (commentsDoc (mergeRecords toLowerCaseSample partialRatioSample
                    [sampleParagraph] sampleComments sampleItems (js "now")))
  = [(Some (js "7"), None, None, []);
     (Some (js "8"), Some (js "Kate"), Some (js "now"), js "first");
     (Some (js "9"), Some (js "Reviewer"), Some (js "now"), js "[tone] second")].
Proof.
  rewrite (proj1 (run_appends_comments_in_input_order toLowerCaseSample partialRatioSample
                    [sampleParagraph] sampleComments sampleItems (js "now") eq_refl
                    eq_refl)).
  reflexivity.
Defined.

(** *** The anchor index as the offset grows *)

Lemma widthsTotal_take_mono (cs : list Node) (k k' : nat) :
  (k <= k')%nat -> (widthsTotal (take k cs) <= widthsTotal (take k' cs))%nat.
Proof.
  intros H. replace (take k cs) with (take k (take k' cs)).
  - apply widthsTotal_take.
  - rewrite take_take. f_equal. lia.
Qed.

(** X17. [findBestAnchorCandidateIndexForOffset] is monotone in the
    offset: a later offset never gives an earlier candidate. *)
Theorem anchor_index_grows_with_offset (paragraph : Node) (offset1 offset2 : nat) :
  (offset1 <= offset2)%nat ->
  (findBestAnchorCandidateIndexForOffset paragraph offset1
   <= findBestAnchorCandidateIndexForOffset paragraph offset2)%nat.
Proof.
  intros Hle. unfold findBestAnchorCandidateIndexForOffset.
  set (cs := getDirectChildAnchorCandidates paragraph).
  destruct (Nat.eqb_spec (length cs) 0) as [_|Hne]; [lia|].
  pose proof (walkCandidates_spec cs 0 0 offset1 (Nat.le_0_l _)) as H1.
  pose proof (walkCandidates_spec cs 0 0 offset2 (Nat.le_0_l _)) as H2.
  destruct (walkCandidates cs 0 0 offset1) as [r1|];
    destruct (walkCandidates cs 0 0 offset2) as [r2|]; simpl in *.
  - destruct H1 as (k1 & -> & Hk1 & Hlo1 & Hhi1).
    destruct H2 as (k2 & -> & Hk2 & Hlo2 & Hhi2).
    destruct (Nat.le_gt_cases k1 k2) as [H|H]; [exact H|].
    pose proof (widthsTotal_take_mono cs (S k2) k1 ltac:(lia)). lia.
  - destruct H1 as (k1 & -> & Hk1 & _). lia.
  - destruct H2 as (k2 & -> & Hk2 & _ & Hhi2).
    pose proof (widthsTotal_take cs (S k2)). lia.
  - lia.
Qed.

Lemma anchor_index_grows_with_offset_witness :
  (findBestAnchorCandidateIndexForOffset sampleParagraph 2
   <= findBestAnchorCandidateIndexForOffset sampleParagraph 40)%nat.
Proof.
  apply (anchor_index_grows_with_offset sampleParagraph 2 40). lia.
Defined.

(** *** The greatest identifier *)

Lemma maxIdStep_fold_attained (nodes : list Node) (m : Z) :
  fold_left maxIdStep nodes m = m \/
  Finite (fold_left maxIdStep nodes m) ∈ List.map commentIdOf nodes.
Proof.
  revert m. induction nodes as [|n nodes IH]; intros m; simpl; [now left|].
  destruct (IH (maxIdStep m n)) as [Heq|Hin].
  - rewrite Heq. unfold maxIdStep.
    destruct (commentIdOf n) as [| | |id] eqn:E; try (now left).
    destruct (m <? id); [right; left|now left].
  - right. now right.
Qed.

(** X18. [getMaxCommentId] answers the greatest finite number that
    [parseInt] reads on a [w:comment] of the part when one is above 0,
    and 0 otherwise. What [parseInt] reads is a double: identifiers that
    do not parse or are read as an infinity do not count, nor do
    negative ones; an identifier written as the decimal numeral of an
    integer of at most 53 bits is read as that integer. *)
Theorem getMaxCommentId_is_greatest_identifier (commentsDoc : Node) :
  let m := getMaxCommentId commentsDoc in
  0 <= m /\
  (forall c, Finite c ∈ commentIds commentsDoc -> c <= m) /\
  (m = 0 \/ Finite m ∈ commentIds commentsDoc) /\
  ((forall c, Finite c ∈ commentIds commentsDoc -> c <= 0) -> m = 0) /\
  (forall node n,
     node ∈ docGetElementsByTagNameNS W_NS "comment" commentsDoc ->
     getAttributeNS W_NS "id" node = Some (decimalOf n) -> Z.abs n <= 2 ^ 53 ->
     n <= m).
Proof.
  intros m. unfold m, getMaxCommentId, commentIds.
  set (nodes := docGetElementsByTagNameNS W_NS "comment" commentsDoc).
  destruct (maxIdStep_fold_ge nodes 0) as [H0 Hge].
  assert (Hnum : forall node n, node ∈ nodes ->
            getAttributeNS W_NS "id" node = Some (decimalOf n) -> Z.abs n <= 2 ^ 53 ->
            n <= fold_left maxIdStep nodes 0).
  { intros node n Hin Hid Hn. apply Hge. apply list_elem_of_fmap. exists node.
    split; [|exact Hin]. unfold commentIdOf. rewrite Hid.
    change (Finite n = parseInt10 (decimalOf n)).
    rewrite parseInt10_decimalOf. symmetry. now apply toNumber_exact. }
  destruct (maxIdStep_fold_attained nodes 0) as [Heq|Hin].
  - repeat split; [exact H0|exact Hge|now left|now intros _|exact Hnum].
  - repeat split; [exact H0|exact Hge|now right| |exact Hnum].
    intros Hall. specialize (Hall _ Hin). lia.
Qed.

(** Two identifiers that a double does not hold: 2^53 + 1 is read as
    2^53, and a numeral of 401 digits as an infinity, which the maximum
    leaves out. *)
Example getMaxCommentId_reads_doubles :
  let comment id := Element W_NS "w" "comment" [mkAttr W_NS "w" "id" id] [] in
  getMaxCommentId
    (Element W_NS "w" "comments" [] [comment (js "9007199254740993")])
  = 9007199254740992 /\
  getMaxCommentId
    (Element W_NS "w" "comments" []
       [comment (js "12"); comment (replicate 401 57%N)])
  = 12.
Proof. split; vm_compute; reflexivity. Qed.

(** *** The XML declaration of the written parts *)

Lemma leadingSpace_trimStart (s : jsstring) :
  s = leadingSpace s ++ trimStart s /\ Forall (fun c => isSpace c = true) (leadingSpace s).
Proof.
  induction s as [|c s [IH1 IH2]]; simpl; [split; [reflexivity|constructor]|].
  destruct (isSpace c) eqn:E; simpl.
  - split; [now rewrite <- IH1|now constructor].
  - split; [reflexivity|constructor].
Qed.

Lemma trimStart_app_space (ws s : jsstring) :
  Forall (fun c => isSpace c = true) ws -> trimStart (ws ++ s) = trimStart s.
Proof.
  induction 1 as [|c ws Hc _ IH]; [reflexivity|]. simpl. now rewrite Hc.
Qed.

Lemma leadingSpace_app_space (ws s : jsstring) :
  Forall (fun c => isSpace c = true) ws -> leadingSpace (ws ++ s) = ws ++ leadingSpace s.
Proof.
  induction 1 as [|c ws Hc _ IH]; [reflexivity|]. simpl. now rewrite Hc, IH.
Qed.

Lemma splitAtGt_spec (s a b : jsstring) :
  splitAtGt s = Some (a, b) ->
  s = a ++ 62%N :: b /\ Forall (fun c => c <> 62%N) a.
Proof.
  revert a b. induction s as [|c s IH]; intros a b H; simpl in H; [discriminate|].
  destruct (N.eqb_spec c 62) as [->|Hc].
  - injection H as <- <-. split; [reflexivity|constructor].
  - destruct (splitAtGt s) as [[a' b']|]; [|discriminate].
    injection H as <- <-. destruct (IH a' b' eq_refl) as [-> Hall].
    split; [reflexivity|now constructor].
Qed.

Lemma splitAtGt_app (a b : jsstring) :
  Forall (fun c => c <> 62%N) a -> splitAtGt (a ++ 62%N :: b) = Some (a, b).
Proof.
  induction 1 as [|c a Hc _ IH]; [reflexivity|]. simpl.
  destruct (N.eqb_spec c 62) as [?|_]; [contradiction|]. now rewrite IH.
Qed.

(** What a match says of the text: the text is the whitespace, the
    declaration and the rest; the declaration is one by itself, and is
    found again at the head of any text. *)
Lemma matchXmlDeclaration_spec (s ws decl rest : jsstring) :
  matchXmlDeclaration s = Some (ws, decl, rest) ->
  s = ws ++ decl ++ rest /\
  Forall (fun c => isSpace c = true) ws /\
  trim (ws ++ decl) = decl /\
  decl <> [] /\
  forall tail, matchXmlDeclaration (decl ++ tail) = Some ([], decl, tail).
Proof.
  unfold matchXmlDeclaration. intros H.
  destruct (leadingSpace_trimStart s) as [Hs Hws].
  destruct (trimStart s) as [|lt [|qm [|x [|m [|l r]]]]] eqn:Ht; try discriminate.
  destruct (_ && _) eqn:Hxml; [|discriminate].
  destruct (splitAtGt r) as [[a b]|] eqn:Hsplit; [|discriminate].
  destruct (last a) as [q|] eqn:Hlast; [|discriminate].
  destruct (N.eqb_spec q 63) as [->|]; [|discriminate].
  injection H as <- <- <-.
  destruct (splitAtGt_spec r a b Hsplit) as [-> Hall].
  assert (Hlt : lt = 60%N).
  { pose proof Hxml as Hx. repeat (apply andb_true_iff in Hx as [Hx _]).
    now apply N.eqb_eq in Hx. }
  subst lt.
  assert (Hdecl : forall tail,
            matchXmlDeclaration ((60%N :: qm :: x :: m :: l :: a ++ [62%N]) ++ tail)
            = Some ([], 60%N :: qm :: x :: m :: l :: a ++ [62%N], tail)).
  { intros tail. unfold matchXmlDeclaration. cbn [app trimStart leadingSpace].
    change (isSpace 60) with false. cbn iota. rewrite Hxml.
    rewrite <- app_assoc. cbn [app]. rewrite (splitAtGt_app a tail Hall), Hlast.
    reflexivity. }
  split; [|split; [exact Hws|split; [|split; [discriminate|exact Hdecl]]]].
  - rewrite Hs at 1. f_equal. cbn [app]. now rewrite <- app_assoc.
  - unfold trim. rewrite (trimStart_app_space _ _ Hws).
    cbn [trimStart]. change (isSpace 60) with false. cbn iota.
    apply trimEnd_id. intros c Hc.
    change (60%N :: qm :: x :: m :: l :: a ++ [62%N])
      with ((60%N :: qm :: x :: m :: l :: a) ++ [62%N]) in Hc.
    rewrite last_snoc in Hc. now injection Hc as <-.
Qed.

Lemma defaultXmlHeader_declaration (tail : jsstring) :
  matchXmlDeclaration (defaultXmlHeader ++ tail) = Some ([], defaultXmlHeader, tail).
Proof. reflexivity. Qed.

(** X19. The text [serializeXmlWithOriginalHeader] writes is a
    declaration, a line feed and a body. The declaration is the one the
    original text begins with, as it stands there, or the default one
    when the original has none; the body is the serialized document
    without the declaration and the whitespace it begins with. Read
    back, the text gives that declaration again, so writing a part from
    its own output keeps the declaration. *)
Theorem serialized_part_keeps_original_declaration
    (serialized : jsstring) (originalText : option jsstring) :
  let out := serializeXmlWithOriginalHeader serialized originalText in
  exists header body,
    out = header ++ [10%N] ++ body /\
    matchXmlDeclaration out = Some ([], header, 10%N :: body) /\
    (forall o ws decl rest,
       originalText = Some o -> matchXmlDeclaration o = Some (ws, decl, rest) ->
       header = decl /\ o = ws ++ header ++ rest) /\
    ((originalText = None \/
      exists o, originalText = Some o /\ matchXmlDeclaration o = None) ->
     header = defaultXmlHeader) /\
    (forall ws decl rest,
       matchXmlDeclaration serialized = Some (ws, decl, rest) ->
       body = trimStart rest /\ serialized = ws ++ decl ++ rest) /\
    (matchXmlDeclaration serialized = None -> body = serialized) /\
    (forall other, exists body',
       serializeXmlWithOriginalHeader other (Some out) = header ++ [10%N] ++ body').
Proof.
  intros out.
  set (body := match matchXmlDeclaration serialized with
               | Some (_, _, rest) => trimStart rest
               | None => serialized
               end).
  assert (Hhead : exists header,
            out = header ++ [10%N] ++ body /\
            (forall tail, matchXmlDeclaration (header ++ tail) = Some ([], header, tail)) /\
            header <> [] /\
            (forall o ws decl rest,
               originalText = Some o -> matchXmlDeclaration o = Some (ws, decl, rest) ->
               header = decl /\ o = ws ++ header ++ rest) /\
            ((originalText = None \/
              exists o, originalText = Some o /\ matchXmlDeclaration o = None) ->
             header = defaultXmlHeader)).
  { unfold out, serializeXmlWithOriginalHeader. fold body.
    destruct originalText as [o|].
    - destruct (matchXmlDeclaration o) as [[[ws decl] rest]|] eqn:Ho.
      + destruct (matchXmlDeclaration_spec o ws decl rest Ho)
          as (Hso & Hws & Htrim & Hne & Hdecl).
        rewrite Htrim. exists decl.
        destruct decl as [|c decl']; [congruence|]. cbn [nonEmpty].
        split; [reflexivity|]. split; [exact Hdecl|]. split; [discriminate|]. split.
        * intros o' ws' d' r' [= <-] Ho'. rewrite Ho in Ho'. injection Ho' as <- <- <-.
          now split.
        * intros [?|(o' & [= <-] & ?)]; congruence.
      + exists defaultXmlHeader. split; [reflexivity|].
        split; [apply defaultXmlHeader_declaration|]. split; [discriminate|]. split.
        * intros o' ws' d' r' [= <-] Ho'. congruence.
        * reflexivity.
    - exists defaultXmlHeader. split; [reflexivity|].
      split; [apply defaultXmlHeader_declaration|]. split; [discriminate|]. split.
      + intros o' ws' d' r' ?. discriminate.
      + reflexivity. }
  destruct Hhead as (header & Hout & Hdecl & Hne & Horig & Hdef).
  exists header, body.
  split; [exact Hout|]. split; [rewrite Hout; apply Hdecl|].
  split; [exact Horig|]. split; [exact Hdef|]. split; [|split].
  - intros ws decl rest Hs. unfold body. rewrite Hs. split; [reflexivity|].
    now destruct (matchXmlDeclaration_spec serialized ws decl rest Hs) as (-> & _).
  - intros Hs. unfold body. now rewrite Hs.
  - intros other. unfold serializeXmlWithOriginalHeader at 1.
    rewrite Hout, (Hdecl ([10%N] ++ body)).
    destruct (matchXmlDeclaration_spec _ _ _ _ (Hdecl ([10%N] ++ body)))
      as (_ & _ & Htrim & _).
    rewrite Htrim. destruct header as [|c h]; [congruence|]. cbn [nonEmpty].
    eexists. reflexivity.
Qed.

(** A worked case: the declaration of the original text, in its own
    spelling, replaces the one of the serializer. *)
Example serializeXmlWithOriginalHeader_sample :
  serializeXmlWithOriginalHeader (js "<?xml version='1.0'?> <a>x</a>")
    (Some (js "  <?XML v='1.0' standalone='yes'?>" ++ [10%N] ++ js "<r/>"))
  = js "<?XML v='1.0' standalone='yes'?>" ++ [10%N] ++ js "<a>x</a>" /\
  serializeXmlWithOriginalHeader (js "<a>x</a>") (Some (js "<r/>"))
  = defaultXmlHeader ++ [10%N] ++ js "<a>x</a>" /\
  matchXmlDeclaration (js "<?xml>") = None /\
  matchXmlDeclaration (js "<?xmlx?>y") = Some ([], js "<?xmlx?>", js "y").
Proof. repeat split; reflexivity. Qed.

(** *** The markers of every comment after the run *)

Lemma markers_not_candidates (commentId : Z) :
  isAnchorCandidate (commentRangeStart commentId) = false /\
  isAnchorCandidate (commentRangeEnd commentId) = false /\
  isAnchorCandidate (createCommentReferenceRun commentId) = false /\
  isAnchorCandidate createSpaceRun = true.
Proof. repeat split; reflexivity. Qed.

Lemma split_by_count {A} (P : A -> bool) (b1 b2 a1 a2 : list A) (x y : A) :
  b1 ++ x :: a1 = b2 ++ y :: a2 ->
  (length (List.filter P b1) < length (List.filter P b2))%nat ->
  exists mid, b2 = b1 ++ x :: mid /\ a1 = mid ++ y :: a2.
Proof.
  intros Heq Hlt.
  apply List.app_eq_app in Heq as [l [[-> Hl]|[-> Hl]]].
  - rewrite List.filter_app, length_app in Hlt. lia.
  - destruct l as [|z l].
    + rewrite app_nil_r in Hlt. lia.
    + simpl in Hl. injection Hl as <- ->. now exists l.
Qed.

Lemma candidate_lookup (kids : list Node) (k : nat) (c : Node) :
  List.filter isAnchorCandidate kids !! k = Some c -> isAnchorCandidate c = true.
Proof.
  intros H. apply list_elem_of_lookup_2, list_elem_of_In, List.filter_In in H. tauto.
Qed.

Lemma filter_wrapped (commentId : Z) (before after : list Node) (c : Node) :
  isAnchorCandidate c = true ->
  List.filter isAnchorCandidate
    (before ++ [commentRangeStart commentId; c; commentRangeEnd commentId;
                createCommentReferenceRun commentId] ++ after)
  = List.filter isAnchorCandidate before ++ c :: List.filter isAnchorCandidate after.
Proof.
  intros Hc. rewrite !List.filter_app. f_equal. f_equal.
  cbn [List.filter]. rewrite Hc.
  destruct (markers_not_candidates commentId) as (-> & -> & -> & _). reflexivity.
Qed.

(** The number of candidates after an insertion. *)
Lemma insertCommentAnchorIntoParagraph_candidates ns pre loc attrs kids commentId a :
  let paragraph := Element ns pre loc attrs kids in
  let n := length (getDirectChildAnchorCandidates paragraph) in
  length (getDirectChildAnchorCandidates
            (insertCommentAnchorIntoParagraph paragraph commentId a))
  = if (a <? n)%nat then n else S n.
Proof.
  intros paragraph n.
  destruct (insertCommentAnchorIntoParagraph_children ns pre loc attrs kids commentId a)
    as (before & an & after & Hkids & [(Hsome & Hk & Hcount)|(Hnone & -> & -> & ->)]).
  - assert (Han : isAnchorCandidate an = true) by exact (candidate_lookup _ _ _ Hsome).
    assert (Hlt : (a < n)%nat) by (apply lookup_lt_is_Some; eauto).
    destruct (Nat.ltb_spec a n) as [_|?]; [|lia].
    unfold getDirectChildAnchorCandidates. fold paragraph in Hkids. rewrite Hkids.
    rewrite (filter_wrapped commentId before after an Han).
    unfold n, getDirectChildAnchorCandidates, paragraph. cbn [children]. rewrite Hk.
    rewrite List.filter_app. cbn [List.filter]. now rewrite Han.
  - assert (Hge : (n <= a)%nat) by now apply lookup_ge_None.
    destruct (Nat.ltb_spec a n) as [?|_]; [lia|].
    unfold getDirectChildAnchorCandidates. fold paragraph in Hkids. rewrite Hkids.
    rewrite (filter_wrapped commentId kids [] createSpaceRun eq_refl).
    rewrite length_app. unfold n, getDirectChildAnchorCandidates, paragraph.
    cbn [children List.filter length]. lia.
Qed.

(** An insertion at an index that is at most the number of candidates
    leaves the markers around the candidate of that index. *)
Lemma insertion_wraps ns pre loc attrs kids commentId a :
  let paragraph := Element ns pre loc attrs kids in
  (a <= length (getDirectChildAnchorCandidates paragraph))%nat ->
  wrappedAt (children (insertCommentAnchorIntoParagraph paragraph commentId a)) commentId a.
Proof.
  intros paragraph Hle.
  destruct (insertCommentAnchorIntoParagraph_children ns pre loc attrs kids commentId a)
    as (before & an & after & Hkids & [(Hsome & Hk & Hcount)|(Hnone & -> & -> & ->)]).
  - exists before, an, after. split; [exact Hkids|].
    split; [exact (candidate_lookup _ _ _ Hsome)|exact Hcount].
  - exists kids, createSpaceRun, []. split; [exact Hkids|]. split; [reflexivity|].
    apply lookup_ge_None in Hnone.
    unfold paragraph, getDirectChildAnchorCandidates in Hle, Hnone. cbn [children] in *. lia.
Qed.

(** An insertion at another index leaves the markers of a comment where
    they are. *)
Lemma insertion_keeps_wrapped ns pre loc attrs kids commentId a commentId0 k :
  let paragraph := Element ns pre loc attrs kids in
  wrappedAt kids commentId0 k -> a <> k ->
  wrappedAt (children (insertCommentAnchorIntoParagraph paragraph commentId a)) commentId0 k.
Proof.
  intros paragraph (before & c0 & after & Hkids0 & Hc0 & Hcount0) Hne.
  destruct (markers_not_candidates commentId0) as (Hrs0 & Hre0 & Href0 & _).
  destruct (markers_not_candidates commentId) as (Hrs & Hre & Href & _).
  destruct (insertCommentAnchorIntoParagraph_children ns pre loc attrs kids commentId a)
    as (before' & an & after' & Hkids & [(Hsome & Hk & Hcount)|(Hnone & -> & -> & ->)]).
  - assert (Han : isAnchorCandidate an = true) by exact (candidate_lookup _ _ _ Hsome).
    fold paragraph in Hkids. rewrite Hkids.
    destruct (Nat.lt_gt_cases a k) as [Hcases _]. destruct (Hcases Hne) as [Hlt|Hgt].
    + (* the anchor stands before the markers *)
      destruct (split_by_count isAnchorCandidate before' (before ++ [commentRangeStart commentId0])
                  after' ([commentRangeEnd commentId0; createCommentReferenceRun commentId0] ++ after)
                  an c0) as (mid' & Hb & Ha).
      * rewrite <- Hk, Hkids0, <- app_assoc. reflexivity.
      * rewrite List.filter_app, length_app. cbn [List.filter]. rewrite Hrs0. simpl. lia.
      * destruct (decide (mid' = [])) as [->|Hmid].
        { apply app_inj_tail in Hb as [_ Hb]. rewrite Hb, Han in Hrs0. discriminate. }
        destruct (exists_last Hmid) as (mid & z & ->).
        change (before' ++ an :: mid ++ [z]) with (before' ++ (an :: mid) ++ [z]) in Hb.
        rewrite app_assoc in Hb. apply app_inj_tail in Hb as [Hb <-].
        exists (before' ++ [commentRangeStart commentId; an; commentRangeEnd commentId;
                            createCommentReferenceRun commentId] ++ mid), c0, after.
        split; [|split; [exact Hc0|]].
        -- rewrite Ha. rewrite <- !app_assoc. cbn [app]. reflexivity.
        -- rewrite (filter_wrapped commentId before' mid an Han).
           rewrite <- Hcount0, Hb, List.filter_app. cbn [List.filter]. now rewrite Han.
    + (* the anchor stands after the markers *)
      destruct (split_by_count isAnchorCandidate (before ++ [commentRangeStart commentId0]) before'
                  ([commentRangeEnd commentId0; createCommentReferenceRun commentId0] ++ after)
                  after' c0 an) as (mid' & Hb & Ha).
      * rewrite <- Hk, Hkids0, <- app_assoc. reflexivity.
      * rewrite List.filter_app, length_app. cbn [List.filter]. rewrite Hrs0. simpl. lia.
      * destruct mid' as [|m1 [|m2 mid]]; cbn [app] in Ha.
        { injection Ha as Ha _. rewrite <- Ha, Hre0 in Han. discriminate. }
        { injection Ha as _ Ha _. rewrite <- Ha, Href0 in Han. discriminate. }
        injection Ha as <- <- ->.
        exists before, c0,
          (mid ++ [commentRangeStart commentId; an; commentRangeEnd commentId;
                   createCommentReferenceRun commentId] ++ after').
        split; [|split; [exact Hc0|exact Hcount0]].
        rewrite Hb. rewrite <- !app_assoc. cbn [app]. reflexivity.
  - fold paragraph in Hkids. rewrite Hkids, Hkids0.
    exists before, c0,
      (after ++ [commentRangeStart commentId; createSpaceRun; commentRangeEnd commentId;
                 createCommentReferenceRun commentId]).
    split; [|split; [exact Hc0|exact Hcount0]].
    rewrite <- ?app_assoc. cbn [app]. rewrite <- ?app_assoc, ?app_nil_r. reflexivity.
Qed.

(** The index the walk answers is at most the number of candidates. *)
Lemma findBestAnchorCandidateIndexForOffset_le (paragraph : Node) (offset : nat) :
  (findBestAnchorCandidateIndexForOffset paragraph offset
   <= length (getDirectChildAnchorCandidates paragraph))%nat.
Proof.
  unfold findBestAnchorCandidateIndexForOffset.
  set (cs := getDirectChildAnchorCandidates paragraph).
  destruct (Nat.eqb_spec (length cs) 0) as [_|Hne]; [lia|].
  pose proof (walkCandidates_spec cs 0 0 offset (Nat.le_0_l _)) as H.
  destruct (walkCandidates cs 0 0 offset) as [r|]; [|lia].
  destruct H as (k & -> & Hk & _). simpl. lia.
Qed.

(** A probe over indices below [n], started at most at [n], ends at most
    at [n]. *)
Lemma probeUnused_le (used : gset nat) (idx n : nat) :
  (forall k, k ∈ used -> (k < n)%nat) -> (idx <= n)%nat ->
  (probeUnused used idx <= n)%nat.
Proof.
  intros Hused Hidx.
  destruct (probeUnused_spec used idx) as (_ & _ & Hbelow).
  destruct (Nat.le_gt_cases (probeUnused used idx) n) as [H|H]; [exact H|].
  specialize (Hused n (Hbelow n ltac:(lia))). lia.
Qed.

Section MarkersAfterRun.

Variable toLowerCase : jsstring -> jsstring.
Variable partial_ratio : jsstring -> jsstring -> Z.
Variable paragraphs0 : list Node.
Variable nowIso : jsstring.

Local Abbreviation paragraphTexts := (List.map getParagraphText paragraphs0).
Local Abbreviation step := (mergeStep toLowerCase partial_ratio paragraphTexts nowIso).
Local Abbreviation loop := (mergeLoop toLowerCase partial_ratio paragraphTexts nowIso).
Local Abbreviation bestOf item :=
  (findBestParagraphMatch partial_ratio paragraphs0 paragraphTexts
     (default [] (anchor_text item))).

(** An iteration keeps the bookkeeping of the markers. *)
Lemma mergeStep_markers (all : list MergeCommentItem) (next0 : Z) st i item :
  length (paragraphs st) = length paragraphs0 ->
  all !! i = Some item ->
  markersTracked partial_ratio paragraphs0 all next0 st ->
  markersTracked partial_ratio paragraphs0 all next0 (step st i item).
Proof.
  intros Hlen Hitem Hinv.
  destruct (mergeStep_cases toLowerCase partial_ratio paragraphs0 nowIso st i item Hlen)
    as [[_ ->]|[Hm (d & p' & Hi & Hd & _ & Hn & _ & _ & Hout & Hused)]]; [exact Hinv|].
  destruct Hinv as (Hel & Hnext & Hbound & Hwrap).
  assert (Hbest : 0 <= bestIndex (findBestParagraphMatch partial_ratio (paragraphs st)
                         paragraphTexts (default [] (anchor_text item)))).
  { rewrite (findBestParagraphMatch_length partial_ratio (paragraphs st) paragraphs0 _ _ Hlen).
    unfold recordMatches in Hm. now apply Z.leb_le in Hm. }
  destruct (mergeStep_located toLowerCase partial_ratio paragraphTexts nowIso st i item Hbest)
    as (d' & p & Hd' & _ & Hp & _ & Ha & Hps).
  rewrite (findBestParagraphMatch_length partial_ratio (paragraphs st) paragraphs0 _ _ Hlen)
    in Hbest, Hp, Ha, Hps.
  assert (d' = d) by (rewrite Hd in Hd'; now apply app_inj_tail in Hd' as [_ ->]).
  subst d'.
  set (b := bestIndex (bestOf item)) in *.
  set (j := Z.to_nat b).
  assert (Hb : b = Z.of_nat j) by (unfold j; lia).
  assert (Hpj : paragraphs st !! j = Some p).
  { unfold at_index in Hp. destruct (b <? 0); [discriminate|exact Hp]. }
  assert (Hjlt : (j < length (paragraphs st))%nat) by (apply lookup_lt_is_Some; eauto).
  assert (Hpel : isElement p = true).
  { rewrite Forall_forall in Hel. apply Hel. eapply list_elem_of_lookup_2. exact Hpj. }
  destruct p as [ns pre loc attrs kids|dd|dd]; try discriminate.
  set (p := Element ns pre loc attrs kids) in *.
  set (a := anchorNodeIndex d) in *.
  set (used := default (∅ : gset nat) (usedAnchorIndicesByParagraph st !! b)) in *.
  assert (Hused_bound : forall k, k ∈ used -> (k < length (getDirectChildAnchorCandidates p))%nat).
  { intros k Hk. apply (Hbound j p k Hpj). unfold used in Hk. now rewrite Hb in Hk. }
  assert (Hale : (a <= length (getDirectChildAnchorCandidates p))%nat).
  { rewrite Ha. apply probeUnused_le; [exact Hused_bound|].
    apply findBestAnchorCandidateIndexForOffset_le. }
  assert (Hlookj : paragraphs (step st i item) !! j
                   = Some (insertCommentAnchorIntoParagraph p (nextCommentId st) a)).
  { rewrite Hps. fold j. now apply list_lookup_insert_eq. }
  assert (Hlookne : forall j', j' <> j ->
            paragraphs (step st i item) !! j' = paragraphs st !! j').
  { intros j' Hne. rewrite Hps. fold j. apply list_lookup_insert_ne. congruence. }
  assert (Husedj : default (∅ : gset nat)
                     (usedAnchorIndicesByParagraph (step st i item) !! Z.of_nat j)
                   = {[a]} ∪ used).
  { rewrite Hused, <- Hb, lookup_insert_eq. reflexivity. }
  assert (Husedne : forall j', j' <> j ->
            usedAnchorIndicesByParagraph (step st i item) !! Z.of_nat j'
            = usedAnchorIndicesByParagraph st !! Z.of_nat j').
  { intros j' Hne. rewrite Hused. apply lookup_insert_ne. lia. }
  repeat split.
  - rewrite Hps. apply Forall_insert; [exact Hel|].
    now rewrite insertCommentAnchorIntoParagraph_isElement.
  - rewrite Hn, Hd, Hnext, length_app, Nat.add_1_r. reflexivity.
  - intros j' p'' k Hl Hk. destruct (decide (j' = j)) as [->|Hne].
    + rewrite Hlookj in Hl. injection Hl as <-. rewrite Husedj in Hk.
      unfold p. rewrite insertCommentAnchorIntoParagraph_candidates. fold p.
      apply elem_of_union in Hk as [Hk|Hk].
      * apply elem_of_singleton in Hk. subst k.
        destruct (Nat.ltb_spec a (length (getDirectChildAnchorCandidates p))); lia.
      * specialize (Hused_bound k Hk).
        destruct (Nat.ltb_spec a (length (getDirectChildAnchorCandidates p))); lia.
    + rewrite (Hlookne j' Hne) in Hl. rewrite (Husedne j' Hne) in Hk.
      exact (Hbound j' p'' k Hl Hk).
  - intros n d0 Hl. rewrite Hd in Hl.
    destruct (Nat.lt_ge_cases n (length (detailsSoFar st))) as [Hlt|Hge].
    + rewrite lookup_app_l in Hl by exact Hlt.
      destruct (Hwrap n d0 Hl) as (item0 & j0 & p0 & Hall0 & Hb0 & Hp0 & Hk0 & Hw0).
      exists item0, j0. destruct (decide (j0 = j)) as [->|Hne].
      * rewrite Hpj in Hp0. injection Hp0 as <-.
        assert (Hk0' : anchorNodeIndex d0 ∈ used) by (unfold used; rewrite Hb; exact Hk0).
        exists (insertCommentAnchorIntoParagraph p (nextCommentId st) a).
        split; [exact Hall0|]. split; [exact Hb0|]. split; [exact Hlookj|].
        rewrite Husedj. split; [apply elem_of_union; now right|].
        apply insertion_keeps_wrapped; [exact Hw0|].
        intros Heq. apply Hout. rewrite Heq. exact Hk0'.
      * exists p0. split; [exact Hall0|]. split; [exact Hb0|].
        split; [now rewrite (Hlookne j0 Hne)|].
        rewrite (Husedne j0 Hne). split; [exact Hk0|exact Hw0].
    + rewrite lookup_app_r in Hl by exact Hge.
      destruct (n - length (detailsSoFar st))%nat as [|m] eqn:En; [|destruct m; discriminate].
      simpl in Hl. injection Hl as <-.
      assert (n = length (detailsSoFar st)) by lia. subst n.
      exists item, j, (insertCommentAnchorIntoParagraph p (nextCommentId st) a).
      split; [now rewrite Hi|]. split; [exact Hb|]. split; [exact Hlookj|].
      rewrite Husedj. split; [apply elem_of_union; left; now apply elem_of_singleton|].
      rewrite <- Hnext. apply insertion_wraps. exact Hale.
Qed.

Lemma mergeLoop_markers (all : list MergeCommentItem) (next0 : Z) items i st :
  length (paragraphs st) = length paragraphs0 ->
  (forall k item, items !! k = Some item -> all !! (i + k)%nat = Some item) ->
  markersTracked partial_ratio paragraphs0 all next0 st ->
  markersTracked partial_ratio paragraphs0 all next0 (loop items i st).
Proof.
  revert i st. induction items as [|item items IH]; intros i st Hlen Hall Hinv; [exact Hinv|].
  simpl. apply IH.
  - now apply mergeStep_length.
  - intros k it Hk. replace (S i + k)%nat with (i + S k)%nat by lia. now apply Hall.
  - apply mergeStep_markers; [exact Hlen| |exact Hinv].
    rewrite <- (Nat.add_0_r i). now apply Hall.
Qed.

End MarkersAfterRun.

(** X20. After the run every comment written has its markers in place.
    For a document without nested paragraphs, whose paragraphs are
    elements, and as long as the last identifier given out stays below
    2^53, the entry number [n] of the report stands for the comment of
    identifier [getMaxCommentId + 1 + n]: in the paragraph matched to
    the entry's record, the range start of that comment, the anchor
    candidate number [anchorNodeIndex], the range end and the reference
    run stand next to one another in this order. Later insertions into
    the same paragraph do not come between them, and [anchorNodeIndex]
    names a candidate of the paragraph as it is after the run. *)
Theorem run_leaves_every_comment_wrapped
    (toLowerCase : jsstring -> jsstring) (partial_ratio : jsstring -> jsstring -> Z)
    (paragraphs0 : list Node) (commentsDoc0 : Node)
    (items : list MergeCommentItem) (nowIso : jsstring) :
  Forall noParagraphInside paragraphs0 ->
  Forall (fun p => isElement p = true) paragraphs0 ->
  let st := mergeRecords toLowerCase partial_ratio paragraphs0 commentsDoc0 items nowIso in
  getMaxCommentId commentsDoc0 + Z.of_nat (length (detailsSoFar st)) < 2 ^ 53 ->
  forall n d, detailsSoFar st !! n = Some d ->
    exists item j p before anchorNode after,
      items !! index d = Some item /\
      bestIndex (findBestParagraphMatch partial_ratio paragraphs0
                   (List.map getParagraphText paragraphs0)
                   (default [] (anchor_text item))) = Z.of_nat j /\
      paragraphs st !! j = Some p /\
      children p
      = before ++
        [commentRangeStart (getMaxCommentId commentsDoc0 + 1 + Z.of_nat n); anchorNode;
         commentRangeEnd (getMaxCommentId commentsDoc0 + 1 + Z.of_nat n);
         createCommentReferenceRun (getMaxCommentId commentsDoc0 + 1 + Z.of_nat n)]
        ++ after /\
      getDirectChildAnchorCandidates p !! anchorNodeIndex d = Some anchorNode /\
      length (List.filter isAnchorCandidate before) = anchorNodeIndex d.
Proof.
  intros _ Hel st Hbound n d Hd.
  assert (Hinv : markersTracked partial_ratio paragraphs0 items
                   (addOne (getMaxCommentId commentsDoc0)) st).
  { apply (mergeLoop_markers toLowerCase partial_ratio paragraphs0 nowIso items
             (addOne (getMaxCommentId commentsDoc0)) items 0
             (initialState paragraphs0 commentsDoc0) eq_refl).
    - intros k item Hk. exact Hk.
    - repeat split.
      + exact Hel.
      + intros j p k _ Hk. simpl in Hk. rewrite lookup_empty in Hk. simpl in Hk.
        now apply elem_of_empty in Hk.
      + intros n' d' Hd'. simpl in Hd'. discriminate. }
  destruct Hinv as (_ & _ & _ & Hwrap).
  destruct (Hwrap n d Hd) as (item & j & p & Hall & Hb & Hp & _ & Hw).
  assert (Hn : (n < length (detailsSoFar st))%nat) by (apply lookup_lt_is_Some; eauto).
  destruct (getMaxCommentId_ge commentsDoc0) as [H0 _].
  assert (Hid : nthId (addOne (getMaxCommentId commentsDoc0)) n
                = getMaxCommentId commentsDoc0 + 1 + Z.of_nat n).
  { rewrite addOne_exact by lia. apply nthId_exact; lia. }
  rewrite Hid in Hw.
  destruct Hw as (before & anchorNode & after & Hkids & Hcand & Hcount).
  exists item, j, p, before, anchorNode, after.
  repeat split; try assumption.
  unfold getDirectChildAnchorCandidates. rewrite Hkids.
  rewrite (filter_wrapped _ before after anchorNode Hcand).
  rewrite <- Hcount. now rewrite lookup_app_r, Nat.sub_diag by lia.
Qed.

Lemma run_leaves_every_comment_wrapped_witness :
  let st := mergeRecords toLowerCaseSample partialRatioSample
              [sampleParagraph] sampleComments sampleItems (js "now") in
  exists d p before anchorNode after,
    detailsSoFar st !! 1%nat = Some d /\ paragraphs st !! 0%nat = Some p /\
    index d = 2%nat /\
    children p = before ++ [commentRangeStart 9; anchorNode; commentRangeEnd 9;
                            createCommentReferenceRun 9] ++ after /\
    getDirectChildAnchorCandidates p !! anchorNodeIndex d = Some anchorNode.
Proof.
  intros st.
  destruct (lookup_lt_is_Some_2 (detailsSoFar st) 1) as [d Hd]; [vm_compute; lia|].
  destruct (run_leaves_every_comment_wrapped toLowerCaseSample partialRatioSample
              [sampleParagraph] sampleComments sampleItems (js "now")
              ltac:(repeat constructor) ltac:(repeat constructor) eq_refl 1%nat d Hd)
    as (item & j & p & before & anchorNode & after & Hitem & Hj & Hp & Hkids & Hcand & _).
  exists d, p, before, anchorNode, after. split; [exact Hd|].
  assert (Hidx : index d = 2%nat).
  { vm_compute in Hd. injection Hd as <-. reflexivity. }
  rewrite Hidx in Hitem. vm_compute in Hitem. injection Hitem as <-.
  vm_compute in Hj. destruct j; [|discriminate].
  repeat split; [exact Hp|exact Hidx|exact Hkids|exact Hcand].
Defined.
